(** * go-stree: segment tree, serial scan and parallel segment tree

    A shallow embedding of the Go packages [stree] (segment tree and serial
    scan) and [stree/multi] (segment tree built and queried with goroutines),
    followed by the properties established about them.

    Conventions of the embedding.
    - Go's [int] is a 64-bit two's complement integer.  Values are carried
      as [Z]; the only arithmetic the code performs on interval bounds is the
      [sl[0] + 1] of [Dedup], whose wrap-around is written out with [wrap].
    - A value of type [node] stands for a Go [*node]: [nilnode] is the nil
      pointer.  The overlap list holds pointers into the staging slice
      [t.base]; staged intervals are never written after [Push], so the
      pointed-to values are stored.
    - A method with a pointer receiver is a function from the receiver's
      state to an [outcome]: either it returns a value together with the
      receiver's new state, or it panics and leaves the receiver in the state
      it had at the panic.
    - A helper that can only fail by a run-time index panic returns
      [option]; [None] is that panic. *)

From Stdlib Require Import ZArith Lia String.
From stdpp Require Import base option list sorting gmap strings.

Open Scope Z_scope.

(** ** Go run-time conventions *)

(** Two's complement wrap-around of a 64-bit [int]. *)
Definition wrap (z : Z) : Z := (z + 2 ^ 63) `mod` 2 ^ 64 - 2 ^ 63.

Inductive outcome (S A : Type) : Type :=
| Returned (a : A) (s : S)
| Panicked (msg : string) (s : S).
Arguments Returned {S A} a s.
Arguments Panicked {S A} msg s.

(** ** Package stree (segment tree over elementary intervals) *)

Module stree.

Record Segment : Type := { From : Z; To : Z }.

(** [Interval] embeds [Segment]; the embedded field is [Seg]. *)
Record Interval : Type := { Id : Z; Seg : Segment }.

(** [*node]: nil, or a node with its segment, children and overlap list. *)
Inductive node : Type :=
| nilnode
| Node (segment : Segment) (left right : node) (overlap : list Interval).

Record stree : Type := {
  count : Z;
  root : node;
  base : list Interval;
  min : Z;
  max : Z
}.

(** [t.Clear()]; [NewTree] is [Clear] on a zero value. *)
Definition Clear (t : stree) : stree :=
  {| count := 0; root := nilnode; base := []; min := 0; max := 0 |}.

Definition NewTree : stree := Clear (Clear {| count := 0; root := nilnode; base := []; min := 0; max := 0 |}).

Definition Push (from to : Z) (t : stree) : stree :=
  {| count := wrap (count t + 1);
     root := root t;
     base := base t ++ [ {| Id := count t; Seg := {| From := from; To := to |} |} ];
     min := min t;
     max := max t |}.

(** [for i := 0; i < len(from); i++ { t.Push(from[i], to[i]) }]: the two
    slices are walked in lockstep; a missing [to[i]] is the index panic,
    raised after the earlier pairs were pushed. *)
Fixpoint PushArray (from to : list Z) (t : stree) : outcome stree unit :=
  match from, to with
  | [], _ => Returned tt t
  | f :: from', x :: to' => PushArray from' to' (Push f x t)
  | _ :: _, [] => Panicked "index out of range" t
  end.

(** The loop of [Dedup] over the sorted slice. *)
Fixpoint dedup_loop (sl : list Z) (unique : list Z) (prev : Z) : list Z :=
  match sl with
  | [] => unique
  | val :: rest =>
      if decide (val ≠ prev) then dedup_loop rest (unique ++ [val]) val
      else dedup_loop rest unique prev
  end.

(** [sort.Sort(sort.IntSlice(sl))] is the library sort of an [int] slice:
    its result is the ascending rearrangement of [sl]. *)
Definition Dedup (sl : list Z) : option (list Z) :=
  let sl := merge_sort Z.le sl in
  match sl with
  | [] => None
  | sl0 :: _ => Some (dedup_loop sl [] (wrap (sl0 + 1)))
  end.

(** The loop of [Endpoints]: [endpoints[i] = interval.From] and
    [endpoints[i+baseLen] = interval.To]. *)
Fixpoint endpoints_fill (baseLen i : nat) (base : list Interval) (endpoints : list Z)
  : list Z :=
  match base with
  | [] => endpoints
  | interval :: rest =>
      let endpoints := <[i := From (Seg interval)]> endpoints in
      let endpoints := <[(i + baseLen)%nat := To (Seg interval)]> endpoints in
      endpoints_fill baseLen (S i) rest endpoints
  end.

Definition Endpoints (base : list Interval) : option (list Z * Z * Z) :=
  let baseLen := length base in
  let endpoints := endpoints_fill baseLen 0 base (replicate (baseLen * 2) 0) in
  result ← Dedup endpoints;
  min ← result !! 0%nat;
  max ← result !! (length result - 1)%nat;
  Some (result, min, max).

(** The loop of [elementaryIntervals]; [rest] is [endpoints[i:]], so
    [endpoints[i]] is its head and [i < len(endpoints)-1] holds exactly
    when a next endpoint exists. *)
Fixpoint elementary_fill (i : nat) (rest : list Z) (intervals : list Segment)
  : list Segment :=
  match rest with
  | [] => intervals
  | p :: rest' =>
      let intervals := <[(i * 2)%nat := {| From := p; To := p |}]> intervals in
      let intervals :=
        match rest' with
        | q :: _ => <[(i * 2 + 1)%nat := {| From := p; To := q |}]> intervals
        | [] => intervals
        end in
      elementary_fill (S i) rest' intervals
  end.

(** On an empty slice [make([]Segment, -1)] panics. *)
Definition elementaryIntervals (endpoints : list Z) : option (list Segment) :=
  match endpoints with
  | [] => None
  | [p] => Some [ {| From := p; To := p |} ]
  | _ =>
      Some (elementary_fill 0 endpoints
              (replicate (length endpoints * 2 - 1) {| From := 0; To := 0 |}))
  end.

(** [insertNodes] recurses on the two halves of a slice; [fuel] bounds the
    depth of the recursion and [None] is either exhausted fuel or the index
    panic of [leaves[0]] on an empty slice. *)
Fixpoint insertNodes_rec (fuel : nat) (leaves : list Segment) : option node :=
  match fuel with
  | O => None
  | S fuel =>
      match leaves with
      | [] => None
      | [leaf] => Some (Node leaf nilnode nilnode [])
      | first :: _ =>
          lst ← last leaves;
          let center := (length leaves / 2)%nat in
          l ← insertNodes_rec fuel (take center leaves);
          r ← insertNodes_rec fuel (drop center leaves);
          Some (Node {| From := From first; To := To lst |} l r [])
      end
  end.

Definition insertNodes (leaves : list Segment) : option node :=
  insertNodes_rec (length leaves) leaves.

Definition Disjoint (s : Segment) (from to : Z) : bool :=
  if decide (from > To s ∨ to < From s) then true else false.

Definition subsetOf (s other : Segment) : bool :=
  bool_decide (From other <= From s ∧ To other >= To s).

Definition intersectsWith (s other : Segment) : bool :=
  bool_decide (From other <= To s ∧ From s <= To other ∨
               From s <= To other ∧ From other <= To s).

(** [node.left != nil && node.left.segment.intersectsWith(...)] *)
Definition child_intersects (child : node) (other : Segment) : bool :=
  match child with
  | nilnode => false
  | Node segment _ _ _ => intersectsWith segment other
  end.

(** [insertInterval] is only ever called on a non-nil node. *)
Fixpoint insertInterval (n : node) (intrvl : Interval) : node :=
  match n with
  | nilnode => nilnode
  | Node segment l r overlap =>
      if subsetOf segment (Seg intrvl) then
        Node segment l r (overlap ++ [intrvl])
      else
        let left' :=
          if child_intersects l (Seg intrvl) then insertInterval l intrvl
          else l in
        let right' :=
          if child_intersects r (Seg intrvl) then insertInterval r intrvl
          else r in
        Node segment left' right' overlap
  end.

Definition BuildTree (t : stree) : outcome stree unit :=
  if decide (length (base t) = 0%nat) then
    Panicked "No intervals in stack to build tree. Push intervals first" t
  else
    match Endpoints (base t) with
    | None => Panicked "index out of range" t
    | Some (endpoints, mn, mx) =>
        let t := {| count := count t; root := root t; base := base t;
                    min := mn; max := mx |} in
        match elementaryIntervals endpoints ≫= insertNodes with
        | None => Panicked "index out of range" t
        | Some n =>
            Returned tt
              {| count := count t;
                 root := foldl insertInterval n (base t);
                 base := base t; min := min t; max := max t |}
        end
    end.

(** The loop over [node.overlap] that stores every interval of the list in
    the result map under its [Id]. *)
Definition collect (overlap : list Interval) (result : gmap Z Interval)
  : gmap Z Interval :=
  foldl (λ res pintrvl, <[Id pintrvl := pintrvl]> res) result overlap.

(** The guards [node.right != nil] and [node.left != nil] are the
    [nilnode] case. *)
Fixpoint querySingle (n : node) (from to : Z) (result : gmap Z Interval)
  : gmap Z Interval :=
  match n with
  | nilnode => result
  | Node segment l r overlap =>
      if negb (Disjoint segment from to) then
        let result := collect overlap result in
        let result := querySingle r from to result in
        querySingle l from to result
      else result
  end.

(** The slice built by ranging over the result map (in no specified order). *)
Definition values (result : gmap Z Interval) : list Interval :=
  (map_to_list result).*2.

Definition Query (from to : Z) (t : stree) : outcome stree (list Interval) :=
  match root t with
  | nilnode => Panicked "Can't run query on empty tree. Call BuildTree() first" t
  | n => Returned (values (querySingle n from to ∅)) t
  end.

(** State of a batched traversal: the shared result map, and a record of
    the arguments of every invocation of [queryMulti] (segment of the node
    entered, [from], [to]) in call order.  The record is instrumentation:
    nothing reads it. *)
Record walk : Type := {
  result : gmap Z Interval;
  calls : list (Segment * list Z * list Z)
}.

(** The loop [for i, fromvalue := range from] of [queryMulti]; [to] is
    walked in lockstep and a missing [to[i]] is the index panic. *)
Fixpoint hits_loop (segment : Segment) (overlap : list Interval) (from to : list Z)
    (result : gmap Z Interval) (hitsFrom hitsTo : list Z)
  : option (gmap Z Interval * list Z * list Z) :=
  match from, to with
  | [], _ => Some (result, hitsFrom, hitsTo)
  | fromvalue :: from', tovalue :: to' =>
      if negb (Disjoint segment fromvalue tovalue) then
        hits_loop segment overlap from' to' (collect overlap result)
          (hitsFrom ++ [fromvalue]) (hitsTo ++ [tovalue])
      else hits_loop segment overlap from' to' result hitsFrom hitsTo
  | _ :: _, [] => None
  end.

Fixpoint queryMulti (n : node) (from to : list Z) (w : walk) : option walk :=
  match n with
  | nilnode => Some w
  | Node segment l r overlap =>
      let w := {| result := result w; calls := calls w ++ [(segment, from, to)] |} in
      '(res, hitsFrom, hitsTo) ← hits_loop segment overlap from to (result w) [] [];
      let w := {| result := res; calls := calls w |} in
      if decide (length hitsFrom ≠ 0%nat) then
        w ← queryMulti r hitsFrom hitsTo w;
        queryMulti l hitsFrom hitsTo w
      else Some w
  end.

Definition QueryArray (from to : list Z) (t : stree) : outcome stree (list Interval) :=
  match root t with
  | nilnode => Panicked "Can't run query on empty tree. Call BuildTree() first" t
  | n =>
      match queryMulti n from to {| result := ∅; calls := [] |} with
      | None => Panicked "index out of range" t
      | Some w => Returned (values (result w)) t
      end
  end.

End stree.

(** ** Package stree, earlier revision (endpoint tree, [CompareTo])

  The revision of [stree.go] that package [multi] is written against.  It
  differs from the one above in [insertNodes], which splits the endpoint
  slice itself, and in [insertInterval], which classifies a node with
  [CompareTo]. *)

Module stree0.
Import stree.

(** [SUBSET = iota], [DISJOINT], [INTERSECT_OR_SUPERSET] *)
Inductive relation : Type := SUBSET | DISJOINT | INTERSECT_OR_SUPERSET.

Definition CompareTo (s other : Segment) : relation :=
  if decide (From other > To s ∨ To other < From s) then DISJOINT
  else if decide (From other <= From s ∧ To other >= To s) then SUBSET
  else INTERSECT_OR_SUPERSET.

(** The guards [node.left != nil] and [node.right != nil] are the
    [nilnode] case. *)
Fixpoint insertInterval (n : node) (intrvl : Interval) : node :=
  match n with
  | nilnode => nilnode
  | Node segment l r overlap =>
      match CompareTo segment (Seg intrvl) with
      | SUBSET => Node segment l r (overlap ++ [intrvl])
      | INTERSECT_OR_SUPERSET =>
          let l' := insertInterval l intrvl in
          let r' := insertInterval r intrvl in
          Node segment l' r' overlap
      | DISJOINT => n
      end
  end.

(** [insertNodes] of this revision, over the endpoints themselves. *)
Fixpoint insertNodes_rec (fuel : nat) (endpoint : list Z) : option node :=
  match fuel with
  | O => None
  | S fuel =>
      match endpoint with
      | [] => None
      | [e0] => Some (Node {| From := e0; To := e0 |} nilnode nilnode [])
      | e0 :: _ =>
          lst ← last endpoint;
          let center := (length endpoint / 2)%nat in
          l ← insertNodes_rec fuel (take center endpoint);
          r ← insertNodes_rec fuel (drop center endpoint);
          Some (Node {| From := e0; To := lst |} l r [])
      end
  end.

Definition insertNodes (endpoint : list Z) : option node :=
  insertNodes_rec (length endpoint) endpoint.

Definition BuildTree (t : stree) : outcome stree unit :=
  if decide (length (base t) = 0%nat) then
    Panicked "No intervals in stack to build tree. Push intervals first" t
  else
    match Endpoints (base t) with
    | None => Panicked "index out of range" t
    | Some (endpoint, mn, mx) =>
        let t := {| count := count t; root := root t; base := base t;
                    min := mn; max := mx |} in
        match insertNodes endpoint with
        | None => Panicked "index out of range" t
        | Some n =>
            Returned tt
              {| count := count t;
                 root := foldl insertInterval n (base t);
                 base := base t; min := min t; max := max t |}
        end
    end.

End stree0.

(** ** The serial scan ([serial.go]) *)

Module serial.
Import stree.

Record SegmentOverlap : Type := {
  SO_Segment : Segment;
  SO_Interval : list Interval
}.

(** [type serial struct { stree }]: the embedded tree state is the whole
    state; [Push], [PushArray] and [Clear] are the promoted methods. *)
Definition serial : Type := stree.

Definition NewSerial : serial := NewTree.

Definition BuildTree (t : serial) : outcome serial unit :=
  Panicked "BuildTree() not supported for serial data structure" t.

Definition Print (t : serial) : outcome serial unit :=
  Panicked "Print() not supported for serial data structure" t.

Definition Tree2Array (t : serial) : outcome serial (list SegmentOverlap) :=
  Panicked "Tree2Array() not supported for serial data structure" t.

(** The loop of [Query] over [t.base]. *)
Fixpoint query_loop (base : list Interval) (from to : Z) (result : list Interval)
  : list Interval :=
  match base with
  | [] => result
  | intrvl :: rest =>
      if negb (Disjoint (Seg intrvl) from to) then
        query_loop rest from to (result ++ [intrvl])
      else query_loop rest from to result
  end.

Definition Query (from to : Z) (t : serial) : outcome serial (list Interval) :=
  Returned (query_loop (base t) from to []) t.

(** The loop of [QueryArray]; [to] is walked in lockstep with [from] and a
    missing [to[i]] is the index panic. *)
Fixpoint queryarray_loop (from to : list Z) (t : serial) (result : list Interval)
  : option (list Interval) :=
  match from, to with
  | [], _ => Some result
  | fromvalue :: from', tovalue :: to' =>
      match Query fromvalue tovalue t with
      | Returned r _ => queryarray_loop from' to' t (result ++ r)
      | Panicked _ _ => None
      end
  | _ :: _, [] => None
  end.

Definition QueryArray (from to : list Z) (t : serial) : outcome serial (list Interval) :=
  match queryarray_loop from to t [] with
  | Some result => Returned result t
  | None => Panicked "index out of range" t
  end.

End serial.

(** ** Tree traversal and flattening ([traverse], [Tree2Array])

    [traverse] takes the tree through the interface [Node]; both node types
    implement it with their fields, and [Overlap()] copies the intervals the
    overlap list points to.  A nil [*node] wrapped in the interface is what
    [reflect.ValueOf(node).IsNil()] detects. *)

Module diag.
Import stree.

(** A callback of type [NodeReceive] acts on the variables it captures,
    here a state of type [S]; [None] is a nil callback. *)
Fixpoint traverse {S : Type} (n : node) (enter leave : option (node → S → S)) (s : S)
  : S :=
  match n with
  | nilnode => s
  | Node _ l r _ =>
      let s := match enter with Some f => f n s | None => s end in
      let s := traverse r enter leave s in
      let s := traverse l enter leave s in
      match leave with Some f => f n s | None => s end
  end.

(** The callback of [Tree2Array]: append the node's segment and overlap
    list to [array]. *)
Definition append_node (n : node) (array : list serial.SegmentOverlap)
  : list serial.SegmentOverlap :=
  match n with
  | nilnode => array
  | Node segment _ _ overlap =>
      array ++ [ {| serial.SO_Segment := segment; serial.SO_Interval := overlap |} ]
  end.

Definition Tree2Array (root : node) : list serial.SegmentOverlap :=
  traverse root (Some append_node) None [].

(** [(t *stree) Tree2Array()] and [(t *mtree) Tree2Array()] *)
Definition stree_Tree2Array (t : stree) : outcome stree (list serial.SegmentOverlap) :=
  Returned (Tree2Array (root t)) t.

End diag.

(** ** Package multi (segment tree with goroutines)

  Goroutines are modelled by a sequential schedule.
  - Building: a subtree handed to [insertNodesAsync] is built where it is
    spawned; [wait] has joined every builder before the tree is used, and
    no builder touches another one's subtree.
  - Inserting: the staged intervals are inserted in staging order; every
    append to an overlap list is a critical section of the node's mutex,
    which is free between calls and is not represented.
  - Querying: a spawned traversal runs where it is spawned, on its own
    result map, and delivers the map to the result channel when it ends.
    Whether a send on [tw.queue] finds room depends on the other
    goroutines; [races] lists, for the successive attempts, whether the
    race was won.  The wait group has counted every spawned traversal
    down before [collect] reads the channel, and is not represented. *)

Module multi.
Import stree.

Definition P_LEVEL : nat := 6.

(** [mnode] is [node] with a [sync.Mutex]. *)
Definition mnode : Type := node.

Record mtree : Type := {
  count : Z;
  root : mnode;
  base : list Interval;
  min : Z;
  max : Z;
  numG : nat;
  single : bool
}.

Definition Clear (t : mtree) : mtree :=
  {| count := 0; root := nilnode; base := []; min := 0; max := 0;
     numG := 2 ^ P_LEVEL; single := false |}.

Definition NewMTree : mtree :=
  Clear {| count := 0; root := nilnode; base := []; min := 0; max := 0;
           numG := 0; single := false |}.

Definition Push (from to : Z) (t : mtree) : mtree :=
  {| count := wrap (count t + 1);
     root := root t;
     base := base t ++ [ {| Id := count t; Seg := {| From := from; To := to |} |} ];
     min := min t; max := max t; numG := numG t; single := single t |}.

(** [PushArray], as in package stree. *)
Fixpoint PushArray (from to : list Z) (t : mtree) : outcome mtree unit :=
  match from, to with
  | [], _ => Returned tt t
  | f :: from', x :: to' => PushArray from' to' (Push f x t)
  | _ :: _, [] => Panicked "index out of range" t
  end.

(** The goroutine of [insertNodesAsync] stores the subtree it builds in
    the parent's child slot. *)
Definition insertNodesAsync (build : list Z → nat → option mnode)
    (endpoint : list Z) (level : nat) : option mnode :=
  build endpoint level.

Fixpoint insertNodes_rec (fuel : nat) (t_max : Z) (t_single : bool)
    (endpoint : list Z) (level : nat) : option mnode :=
  match fuel with
  | O => None
  | S fuel =>
      match endpoint with
      | [] => None
      | [e0] => Some (Node {| From := e0; To := e0 |} nilnode nilnode [])
      | [e0; e1] =>
          if decide (e1 ≠ t_max) then
            Some (Node {| From := e0; To := e1 |}
                    (Node {| From := e0; To := e0 |} nilnode nilnode [])
                    (Node {| From := e1; To := e1 |} nilnode nilnode [])
                    [])
          else Some (Node {| From := e0; To := e1 |} nilnode nilnode [])
      | e0 :: _ =>
          lst ← last endpoint;
          let center := (length endpoint / 2)%nat in
          let level := S level in
          if bool_decide (level = P_LEVEL) && negb t_single then
            l ← insertNodesAsync (insertNodes_rec fuel t_max t_single)
                   (take (center + 1) endpoint) level;
            r ← insertNodesAsync (insertNodes_rec fuel t_max t_single)
                   (drop (center + 1) endpoint) level;
            Some (Node {| From := e0; To := lst |} l r [])
          else
            l ← insertNodes_rec fuel t_max t_single (take (center + 1) endpoint) level;
            r ← insertNodes_rec fuel t_max t_single (drop (center + 1) endpoint) level;
            Some (Node {| From := e0; To := lst |} l r [])
      end
  end.

Definition insertNodes (t : mtree) (endpoint : list Z) (level : nat) : option mnode :=
  insertNodes_rec (length endpoint) (max t) (single t) endpoint level.

(** The guards [node.left != nil] and [node.right != nil] are the
    [nilnode] case; the append is made holding [node.lock]. *)
Fixpoint insertInterval (n : mnode) (intrvl : Interval) : mnode :=
  match n with
  | nilnode => nilnode
  | Node segment l r overlap =>
      match stree0.CompareTo segment (Seg intrvl) with
      | stree0.SUBSET => Node segment l r (overlap ++ [intrvl])
      | stree0.INTERSECT_OR_SUPERSET =>
          let l' := insertInterval l intrvl in
          let r' := insertInterval r intrvl in
          Node segment l' r' overlap
      | stree0.DISJOINT => n
      end
  end.

(** [insertIntervalM]: one goroutine per staged interval, at most [numG]
    at a time, all joined before it returns. *)
Definition insertIntervalM (n : mnode) (base : list Interval) : mnode :=
  foldl insertInterval n base.

Definition BuildTree (t : mtree) : outcome mtree unit :=
  if decide (length (base t) = 0%nat) then
    Panicked "No intervals in stack to build tree. Push intervals first" t
  else
    match Endpoints (base t) with
    | None => Panicked "index out of range" t
    | Some (endpoint, mn, mx) =>
        let t := {| count := count t; root := root t; base := base t;
                    min := mn; max := mx; numG := numG t; single := single t |} in
        let t :=
          if decide (length endpoint < numG t * 10)%nat then
            {| count := count t; root := root t; base := base t;
               min := min t; max := max t; numG := numG t; single := true |}
          else t in
        match insertNodes t endpoint 0 with
        | None => Panicked "index out of range" t
        | Some n =>
            let n :=
              if negb (single t) then insertIntervalM n (base t)
              else foldl insertInterval n (base t) in
            Returned tt
              {| count := count t; root := n; base := base t;
                 min := min t; max := max t; numG := numG t; single := single t |}
        end
    end.

(** The tree walker.  [queue] is the number of tokens in the buffered
    channel [tw.queue] (capacity [num]); [results] is the content of the
    channel [tw.result]; [races] is the schedule described above; [calls]
    records the arguments of every invocation of [queryMulti] (segment of
    the node entered, [from], [to]) and is instrumentation only. *)
Record twalker : Type := {
  num : nat;
  queue : nat;
  results : list (gmap Z Interval);
  races : list bool;
  calls : list (Segment * list Z * list Z)
}.

Definition init (num : nat) (races : list bool) : twalker :=
  {| num := num; queue := 0; results := []; races := races; calls := [] |}.

(** [select { case tw.queue <- 1: ... default: ... }]: the send succeeds
    when the buffer has room.  Nothing ever receives from [tw.queue]. *)
Definition try_queue (tw : twalker) : bool * twalker :=
  let room := bool_decide (queue tw < num tw)%nat in
  let '(won, rest) :=
    match races tw with
    | [] => (true, [])
    | b :: rest => (b, rest)
    end in
  if room && won then
    (true, {| num := num tw; queue := S (queue tw); results := results tw;
              races := rest; calls := calls tw |})
  else
    (false, {| num := num tw; queue := queue tw; results := results tw;
               races := rest; calls := calls tw |}).

(** [tw.result <- result] *)
Definition deliver (result : gmap Z Interval) (tw : twalker) : twalker :=
  {| num := num tw; queue := queue tw; results := results tw ++ [result];
     races := races tw; calls := calls tw |}.

(** One child of [querySingle]: nothing if the child is nil; otherwise a
    goroutine on a new map when the send on [tw.queue] succeeds, and a
    plain call on the parent's map when it does not. *)
Definition spawn_or_call (child : mnode)
    (call : gmap Z Interval → twalker → bool → gmap Z Interval * twalker)
    (result : gmap Z Interval) (tw : twalker) : gmap Z Interval * twalker :=
  match child with
  | nilnode => (result, tw)
  | Node _ _ _ _ =>
      let '(ok, tw) := try_queue tw in
      if ok then (result, (call ∅ tw true).2)
      else call result tw false
  end.

Fixpoint querySingle (n : mnode) (from to : Z) (result : gmap Z Interval)
    (tw : twalker) (back : bool) : gmap Z Interval * twalker :=
  match n with
  | nilnode => (result, tw)
  | Node segment l r overlap =>
      let '(result, tw) :=
        if negb (Disjoint segment from to) then
          let result := collect overlap result in
          let '(result, tw) := spawn_or_call r (querySingle r from to) result tw in
          spawn_or_call l (querySingle l from to) result tw
        else (result, tw) in
      if back then (result, deliver result tw) else (result, tw)
  end.

(** [collect]: after the wait group, up to [num] maps are received from
    [tw.result] and copied into [result], key by key. *)
Definition collect_results (tw : twalker) (result : gmap Z Interval)
  : gmap Z Interval :=
  foldl (λ res rmap, rmap ∪ res) result (take (num tw) (results tw)).

(** [NUM_WORKER] is the package variable [runtime.NumCPU() * 2]. *)
Definition Query (NUM_WORKER : nat) (races : list bool) (from to : Z) (t : mtree)
  : outcome mtree (list Interval) :=
  match root t with
  | nilnode => Panicked "Can't run query on empty tree. Call BuildTree() first" t
  | n =>
      let tw := init NUM_WORKER races in
      let '(result, tw) := querySingle n from to ∅ tw false in
      Returned (values (collect_results tw result)) t
  end.

(** One child of [queryMulti], as [spawn_or_call]; an index panic in the
    child, goroutine or not, ends the program. *)
Definition spawn_or_call_multi (child : mnode)
    (call : gmap Z Interval → twalker → bool → option (gmap Z Interval * twalker))
    (result : gmap Z Interval) (tw : twalker) : option (gmap Z Interval * twalker) :=
  match child with
  | nilnode => Some (result, tw)
  | Node _ _ _ _ =>
      let '(ok, tw) := try_queue tw in
      if ok then
        '(_, tw) ← call ∅ tw true; Some (result, tw)
      else call result tw false
  end.

Fixpoint queryMulti (n : mnode) (from to : list Z) (result : gmap Z Interval)
    (tw : twalker) (back : bool) : option (gmap Z Interval * twalker) :=
  match n with
  | nilnode => Some (result, tw)
  | Node segment l r overlap =>
      let tw := {| num := num tw; queue := queue tw; results := results tw;
                   races := races tw;
                   calls := calls tw ++ [(segment, from, to)] |} in
      '(result, hitsFrom, hitsTo) ← hits_loop segment overlap from to result [] [];
      '(result, tw) ←
        (if decide (length hitsFrom ≠ 0%nat) then
           '(result, tw) ← spawn_or_call_multi r (queryMulti r from to) result tw;
           spawn_or_call_multi l (queryMulti l from to) result tw
         else Some (result, tw));
      if back then Some (result, deliver result tw) else Some (result, tw)
  end.

Definition QueryArray (NUM_WORKER : nat) (races : list bool) (from to : list Z)
    (t : mtree) : outcome mtree (list Interval) :=
  match root t with
  | nilnode => Panicked "Can't run query on empty tree. Call BuildTree() first" t
  | n =>
      let tw := init NUM_WORKER races in
      match queryMulti n from to ∅ tw false with
      | None => Panicked "index out of range" t
      | Some (result, tw) => Returned (values (collect_results tw result)) t
      end
  end.

Definition Tree2Array (t : mtree) : outcome mtree (list serial.SegmentOverlap) :=
  Returned (diag.Tree2Array (root t)) t.

End multi.

(** * Vocabulary of the properties *)

Import stree.

(** The identifiers of the intervals of a slice, as a set. *)
Definition ids (l : list Interval) : gset Z := list_to_set (Id <$> l).

(** The leaf sequence prescribed for endpoints [p1 < ... < pk]:
    [[p1,p1],[p1,p2],[p2,p2],[p2,p3],...,[pk,pk]]. *)
Fixpoint alternating (ps : list Z) : list Segment :=
  match ps with
  | [] => []
  | p :: rest =>
      {| From := p; To := p |} ::
      match rest with
      | [] => []
      | q :: _ => {| From := p; To := q |} :: alternating rest
      end
  end.

(** The points of a closed segment. *)
Definition covers (s : Segment) (x : Z) : Prop := From s <= x <= To s.

(** The leaves below a node, left to right. *)
Fixpoint leaves (n : node) : list Segment :=
  match n with
  | nilnode => []
  | Node segment nilnode nilnode _ => [segment]
  | Node _ l r _ => leaves l ++ leaves r
  end.

(** [subnode n t]: [n] is a node (not nil) of the tree [t]. *)
Inductive subnode : node → node → Prop :=
| subnode_here segment l r overlap :
    subnode (Node segment l r overlap) (Node segment l r overlap)
| subnode_left n segment l r overlap :
    subnode n l → subnode n (Node segment l r overlap)
| subnode_right n segment l r overlap :
    subnode n r → subnode n (Node segment l r overlap).

(** [built leaves n]: [n] has the shape [stree.insertNodes] gives the leaf
    slice [leaves], whatever its overlap lists hold. *)
Inductive built : list Segment → node → Prop :=
| built_leaf leaf overlap :
    built [leaf] (Node leaf nilnode nilnode overlap)
| built_node lvs first lst l r overlap :
    (2 <= length lvs)%nat →
    head lvs = Some first →
    last lvs = Some lst →
    built (take (length lvs / 2) lvs) l →
    built (drop (length lvs / 2) lvs) r →
    built lvs (Node {| From := From first; To := To lst |} l r overlap).

(** A leaf slice in which bounds never decrease and no segment is reversed. *)
Definition seg_le (a b : Segment) : Prop := From a <= From b ∧ To a <= To b.

Definition chain (lvs : list Segment) : Prop :=
  StronglySorted seg_le lvs ∧ Forall (λ s, From s <= To s) lvs.

(** A leaf slice in which every segment starts where the previous one ends. *)
Definition linked (lvs : list Segment) : Prop :=
  ∀ (i : nat) a b, lvs !! i = Some a → lvs !! S i = Some b → To a = From b.

(** [P segment intrvl] for every interval of every overlap list of a tree. *)
Fixpoint Forall_overlap (P : Segment → Interval → Prop) (n : node) : Prop :=
  match n with
  | nilnode => True
  | Node segment l r overlap =>
      Forall (P segment) overlap ∧ Forall_overlap P l ∧ Forall_overlap P r
  end.

(** The intervals found by [querySingle]: the overlap lists of the nodes it
    enters, in the order it reads them. *)
Fixpoint visited (n : node) (from to : Z) : list Interval :=
  match n with
  | nilnode => []
  | Node segment l r overlap =>
      if negb (Disjoint segment from to) then
        overlap ++ visited r from to ++ visited l from to
      else []
  end.

(** Every key of a result map is the [Id] of the interval stored under it. *)
Definition keyed (result : gmap Z Interval) : Prop :=
  ∀ k v, result !! k = Some v → Id v = k.

Arguments Disjoint : simpl never.
Arguments subsetOf : simpl never.
Arguments intersectsWith : simpl never.

(** What a traversal of [multi.querySingle] that finds the identifiers
    [found] does to its result map and to the walker: [out] is the pair it
    ends with, and the maps it and the goroutines under it deliver are
    appended to the result channel. *)
Definition single_spec (found : gset Z) (result : gmap Z Interval)
    (tw : multi.twalker) (back : bool) (out : gmap Z Interval * multi.twalker) : Prop :=
  multi.num out.2 = multi.num tw ∧
  multi.calls out.2 = multi.calls tw ∧
  (multi.queue tw <= multi.queue out.2)%nat ∧
  ((multi.queue tw <= multi.num tw)%nat → (multi.queue out.2 <= multi.num tw)%nat) ∧
  ∃ extra,
    multi.results out.2 = multi.results tw ++ extra ∧
    length extra =
      (multi.queue out.2 - multi.queue tw + if back then 1 else 0)%nat ∧
    (back = true → out.1 ∈ extra) ∧
    dom out.1 ∪ ⋃ (dom <$> extra) = dom result ∪ found ∧
    (keyed result → keyed out.1 ∧ Forall keyed extra).

(** The probe ranges of a batch that meet a segment. *)
Definition hits (segment : Segment) (ranges : list (Z * Z)) : list (Z * Z) :=
  filter (λ p, Disjoint segment p.1 p.2 = false) ranges.

(** The intervals found for any range of a batch. *)
Definition visited_any (n : node) (ranges : list (Z * Z)) : list Interval :=
  ranges ≫= λ p, visited n p.1 p.2.

(** [holds n i]: some overlap list of the tree [n] contains [i]. *)
Fixpoint holds (n : node) (i : Interval) : Prop :=
  match n with
  | nilnode => False
  | Node _ l r overlap => i ∈ overlap ∨ holds l i ∨ holds r i
  end.

(** The invariant of canonical insertion: an interval stored at a node
    contains the node's segment, and an interval stored below a node does
    not contain the node's segment. *)
Fixpoint canonical (n : node) : Prop :=
  match n with
  | nilnode => True
  | Node segment l r overlap =>
      (∀ i, i ∈ overlap → subsetOf segment (Seg i) = true) ∧
      (∀ i, holds l i ∨ holds r i → subsetOf segment (Seg i) = false) ∧
      canonical l ∧ canonical r
  end.

(** [within child s]: the segment of [child], if there is one, lies in [s]. *)
Definition within (child : node) (s : Segment) : Prop :=
  match child with
  | nilnode => True
  | Node segment _ _ _ => From s <= From segment ∧ To segment <= To s
  end.

(** No segment of the tree is reversed and every child's segment lies in
    its parent's. *)
Fixpoint nested (n : node) : Prop :=
  match n with
  | nilnode => True
  | Node segment l r _ =>
      From segment <= To segment ∧ within l segment ∧ within r segment ∧
      nested l ∧ nested r
  end.

(** The receiver's state after a call, whether it returned or panicked. *)
Definition state_of {S A : Type} (o : outcome S A) : S :=
  match o with
  | Returned _ s => s
  | Panicked _ s => s
  end.

(** The invocations of the sequential [queryMulti] below a node: each child
    is entered with the ranges that met the parent's segment. *)
Fixpoint stree_descents (n : node) (from to : list Z)
  : list (Segment * list Z * list Z) :=
  match n with
  | nilnode => []
  | Node segment l r _ =>
      (segment, from, to) ::
      let h := hits segment (zip from to) in
      if decide (h = []) then []
      else stree_descents r h.*1 h.*2 ++ stree_descents l h.*1 h.*2
  end.

(** The invocations of the parallel [queryMulti] below a node: each child
    is entered with the ranges the parent was entered with. *)
Fixpoint multi_descents (n : node) (from to : list Z)
  : list (Segment * list Z * list Z) :=
  match n with
  | nilnode => []
  | Node segment l r _ =>
      (segment, from, to) ::
      if decide (hits segment (zip from to) = []) then []
      else multi_descents r from to ++ multi_descents l from to
  end.

(** The number of nodes of a tree. *)
Fixpoint count_nodes (n : node) : nat :=
  match n with
  | nilnode => 0
  | Node _ l r _ => S (count_nodes l + count_nodes r)
  end.

(** The number of nodes on the longest path from a node down to a leaf. *)
Fixpoint height (n : node) : nat :=
  match n with
  | nilnode => 0
  | Node _ l r _ => S (Nat.max (height l) (height r))
  end.

(** The state after [Push(p.1, p.2)] for every pair of [ranges], in order. *)
Definition pushed (ranges : list (Z * Z)) (t : stree) : stree :=
  foldl (λ t p, Push p.1 p.2 t) t ranges.

Definition mpushed (ranges : list (Z * Z)) (t : multi.mtree) : multi.mtree :=
  foldl (λ t p, multi.Push p.1 p.2 t) t ranges.

(** The bounds of the staged intervals, as a set. *)
Definition bounds (base : list Interval) : gset Z :=
  list_to_set ((From ∘ Seg <$> base) ++ (To ∘ Seg <$> base)).

(** The intervals found by the parallel [queryMulti]: the overlap lists of
    the nodes some range of the batch meets, below nodes some range of the
    batch meets. *)
Fixpoint visited_all (n : node) (ranges : list (Z * Z)) : list Interval :=
  match n with
  | nilnode => []
  | Node segment l r overlap =>
      if decide (hits segment ranges = []) then []
      else overlap ++ visited_all r ranges ++ visited_all l ranges
  end.

(** [single_spec] without the clause on the recorded invocations, for the
    traversals of [multi.queryMulti], which record theirs. *)
Definition walker_spec (found : gset Z) (result : gmap Z Interval)
    (tw : multi.twalker) (back : bool) (out : gmap Z Interval * multi.twalker) : Prop :=
  multi.num out.2 = multi.num tw ∧
  (multi.queue tw <= multi.queue out.2)%nat ∧
  ((multi.queue tw <= multi.num tw)%nat → (multi.queue out.2 <= multi.num tw)%nat) ∧
  ∃ extra,
    multi.results out.2 = multi.results tw ++ extra ∧
    length extra =
      (multi.queue out.2 - multi.queue tw + if back then 1 else 0)%nat ∧
    (back = true → out.1 ∈ extra) ∧
    dom out.1 ∪ ⋃ (dom <$> extra) = dom result ∪ found ∧
    (keyed result → keyed out.1 ∧ Forall keyed extra).

(** * Properties *)

(** ** Endpoint extraction *)

Section endpoints.
Import stree.

Lemma wrap_succ_ne z : wrap (z + 1) ≠ z.
Proof.
  unfold wrap. intros H.
  pose proof (Z.mod_pos_bound (z + 1 + 2 ^ 63) (2 ^ 64) ltac:(lia)) as Hb.
  destruct (decide (z + 1 + 2 ^ 63 < 2 ^ 64)) as [Hlt|Hge].
  - rewrite Z.mod_small in H by lia. lia.
  - assert (z + 1 + 2 ^ 63 = 2 ^ 64) as Heq by lia.
    rewrite Heq, Z_mod_same_full in H. lia.
Qed.

Lemma dedup_loop_acc sl : ∀ unique prev,
  dedup_loop sl unique prev = unique ++ dedup_loop sl [] prev.
Proof.
  induction sl as [|val rest IH]; intros unique prev; simpl.
  - by rewrite app_nil_r.
  - case_decide.
    + rewrite (IH (unique ++ [val])), (IH [val]). by rewrite <-app_assoc.
    + apply IH.
Qed.

(** Below a lower bound [prev] of a sorted slice, the loop keeps one copy
    of every value other than [prev], in strictly ascending order. *)
Lemma dedup_loop_sorted sl : ∀ prev,
  StronglySorted Z.le sl → Forall (Z.le prev) sl →
  StronglySorted Z.lt (dedup_loop sl [] prev) ∧
  Forall (Z.lt prev) (dedup_loop sl [] prev) ∧
  (∀ x, x ∈ dedup_loop sl [] prev ↔ x ∈ sl ∧ x ≠ prev).
Proof.
  induction sl as [|val rest IH]; intros prev Hs Hp; simpl.
  - split; [constructor|]. split; [constructor|]. intros x. set_solver.
  - apply StronglySorted_inv in Hs as [Hs Hval].
    apply Forall_cons in Hp as [Hpv Hp].
    case_decide as Hne.
    + rewrite dedup_loop_acc. simpl.
      destruct (IH val Hs Hval) as (IH1 & IH2 & IH3).
      split; [by constructor|].
      split.
      * constructor; [lia|]. eapply Forall_impl; [exact IH2|]. simpl. lia.
      * intros x. rewrite elem_of_cons, IH3, elem_of_cons.
        rewrite Forall_forall in IH2.
        split.
        -- intros [->|[Hx Hxv]]; [by auto|].
           split; [by right|]. rewrite Forall_forall in Hval.
           specialize (Hval x Hx). lia.
        -- intros [[->|Hx] Hxp]; [by left|].
           destruct (decide (x = val)); [by left|by right].
    + assert (val = prev) as -> by (destruct (decide (val = prev)); [done|contradiction]).
      destruct (IH prev Hs Hp) as (IH1 & IH2 & IH3).
      split; [done|]. split; [done|].
      intros x. rewrite IH3, elem_of_cons. naive_solver.
Qed.

Lemma Dedup_spec sl :
  sl ≠ [] →
  ∃ unique, Dedup sl = Some unique ∧ unique ≠ [] ∧
    StronglySorted Z.lt unique ∧ (∀ x, x ∈ unique ↔ x ∈ sl).
Proof.
  intros Hne. unfold Dedup.
  pose proof (merge_sort_Permutation Z.le sl) as Hperm.
  pose proof (StronglySorted_merge_sort Z.le sl) as Hsorted.
  destruct (merge_sort Z.le sl) as [|sl0 rest] eqn:Hms.
  { apply Permutation_nil_l in Hperm. congruence. }
  eexists. split; [done|].
  simpl. rewrite decide_True by (symmetry; apply not_eq_sym, not_eq_sym; intros E; by apply (wrap_succ_ne sl0)).
  rewrite dedup_loop_acc. simpl.
  apply StronglySorted_inv in Hsorted as [Hs Hsl0].
  destruct (dedup_loop_sorted rest sl0 Hs Hsl0) as (H1 & H2 & H3).
  split; [done|]. split; [by constructor|].
  intros x. rewrite <-Hperm, !elem_of_cons, H3.
  split; [naive_solver|].
  intros [->|Hx]; [by left|].
  destruct (decide (x = sl0)); [by left|by right].
Qed.

(** The array filled by [Endpoints]: every [From], then every [To]. *)
Lemma endpoints_fill_spec rest : ∀ done,
  endpoints_fill (length done + length rest) (length done) rest
    ((From ∘ Seg <$> done) ++ replicate (length rest) 0 ++
     (To ∘ Seg <$> done) ++ replicate (length rest) 0)
  = (From ∘ Seg <$> done ++ rest) ++ (To ∘ Seg <$> done ++ rest).
Proof.
  induction rest as [|interval rest IH]; intros done; simpl.
  - by rewrite !app_nil_r.
  - specialize (IH (done ++ [interval])).
    rewrite length_app in IH. simpl in IH.
    replace (length done + 1 + length rest)%nat
      with (length done + S (length rest))%nat in IH by lia.
    replace (length done + 1)%nat with (S (length done)) in IH by lia.
    rewrite <-!(assoc_L (++) done [interval] rest) in IH. simpl in IH.
    rewrite <-IH. f_equal.
    rewrite !fmap_app. simpl.
    rewrite <-!(assoc_L (++)). simpl.
    rewrite (insert_app_r_alt (From ∘ Seg <$> done)) by (rewrite length_fmap; lia).
    rewrite length_fmap, Nat.sub_diag. simpl.
    rewrite (insert_app_r_alt (From ∘ Seg <$> done)) by (rewrite length_fmap; lia).
    f_equal. rewrite length_fmap.
    replace (length done + (length done + S (length rest)) - length done)%nat
      with (S (length rest + length done)) by lia.
    simpl. f_equal.
    rewrite (insert_app_r_alt (replicate _ _)) by (rewrite length_replicate; lia).
    f_equal. rewrite length_replicate.
    rewrite (insert_app_r_alt (To ∘ Seg <$> done)) by (rewrite length_fmap; lia).
    f_equal. rewrite length_fmap.
    replace (length rest + length done - length rest - length done)%nat with 0%nat by lia.
    done.
Qed.

Lemma Endpoints_spec base :
  base ≠ [] →
  ∃ endpoints mn mx,
    Endpoints base = Some (endpoints, mn, mx) ∧
    StronglySorted Z.lt endpoints ∧
    (∀ x, x ∈ endpoints ↔ ∃ i, i ∈ base ∧ (x = From (Seg i) ∨ x = To (Seg i))) ∧
    head endpoints = Some mn ∧ last endpoints = Some mx.
Proof.
  intros Hne. unfold Endpoints.
  pose proof (endpoints_fill_spec base []) as Hfill. simpl in Hfill.
  assert (∀ n, replicate n 0 ++ replicate n 0 = replicate (n * 2) 0) as Hrep.
  { intros n. rewrite <-replicate_add. f_equal. lia. }
  rewrite Hrep in Hfill. rewrite Hfill.
  destruct (Dedup_spec ((From ∘ Seg <$> base) ++ (To ∘ Seg <$> base)))
    as (unique & -> & Hu & Hs & Hel).
  { destruct base; [done|]. done. }
  simpl.
  destruct unique as [|u0 unique]; [done|]. simpl.
  destruct (last (u0 :: unique)) as [mx|] eqn:Hlast.
  2:{ apply last_None in Hlast. done. }
  assert ((u0 :: unique) !! (length unique - 0)%nat = Some mx) as ->.
  { rewrite Nat.sub_0_r. rewrite last_lookup in Hlast. done. }
  simpl. eexists _, _, _. split; [done|]. split; [done|].
  split; [|done].
  intros x. rewrite Hel, elem_of_app, !list_elem_of_fmap. simpl.
  naive_solver.
Qed.

End endpoints.

(** ** Elementary intervals *)

Lemma alternating_length p ps :
  length (alternating (p :: ps)) = (2 * length (p :: ps) - 1)%nat.
Proof.
  revert p. induction ps as [|q ps IH]; intros p; [done|].
  specialize (IH q). simpl in *. lia.
Qed.

Lemma elementary_fill_spec rest : ∀ i pre junk,
  length pre = (i * 2)%nat →
  length junk = length (alternating rest) →
  elementary_fill i rest (pre ++ junk) = pre ++ alternating rest.
Proof.
  induction rest as [|p rest IH]; intros i pre junk Hpre Hjunk.
  - destruct junk; done.
  - destruct rest as [|q rest].
    + destruct junk as [|j [|??]]; try done. simpl.
      rewrite insert_app_r_alt by lia.
      by rewrite Hpre, Nat.sub_diag.
    + destruct junk as [|j0 [|j1 junk]]; try done.
      assert (length junk = length (alternating (q :: rest))) as Hj
        by (simpl in Hjunk |- *; lia).
      change (elementary_fill i (p :: q :: rest) (pre ++ j0 :: j1 :: junk))
        with (elementary_fill (S i) (q :: rest)
                (<[(i * 2 + 1)%nat := {| From := p; To := q |}]>
                   (<[(i * 2)%nat := {| From := p; To := p |}]>
                      (pre ++ j0 :: j1 :: junk)))).
      rewrite (insert_app_r_alt pre _ (i * 2)) by lia.
      rewrite Hpre, Nat.sub_diag.
      rewrite (insert_app_r_alt pre _ (i * 2 + 1)) by lia.
      replace (i * 2 + 1 - length pre)%nat with 1%nat by lia.
      cbn [list_insert insert].
      change (pre ++ {| From := p; To := p |} :: {| From := p; To := q |} :: junk)
        with (pre ++ [ {| From := p; To := p |}; {| From := p; To := q |} ] ++ junk).
      rewrite (assoc_L (++)).
      rewrite IH; [|rewrite length_app; simpl; lia|exact Hj].
      by rewrite <-(assoc_L (++)).
Qed.

Lemma elementaryIntervals_eq p ps :
  elementaryIntervals (p :: ps) = Some (alternating (p :: ps)).
Proof.
  destruct ps as [|q ps]; [done|].
  unfold elementaryIntervals. f_equal.
  pose proof (elementary_fill_spec (p :: q :: ps) 0 []
                (replicate (length (p :: q :: ps) * 2 - 1) {| From := 0; To := 0 |})) as H.
  apply H; [done|].
  rewrite length_replicate, alternating_length. lia.
Qed.

Lemma alternating_lookup_point ps : ∀ (i : nat) p,
  ps !! i = Some p →
  alternating ps !! (2 * i)%nat = Some {| From := p; To := p |}.
Proof.
  induction ps as [|p0 ps IH]; intros i p Hi; [done|].
  destruct i as [|i]; simpl in Hi.
  - by injection Hi as ->.
  - destruct ps as [|q ps]; [done|].
    replace (2 * S i)%nat with (S (S (2 * i))) by lia.
    apply (IH i p Hi).
Qed.

Lemma alternating_lookup_gap ps : ∀ (i : nat) p q,
  ps !! i = Some p → ps !! S i = Some q →
  alternating ps !! (2 * i + 1)%nat = Some {| From := p; To := q |}.
Proof.
  induction ps as [|p0 ps IH]; intros i p q Hi HSi; [done|].
  destruct i as [|i]; simpl in Hi, HSi.
  - injection Hi as ->. destruct ps as [|q0 ps]; [done|].
    simpl in HSi. by injection HSi as ->.
  - destruct ps as [|q0 ps]; [done|].
    replace (2 * S i + 1)%nat with (S (S (2 * i + 1))) by lia.
    apply (IH i p q Hi HSi).
Qed.

(** C2.  On a non-empty endpoint slice [p1, ..., pk], [elementaryIntervals]
    returns the alternating leaf sequence [p1,p1],[p1,p2],[p2,p2],...,
    [pk,pk]: it has [2k-1] entries, entry [2i] is the point segment of the
    [i]-th endpoint and entry [2i+1] the gap to the next endpoint; for a
    single endpoint it is the one degenerate segment. *)
Theorem elementaryIntervals_alternating (p1 : Z) (ps : list Z) :
  elementaryIntervals (p1 :: ps) = Some (alternating (p1 :: ps)) ∧
  length (alternating (p1 :: ps)) = (2 * length (p1 :: ps) - 1)%nat ∧
  (∀ (i : nat) p, (p1 :: ps) !! i = Some p →
     alternating (p1 :: ps) !! (2 * i)%nat = Some {| From := p; To := p |}) ∧
  (∀ (i : nat) p q, (p1 :: ps) !! i = Some p → (p1 :: ps) !! S i = Some q →
     alternating (p1 :: ps) !! (2 * i + 1)%nat = Some {| From := p; To := q |}) ∧
  elementaryIntervals [p1] = Some [ {| From := p1; To := p1 |} ].
Proof.
  split; [apply elementaryIntervals_eq|].
  split; [apply alternating_length|].
  split; [apply alternating_lookup_point|].
  split; [apply alternating_lookup_gap|done].
Qed.

Lemma elementaryIntervals_alternating_witness :
  elementaryIntervals [1; 4; 6] =
    Some [ {| From := 1; To := 1 |}; {| From := 1; To := 4 |};
           {| From := 4; To := 4 |}; {| From := 4; To := 6 |};
           {| From := 6; To := 6 |} ] ∧
  alternating [1; 4; 6] !! 2%nat = Some {| From := 4; To := 4 |} ∧
  alternating [1; 4; 6] !! 3%nat = Some {| From := 4; To := 6 |}.
Proof.
  pose proof (elementaryIntervals_alternating 1 [4; 6]) as (H1 & _ & H3 & H4 & _).
  split; [exact H1|].
  split; [exact (H3 1%nat 4 eq_refl)|exact (H4 1%nat 4 6 eq_refl eq_refl)].
Defined.

(** ** Shape of the tree built by [stree.insertNodes] *)

Lemma half_bounds (n : nat) : (2 <= n → 1 <= n / 2 ∧ n / 2 < n)%nat.
Proof.
  intros Hn. pose proof (Nat.div_mod_eq n 2) as Hd.
  pose proof (Nat.mod_upper_bound n 2 ltac:(lia)). lia.
Qed.

Lemma insertNodes_rec_S fuel lvs :
  (2 <= length lvs)%nat →
  insertNodes_rec (S fuel) lvs =
    first ← head lvs;
    lst ← last lvs;
    l ← insertNodes_rec fuel (take (length lvs / 2) lvs);
    r ← insertNodes_rec fuel (drop (length lvs / 2) lvs);
    Some (Node {| From := From first; To := To lst |} l r []).
Proof.
  destruct lvs as [|first [|second rest]]; simpl; try lia. done.
Qed.

Lemma insertNodes_rec_built fuel : ∀ lvs n,
  insertNodes_rec fuel lvs = Some n → built lvs n ∧ Forall_overlap (λ _ _, False) n.
Proof.
  induction fuel as [|fuel IH]; intros lvs n H; [done|].
  destruct (decide (2 <= length lvs)%nat) as [H2|H2].
  - rewrite insertNodes_rec_S in H by done.
    destruct (head lvs) as [first|] eqn:Hhead; [|done].
    destruct (last lvs) as [lst|] eqn:Hlast; [|done].
    simpl in H.
    destruct (insertNodes_rec fuel (take _ _)) as [l|] eqn:Hl; [|done].
    destruct (insertNodes_rec fuel (drop _ _)) as [r|] eqn:Hr; [|done].
    simpl in H. injection H as <-.
    apply IH in Hl as [Hl Hlo]. apply IH in Hr as [Hr Hro].
    split; [|simpl; auto].
    by apply built_node.
  - destruct lvs as [|first [|second rest]]; [done| |simpl in H2; lia].
    injection H as <-. split; [constructor|]. simpl. auto.
Qed.

Lemma insertNodes_rec_total fuel : ∀ lvs,
  lvs ≠ [] → (length lvs <= fuel)%nat → is_Some (insertNodes_rec fuel lvs).
Proof.
  induction fuel as [|fuel IH]; intros lvs Hne Hlen.
  { destruct lvs; [done|simpl in Hlen; lia]. }
  destruct (decide (2 <= length lvs)%nat) as [H2|H2].
  - rewrite insertNodes_rec_S by done.
    pose proof (half_bounds _ H2) as [Hc1 Hc2].
    destruct (head lvs) as [first|] eqn:Hhead.
    2:{ apply head_None in Hhead. done. }
    destruct (last lvs) as [lst|] eqn:Hlast.
    2:{ apply last_None in Hlast. done. }
    destruct (IH (take (length lvs / 2) lvs)) as [l ->].
    { intros E. apply (f_equal length) in E. rewrite length_take in E. cbn [length] in E. lia. }
    { rewrite length_take. lia. }
    destruct (IH (drop (length lvs / 2) lvs)) as [r ->].
    { intros E. apply (f_equal length) in E. rewrite length_drop in E. cbn [length] in E. lia. }
    { rewrite length_drop. lia. }
    simpl. by eexists.
  - destruct lvs as [|first [|second rest]]; [done|by eexists|simpl in H2; lia].
Qed.

(** [insertNodes] returns on every non-empty leaf slice. *)
Lemma insertNodes_built lvs :
  lvs ≠ [] →
  ∃ n, insertNodes lvs = Some n ∧ built lvs n ∧ Forall_overlap (λ _ _, False) n.
Proof.
  intros Hne. unfold insertNodes.
  destruct (insertNodes_rec_total (length lvs) lvs Hne ltac:(lia)) as [n Hn].
  exists n. split; [done|]. by apply insertNodes_rec_built in Hn.
Qed.

Lemma built_not_nil lvs n : built lvs n → n ≠ nilnode ∧ lvs ≠ [].
Proof.
  destruct 1 as [|lvs ???????]; [done|]. split; [done|]. by destruct lvs.
Qed.

Lemma built_segment lvs segment l r overlap first lst :
  built lvs (Node segment l r overlap) →
  head lvs = Some first → last lvs = Some lst →
  From segment = From first ∧ To segment = To lst.
Proof.
  inversion 1; subst; intros Hh Hl.
  - simpl in *. by simplify_eq.
  - simplify_eq. done.
Qed.

Lemma built_leaves lvs n : built lvs n → leaves n = lvs.
Proof.
  induction 1 as [|lvs first lst l r overlap ??? Hl IHl Hr IHr]; [done|].
  apply built_not_nil in Hl as [Hl _]. apply built_not_nil in Hr as [Hr _].
  destruct l; [done|]. destruct r; [done|].
  cbn [leaves] in *. rewrite IHl.
  change (leaves (Node segment0 r1 r2 overlap1)) with (leaves (Node segment0 r1 r2 overlap1)).
  destruct l1, l2; rewrite ?IHr; try (by rewrite take_drop).
  all: rewrite <-(take_drop (length lvs / 2) lvs) at 3; by f_equal.
Qed.

Lemma chain_take k lvs : chain lvs → chain (take k lvs).
Proof.
  intros [Hs Hf]. split; [|by apply Forall_take].
  rewrite <-(take_drop k lvs) in Hs. by apply StronglySorted_app_1_l in Hs.
Qed.

Lemma chain_drop k lvs : chain lvs → chain (drop k lvs).
Proof.
  intros [Hs Hf]. split; [|by apply Forall_drop].
  rewrite <-(take_drop k lvs) in Hs. by apply StronglySorted_app_1_r in Hs.
Qed.

Lemma chain_ordered lvs leaf : chain lvs → leaf ∈ lvs → From leaf <= To leaf.
Proof. intros [_ Hf] Hin. rewrite Forall_forall in Hf. by apply Hf. Qed.

Lemma chain_head lvs first leaf :
  chain lvs → head lvs = Some first → leaf ∈ lvs → From first <= From leaf.
Proof.
  intros [Hs _] Hh Hin. destruct lvs as [|x lvs]; [done|].
  simpl in Hh. injection Hh as ->.
  apply elem_of_cons in Hin as [->|Hin]; [lia|].
  apply StronglySorted_inv in Hs as [_ Hall].
  rewrite Forall_forall in Hall. by apply Hall.
Qed.

Lemma chain_last lvs lst leaf :
  chain lvs → last lvs = Some lst → leaf ∈ lvs → To leaf <= To lst.
Proof.
  intros [Hs _] Hl Hin. apply last_Some in Hl as [lvs' ->].
  apply elem_of_app in Hin as [Hin|Hin].
  - eapply (StronglySorted_app_1_elem_of seg_le lvs' [lst] leaf lst) in Hs; [by destruct Hs|done|].
    by apply list_elem_of_singleton.
  - apply list_elem_of_singleton in Hin as ->. lia.
Qed.

(** The segment of a node spans every leaf below it. *)
Lemma built_spans lvs segment l r overlap leaf :
  built lvs (Node segment l r overlap) → chain lvs → leaf ∈ lvs →
  From segment <= From leaf ∧ To leaf <= To segment.
Proof.
  intros Hb Hc Hin.
  destruct (head lvs) as [first|] eqn:Hh.
  2:{ apply head_None in Hh. subst. by apply elem_of_nil in Hin. }
  destruct (last lvs) as [lst|] eqn:Hl.
  2:{ apply last_None in Hl. subst. by apply elem_of_nil in Hin. }
  destruct (built_segment _ _ _ _ _ _ _ Hb Hh Hl) as [-> ->].
  split; [by eapply chain_head|by eapply chain_last].
Qed.

Lemma alternating_bounds ps s :
  s ∈ alternating ps → From s ∈ ps ∧ To s ∈ ps.
Proof.
  revert s. induction ps as [|p ps IH]; intros s Hs; [by apply elem_of_nil in Hs|].
  simpl in Hs. apply elem_of_cons in Hs as [->|Hs]; [simpl; split; left|].
  destruct ps as [|q ps]; [by apply elem_of_nil in Hs|].
  apply elem_of_cons in Hs as [->|Hs]; [simpl; split; [left|right; left]|].
  apply IH in Hs as [??]. split; by right.
Qed.

Lemma alternating_chain ps : StronglySorted Z.lt ps → chain (alternating ps).
Proof.
  induction ps as [|p ps IH]; intros Hs; [split; constructor|].
  apply StronglySorted_inv in Hs as [Hs Hp].
  specialize (IH Hs) as [IH1 IH2].
  rewrite Forall_forall in Hp.
  destruct ps as [|q ps].
  { split; repeat constructor; simpl; lia. }
  assert (p < q) as Hpq by (apply Hp; left).
  assert (∀ s, s ∈ alternating (q :: ps) → q <= From s ∧ q <= To s) as Hge.
  { intros s Hin. apply alternating_bounds in Hin as [Hf Ht].
    apply StronglySorted_inv in Hs as [_ Hq]. rewrite Forall_forall in Hq.
    apply elem_of_cons in Hf as [->|Hf]; apply elem_of_cons in Ht as [->|Ht];
      try apply Hq in Hf; try apply Hq in Ht; lia. }
  change (alternating (p :: q :: ps))
    with ({| From := p; To := p |} :: {| From := p; To := q |} :: alternating (q :: ps)).
  split.
  - constructor; [constructor; [done|]|].
    + apply Forall_forall. intros s Hin. apply Hge in Hin. unfold seg_le. simpl. lia.
    + constructor; [unfold seg_le; simpl; lia|].
      apply Forall_forall. intros s Hin. apply Hge in Hin. unfold seg_le. simpl. lia.
  - constructor; [simpl; lia|]. constructor; [simpl; lia|done].
Qed.

(** ** Result maps *)

Lemma elem_of_ids (l : list Interval) (x : Z) :
  x ∈ ids l ↔ ∃ i, i ∈ l ∧ Id i = x.
Proof.
  unfold ids. rewrite elem_of_list_to_set, list_elem_of_fmap. naive_solver.
Qed.

Lemma ids_app (l1 l2 : list Interval) : ids (l1 ++ l2) = ids l1 ∪ ids l2.
Proof. unfold ids. by rewrite fmap_app, list_to_set_app_L. Qed.

Lemma collect_dom overlap : ∀ result : gmap Z Interval,
  dom (collect overlap result) = dom result ∪ ids overlap.
Proof.
  unfold collect, ids.
  induction overlap as [|i overlap IH]; intros result; simpl.
  - set_solver.
  - rewrite IH, dom_insert_L. set_solver.
Qed.

Lemma collect_keyed overlap : ∀ result : gmap Z Interval,
  keyed result → keyed (collect overlap result).
Proof.
  unfold collect.
  induction overlap as [|i overlap IH]; intros result Hk; simpl; [done|].
  apply IH. intros k v. rewrite lookup_insert. case_decide; naive_solver.
Qed.

Lemma collect_idemp overlap (result : gmap Z Interval) :
  dom (collect overlap (collect overlap result)) = dom (collect overlap result).
Proof. rewrite !collect_dom. set_solver. Qed.

Lemma querySingle_dom n from to : ∀ result : gmap Z Interval,
  dom (querySingle n from to result) = dom result ∪ ids (visited n from to).
Proof.
  induction n as [|segment l IHl r IHr overlap]; intros result; simpl.
  - unfold ids. set_solver.
  - destruct (Disjoint segment from to); simpl.
    + unfold ids. set_solver.
    + rewrite IHl, IHr, collect_dom, !ids_app. set_solver.
Qed.

Lemma querySingle_keyed n from to : ∀ result : gmap Z Interval,
  keyed result → keyed (querySingle n from to result).
Proof.
  induction n as [|segment l IHl r IHr overlap]; intros result Hk; simpl; [done|].
  destruct (Disjoint segment from to); simpl; [done|].
  by apply IHl, IHr, collect_keyed.
Qed.

Lemma keyed_empty : keyed ∅.
Proof. intros k v. by rewrite lookup_empty. Qed.

(** The identifiers of the slice read off a result map are its keys. *)
Lemma ids_values (result : gmap Z Interval) :
  keyed result → ids (values result) = dom result.
Proof.
  intros Hk. apply set_eq. intros x.
  rewrite elem_of_ids, elem_of_dom. unfold values. split.
  - intros (i & Hi & <-). apply list_elem_of_fmap in Hi as ([k v] & -> & Hkv).
    apply elem_of_map_to_list in Hkv. simpl.
    rewrite <-(Hk k v Hkv) in Hkv. by eexists.
  - intros [v Hv]. exists v. split; [|by apply Hk].
    apply list_elem_of_fmap. exists (x, v). split; [done|].
    by apply elem_of_map_to_list.
Qed.

(** ** Canonical insertion into a built tree *)

Lemma insertInterval_built lvs n intrvl :
  built lvs n → built lvs (insertInterval n intrvl).
Proof.
  induction 1 as [|lvs first lst l r overlap ??? Hl IHl Hr IHr]; simpl.
  - destruct (subsetOf leaf (Seg intrvl)); constructor.
  - destruct (subsetOf _ (Seg intrvl)); [by constructor|].
    constructor; try done.
    + by destruct (child_intersects l (Seg intrvl)).
    + by destruct (child_intersects r (Seg intrvl)).
Qed.

Lemma foldl_insertInterval_built lvs intervals : ∀ n,
  built lvs n → built lvs (foldl insertInterval n intervals).
Proof.
  induction intervals as [|i intervals IH]; intros n Hb; simpl; [done|].
  by apply IH, insertInterval_built.
Qed.

Lemma visited_insertInterval n intrvl from to j :
  j ∈ visited n from to → j ∈ visited (insertInterval n intrvl) from to.
Proof.
  induction n as [|segment l IHl r IHr overlap]; simpl; [done|].
  destruct (subsetOf segment (Seg intrvl)); simpl;
    destruct (Disjoint segment from to); simpl; try done.
  - rewrite !elem_of_app. naive_solver.
  - rewrite !elem_of_app.
    destruct (child_intersects l (Seg intrvl)), (child_intersects r (Seg intrvl));
      naive_solver.
Qed.

Lemma visited_foldl_insertInterval intervals from to j : ∀ n,
  j ∈ visited n from to → j ∈ visited (foldl insertInterval n intervals) from to.
Proof.
  induction intervals as [|i intervals IH]; intros n Hj; simpl; [done|].
  by apply IH, visited_insertInterval.
Qed.

Lemma Forall_overlap_impl (P Q : Segment → Interval → Prop) n :
  (∀ s i, P s i → Q s i) → Forall_overlap P n → Forall_overlap Q n.
Proof.
  intros HPQ. induction n as [|segment l IHl r IHr overlap]; simpl; [done|].
  intros (Ho & Hl & Hr). split; [|by auto].
  eapply Forall_impl; [exact Ho|]. auto.
Qed.

Lemma insertInterval_Forall_overlap (P : Segment → Interval → Prop) n intrvl :
  (∀ s, subsetOf s (Seg intrvl) = true → P s intrvl) →
  Forall_overlap P n → Forall_overlap P (insertInterval n intrvl).
Proof.
  intros HP. induction n as [|segment l IHl r IHr overlap]; simpl; [done|].
  intros (Ho & Hl & Hr).
  destruct (subsetOf segment (Seg intrvl)) eqn:Hsub; simpl.
  - split; [|done]. apply Forall_app. split; [done|]. constructor; [by apply HP|constructor].
  - split; [done|].
    split; [destruct (child_intersects l _)|destruct (child_intersects r _)]; auto.
Qed.

Lemma visited_Forall_overlap (P : Segment → Interval → Prop) n from to j :
  Forall_overlap P n → j ∈ visited n from to →
  ∃ s, P s j ∧ Disjoint s from to = false.
Proof.
  induction n as [|segment l IHl r IHr overlap]; simpl.
  { intros _ Hj. by apply elem_of_nil in Hj. }
  intros (Ho & Hl & Hr).
  destruct (Disjoint segment from to) eqn:Hd; simpl.
  { intros Hj. by apply elem_of_nil in Hj. }
  rewrite !elem_of_app. intros [Hj|[Hj|Hj]]; [|by auto|by auto].
  rewrite Forall_forall in Ho. eauto.
Qed.

(** An interval that contains a leaf is stored on the path to that leaf,
    at a node every query touching the leaf enters. *)
Lemma insertInterval_reaches lvs n intrvl from to leaf :
  built lvs n → chain lvs → leaf ∈ lvs →
  subsetOf leaf (Seg intrvl) = true → Disjoint leaf from to = false →
  intrvl ∈ visited (insertInterval n intrvl) from to.
Proof.
  intros Hb. revert leaf.
  induction Hb as [leaf0 overlap|lvs first lst l r overlap H2 Hh Hla Hl IHl Hr IHr];
    intros leaf Hc Hin Hsub Hdis.
  - apply list_elem_of_singleton in Hin as ->. simpl.
    rewrite Hsub. simpl. rewrite Hdis. simpl.
    rewrite !elem_of_app. left. right. by left.
  - assert (built lvs (Node {| From := From first; To := To lst |} l r overlap)) as Hb
      by (by constructor).
    pose proof (built_spans _ _ _ _ _ _ Hb Hc Hin) as [Hf Ht].
    pose proof (chain_ordered _ _ Hc Hin) as Hord.
    assert (Disjoint {| From := From first; To := To lst |} from to = false) as Hdroot.
    { unfold Disjoint in *. simpl in *. repeat case_decide; try done. lia. }
    simpl.
    destruct (subsetOf {| From := From first; To := To lst |} (Seg intrvl)) eqn:Hsroot;
      simpl; rewrite Hdroot; simpl.
    { rewrite !elem_of_app. left. right. by left. }
    rewrite <-(take_drop (length lvs / 2) lvs) in Hin.
    rewrite !elem_of_app.
    apply elem_of_app in Hin as [Hin|Hin].
    + right. right.
      specialize (IHl leaf (chain_take _ _ Hc) Hin Hsub Hdis).
      assert (child_intersects l (Seg intrvl) = true) as ->; [|done].
      destruct l as [|ls ll lr lo]; [by apply built_not_nil in Hl as [??]|].
      pose proof (built_spans _ _ _ _ _ _ Hl (chain_take _ _ Hc) Hin) as [Hf' Ht'].
      unfold child_intersects, intersectsWith, subsetOf in *.
      apply bool_decide_eq_true in Hsub. apply bool_decide_eq_true. lia.
    + right. left.
      specialize (IHr leaf (chain_drop _ _ Hc) Hin Hsub Hdis).
      assert (child_intersects r (Seg intrvl) = true) as ->; [|done].
      destruct r as [|rs rl rr ro]; [by apply built_not_nil in Hr as [??]|].
      pose proof (built_spans _ _ _ _ _ _ Hr (chain_drop _ _ Hc) Hin) as [Hf' Ht'].
      unfold child_intersects, intersectsWith, subsetOf in *.
      apply bool_decide_eq_true in Hsub. apply bool_decide_eq_true. lia.
Qed.

(** Between the first and the last endpoint every point lies in a leaf that
    is either that endpoint's point segment or the gap between two
    neighbouring endpoints. *)
Lemma alternating_locate ps : ∀ x first lst,
  StronglySorted Z.lt ps → head ps = Some first → last ps = Some lst →
  first <= x <= lst →
  ∃ leaf, leaf ∈ alternating ps ∧ covers leaf x ∧
    ((From leaf = x ∧ To leaf = x) ∨
     (From leaf < x < To leaf ∧ From leaf ∈ ps ∧
      ∀ e, e ∈ ps → e <= From leaf ∨ To leaf <= e)).
Proof.
  induction ps as [|p ps IH]; intros x first lst Hs Hh Hl Hx; [done|].
  simpl in Hh. injection Hh as ->.
  destruct (decide (x = first)) as [->|Hne].
  { exists {| From := first; To := first |}. split; [by left|].
    split; [unfold covers; simpl; lia|]. by left. }
  destruct ps as [|q ps].
  { simpl in Hl. injection Hl as ->. lia. }
  apply StronglySorted_inv in Hs as [Hs Hp]. rewrite Forall_forall in Hp.
  assert (first < q) as Hpq by (apply Hp; left).
  destruct (decide (x < q)) as [Hlt|Hge].
  - exists {| From := first; To := q |}. split; [right; by left|].
    split; [unfold covers; simpl; lia|]. right. simpl.
    split; [lia|]. split; [by left|]. intros e He.
    apply elem_of_cons in He as [->|He]; [lia|]. right.
    apply elem_of_cons in He as [->|He]; [lia|].
    apply StronglySorted_inv in Hs as [_ Hq]. rewrite Forall_forall in Hq.
    apply Hq in He. lia.
  - rewrite last_cons_cons in Hl.
    destruct (IH x q lst Hs eq_refl Hl ltac:(lia)) as (leaf & Hin & Hcov & Hkind).
    exists leaf. split; [right; right; exact Hin|]. split; [done|].
    destruct Hkind as [?|(Hstrict & Hfrom & Hgap)]; [by left|]. right.
    split; [done|]. split; [by right|]. intros e He.
    apply elem_of_cons in He as [->|He]; [|by apply Hgap].
    left. apply elem_of_cons in Hfrom as [->|Hfrom]; [lia|].
    apply StronglySorted_inv in Hs as [_ Hq]. rewrite Forall_forall in Hq.
    apply Hq in Hfrom. lia.
Qed.

(** A staged interval that meets a probe range contains a leaf that meets
    the probe range. *)
Lemma alternating_witness_leaf ps first lst from to f t :
  StronglySorted Z.lt ps → head ps = Some first → last ps = Some lst →
  f ∈ ps → t ∈ ps → f <= t → from <= to →
  Disjoint {| From := f; To := t |} from to = false →
  ∃ leaf, leaf ∈ alternating ps ∧
    subsetOf leaf {| From := f; To := t |} = true ∧ Disjoint leaf from to = false.
Proof.
  intros Hs Hh Hl Hf Ht Hft Hab Hdis.
  assert (from <= t ∧ f <= to) as [H1 H2].
  { unfold Disjoint in Hdis. simpl in Hdis. case_decide; [done|lia]. }
  assert (first <= f ∧ t <= lst) as [Hlo Hhi].
  { pose proof (alternating_chain ps Hs) as Hc.
    destruct ps as [|p ps]; [done|]. simpl in Hh. injection Hh as ->.
    split.
    - apply elem_of_cons in Hf as [->|Hf]; [lia|].
      apply StronglySorted_inv in Hs as [_ Hp]. rewrite Forall_forall in Hp.
      apply Hp in Hf. lia.
    - apply last_Some in Hl as [ps' Hps']. rewrite Hps' in Hs, Ht.
      apply elem_of_app in Ht as [Ht|Ht].
      + eapply (StronglySorted_app_1_elem_of Z.lt ps' [lst] t lst) in Hs; [lia|done|].
        by apply list_elem_of_singleton.
      + apply list_elem_of_singleton in Ht as ->. lia. }
  destruct (alternating_locate ps (Z.max from f) first lst Hs Hh Hl ltac:(lia))
    as (leaf & Hin & [Hc1 Hc2] & Hkind).
  exists leaf. split; [done|].
  unfold subsetOf, Disjoint. simpl.
  destruct Hkind as [[Hx1 Hx2]|(Hstrict & Hfrom & Hgap)].
  - split; [apply bool_decide_eq_true; lia|]. case_decide; [lia|done].
  - destruct (Hgap f Hf), (Hgap t Ht);
      (split; [apply bool_decide_eq_true; lia|case_decide; [lia|done]]).
Qed.

(** ** [stree.BuildTree] and [stree.Query] against the serial scan *)

Lemma BuildTree_returns t :
  base t ≠ [] →
  ∃ endpoints mn mx n0,
    Endpoints (base t) = Some (endpoints, mn, mx) ∧
    StronglySorted Z.lt endpoints ∧
    (∀ x, x ∈ endpoints ↔ ∃ i, i ∈ base t ∧ (x = From (Seg i) ∨ x = To (Seg i))) ∧
    head endpoints = Some mn ∧ last endpoints = Some mx ∧
    built (alternating endpoints) n0 ∧
    Forall_overlap (λ _ _, False) n0 ∧
    BuildTree t =
      Returned tt {| count := count t;
                     root := foldl insertInterval n0 (base t);
                     base := base t; min := mn; max := mx |}.
Proof.
  intros Hne.
  destruct (Endpoints_spec (base t) Hne) as (endpoints & mn & mx & HE & Hs & Hel & Hh & Hl).
  destruct endpoints as [|p ps]; [done|].
  destruct (insertNodes_built (alternating (p :: ps)) ltac:(done)) as (n0 & Hn0 & Hb & Hfresh).
  exists (p :: ps), mn, mx, n0.
  repeat (split; [done|]).
  unfold BuildTree. rewrite decide_False by (by destruct (base t)).
  rewrite HE. cbn [count root base min max].
  rewrite elementaryIntervals_eq. cbn [mbind option_bind]. by rewrite Hn0.
Qed.

Lemma BuildTree_Returned_inv t t' :
  BuildTree t = Returned tt t' → base t ≠ [].
Proof.
  unfold BuildTree. case_decide as Hlen; [done|]. intros _ E. by rewrite E in Hlen.
Qed.

Lemma query_loop_spec base from to : ∀ result,
  serial.query_loop base from to result =
  result ++ filter (λ i, Disjoint (Seg i) from to = false) base.
Proof.
  induction base as [|i base IH]; intros result; simpl.
  - by rewrite app_nil_r.
  - rewrite filter_cons. case_decide as Hd; rewrite Hd || (apply not_false_is_true in Hd; rewrite Hd); simpl.
    + rewrite IH, <-(assoc_L (++)). done.
    + apply IH.
Qed.

Lemma foldl_insertInterval_Forall_overlap (P : Segment → Interval → Prop) intervals :
  ∀ n,
  (∀ i s, i ∈ intervals → subsetOf s (Seg i) = true → P s i) →
  Forall_overlap P n → Forall_overlap P (foldl insertInterval n intervals).
Proof.
  induction intervals as [|i intervals IH]; intros n HP Hn; simpl; [done|].
  apply IH.
  - intros j s Hj. apply HP. by right.
  - apply insertInterval_Forall_overlap; [|done]. intros s. apply HP. by left.
Qed.

(** The intervals a query finds in the built tree are the staged intervals
    that are not disjoint from the probe range. *)
Lemma BuildTree_visited t t' from to j :
  BuildTree t = Returned tt t' →
  Forall (λ i, From (Seg i) <= To (Seg i)) (base t) → from <= to →
  j ∈ visited (root t') from to ↔ j ∈ base t ∧ Disjoint (Seg j) from to = false.
Proof.
  intros Hbuild Hwf Hab.
  pose proof (BuildTree_Returned_inv _ _ Hbuild) as Hne.
  destruct (BuildTree_returns t Hne)
    as (endpoints & mn & mx & n0 & HE & Hs & Hel & Hh & Hl & Hb & Hfresh & Hret).
  rewrite Hret in Hbuild. injection Hbuild as <-. cbn [root].
  split.
  - intros Hj.
    pose (P := λ (s : Segment) (i : Interval),
            subsetOf s (Seg i) = true ∧ i ∈ base t).
    assert (Forall_overlap P (foldl insertInterval n0 (base t))) as HP.
    { apply foldl_insertInterval_Forall_overlap; [by intros i s Hi Hsub|].
      eapply Forall_overlap_impl; [|exact Hfresh]. done. }
    destruct (visited_Forall_overlap P _ _ _ _ HP Hj) as (s & [Hsub Hin] & Hd).
    split; [done|].
    unfold subsetOf in Hsub. apply bool_decide_eq_true in Hsub.
    unfold Disjoint in *. repeat case_decide; try done. lia.
  - intros [Hin Hd].
    apply list_elem_of_split in Hin as (pre & post & Hbase).
    rewrite Hbase, foldl_app. simpl.
    apply visited_foldl_insertInterval.
    assert (j ∈ base t) as Hin by (rewrite Hbase; apply elem_of_app; right; by left).
    rewrite Forall_forall in Hwf. specialize (Hwf j Hin).
    destruct (alternating_witness_leaf endpoints mn mx from to
                (From (Seg j)) (To (Seg j)) Hs Hh Hl) as (leaf & Hleaf & Hsub & Hdl).
    + apply Hel. eauto.
    + apply Hel. eauto.
    + done.
    + done.
    + by destruct (Seg j).
    + eapply insertInterval_reaches.
      * apply foldl_insertInterval_built. exact Hb.
      * by apply alternating_chain.
      * exact Hleaf.
      * by destruct (Seg j).
      * done.
Qed.

Lemma BuildTree_root_not_nil t t' :
  BuildTree t = Returned tt t' → root t' ≠ nilnode.
Proof.
  intros Hbuild.
  pose proof (BuildTree_Returned_inv _ _ Hbuild) as Hne.
  destruct (BuildTree_returns t Hne)
    as (endpoints & mn & mx & n0 & HE & Hs & Hel & Hh & Hl & Hb & Hfresh & Hret).
  rewrite Hret in Hbuild. injection Hbuild as <-. cbn [root].
  eapply built_not_nil, foldl_insertInterval_built, Hb.
Qed.

Lemma Query_ids t from to :
  root t ≠ nilnode →
  ∃ found, Query from to t = Returned found t ∧
           ids found = ids (visited (root t) from to).
Proof.
  intros Hroot. unfold Query. destruct (root t) as [|segment l r overlap] eqn:Ht; [done|].
  eexists. split; [done|].
  rewrite ids_values by apply querySingle_keyed, keyed_empty.
  rewrite querySingle_dom. set_solver.
Qed.

(** X1.  On a staged set of well-formed intervals and a probe range [from <= to],
    the tree built by [stree.BuildTree] answers [Query] with the
    identifiers the serial scan of the same staged set returns. *)
Theorem stree_Query_agrees_with_serial t t' (s : serial.serial) from to :
  BuildTree t = Returned tt t' →
  base s = base t →
  Forall (λ i, From (Seg i) <= To (Seg i)) (base t) →
  from <= to →
  ∃ found scanned,
    Query from to t' = Returned found t' ∧
    serial.Query from to s = Returned scanned s ∧
    ids found = ids scanned.
Proof.
  intros Hbuild Hbase Hwf Hab.
  destruct (Query_ids t' from to (BuildTree_root_not_nil _ _ Hbuild)) as (found & HQ & Hids).
  exists found, (serial.query_loop (base s) from to []).
  split; [done|]. split; [done|].
  rewrite Hids, query_loop_spec, Hbase. simpl.
  apply set_eq. intros x. rewrite !elem_of_ids.
  split; intros (j & Hj & <-); exists j; (split; [|done]).
  - apply (BuildTree_visited _ _ _ _ _ Hbuild Hwf Hab) in Hj as [??].
    by apply list_elem_of_filter.
  - apply list_elem_of_filter in Hj as [??].
    by apply (BuildTree_visited _ _ _ _ _ Hbuild Hwf Hab).
Qed.

(** ** The parallel tree walker *)

Lemma try_queue_spec tw :
  multi.num (multi.try_queue tw).2 = multi.num tw ∧
  multi.results (multi.try_queue tw).2 = multi.results tw ∧
  multi.calls (multi.try_queue tw).2 = multi.calls tw ∧
  (if (multi.try_queue tw).1
   then multi.queue (multi.try_queue tw).2 = S (multi.queue tw) ∧
        (multi.queue tw < multi.num tw)%nat
   else multi.queue (multi.try_queue tw).2 = multi.queue tw).
Proof.
  unfold multi.try_queue.
  destruct (multi.races tw) as [|[] rest]; case_bool_decide; simpl; auto.
Qed.

Lemma single_spec_nil result tw :
  single_spec ∅ result tw false (result, tw).
Proof.
  unfold single_spec. simpl. repeat (split; [done || lia|]).
  exists []. rewrite app_nil_r. simpl.
  split; [done|]. split; [lia|]. split; [done|]. split; [clear; set_solver|].
  intros Hk. by split.
Qed.

Lemma union_absorb (a c u f : gset Z) :
  c ∪ u = ∅ ∪ f → c ⊆ u → a ∪ u = a ∪ f.
Proof. rewrite (left_id_L ∅ (∪)). intros <- Hsub. set_solver. Qed.

Lemma union_again (a c u f : gset Z) :
  c ∪ u = a ∪ f → c ∪ (u ∪ (c ∪ ∅)) = a ∪ f.
Proof. intros <-. set_solver. Qed.

Lemma union_chain (a b c u1 u2 f1 f2 : gset Z) :
  b ∪ u1 = a ∪ f1 → c ∪ u2 = b ∪ f2 → c ∪ (u1 ∪ u2) = a ∪ (f1 ∪ f2).
Proof.
  intros H1 H2. rewrite (assoc_L (∪) a), <-H1.
  transitivity ((c ∪ u2) ∪ u1); [set_solver|]. rewrite H2. set_solver.
Qed.

Lemma spawn_or_call_spec child call found :
  (child ≠ nilnode →
   ∀ result tw back, single_spec found result tw back (call result tw back)) →
  (child = nilnode → found = ∅) →
  ∀ result tw, single_spec found result tw false (multi.spawn_or_call child call result tw).
Proof.
  intros Hcall Hnil result tw. unfold multi.spawn_or_call.
  destruct child as [|segment l r overlap].
  { rewrite Hnil by done. apply single_spec_nil. }
  specialize (Hcall ltac:(done)).
  pose proof (try_queue_spec tw) as (Hnum & Hres & Hcalls & Hq).
  destruct (multi.try_queue tw) as [ok tw1]. simpl in *.
  destruct ok.
  - destruct Hq as [Hq Hlt].
    destruct (Hcall ∅ tw1 true) as (H1 & H2 & H3 & H4 & extra & H5 & H6 & H7 & H8 & H9).
    unfold single_spec. simpl.
    split; [congruence|]. split; [congruence|]. split; [lia|].
    split; [intros _; apply H4 in Hlt || (rewrite Hnum in H4; apply H4; lia); lia|].
    exists extra. split; [congruence|]. split; [lia|]. split; [done|].
    split.
    + specialize (H7 eq_refl).
      assert (dom (call ∅ tw1 true).1 ⊆ ⋃ (dom <$> extra)) as Hsub.
      { intros x Hx. apply elem_of_union_list. eexists. split; [|exact Hx].
        apply list_elem_of_fmap. eauto. }
      rewrite dom_empty_L in H8. exact (union_absorb _ _ _ _ H8 Hsub).
    + intros Hk. split; [done|]. by apply H9, keyed_empty.
  - destruct (Hcall result tw1 false) as (H1 & H2 & H3 & H4 & extra & H5 & H6 & H7 & H8 & H9).
    unfold single_spec.
    split; [congruence|]. split; [congruence|]. split; [lia|].
    split; [rewrite Hnum, Hq in H4; done|].
    exists extra. split; [congruence|]. split; [lia|]. done.
Qed.

Lemma single_spec_seq found1 found2 result tw out1 out2 :
  single_spec found1 result tw false out1 →
  single_spec found2 out1.1 out1.2 false out2 →
  single_spec (found1 ∪ found2) result tw false out2.
Proof.
  intros (A1 & A2 & A3 & A4 & extra1 & A5 & A6 & A7 & A8 & A9)
         (B1 & B2 & B3 & B4 & extra2 & B5 & B6 & B7 & B8 & B9).
  unfold single_spec.
  split; [congruence|]. split; [congruence|]. split; [lia|].
  split; [intros Hle; rewrite A1 in B4; auto|].
  exists (extra1 ++ extra2).
  split; [rewrite B5, A5; by rewrite (assoc_L (++))|].
  split; [rewrite length_app; lia|]. split; [done|].
  split.
  - rewrite fmap_app, union_list_app_L. exact (union_chain _ _ _ _ _ _ _ A8 B8).
  - intros Hk. destruct (A9 Hk) as [Hk1 He1]. destruct (B9 Hk1) as [Hk2 He2].
    split; [done|]. by apply Forall_app.
Qed.

Lemma single_spec_deliver found result tw out (back : bool) :
  single_spec found result tw false out →
  single_spec found result tw back
    (if back then (out.1, multi.deliver out.1 out.2) else (out.1, out.2)).
Proof.
  intros (A1 & A2 & A3 & A4 & extra & A5 & A6 & A7 & A8 & A9).
  destruct back; [|unfold single_spec; simpl; eauto 10].
  unfold single_spec. simpl.
  repeat (split; [done|]).
  exists (extra ++ [out.1]).
  split; [by rewrite A5, (assoc_L (++))|].
  split; [rewrite length_app; simpl; lia|].
  split; [intros _; apply elem_of_app; right; by left|].
  split.
  - rewrite fmap_app, union_list_app_L. simpl. exact (union_again _ _ _ _ A8).
  - intros Hk. destruct (A9 Hk) as [Hk1 He1]. split; [done|].
    apply Forall_app. split; [done|]. by constructor.
Qed.

Lemma multi_querySingle_spec n from to : ∀ result tw back,
  (n = nilnode → back = false) →
  single_spec (ids (visited n from to)) result tw back
    (multi.querySingle n from to result tw back).
Proof.
  induction n as [|segment l IHl r IHr overlap]; intros result tw back Hback.
  { rewrite Hback by done. apply single_spec_nil. }
  cbn [multi.querySingle visited].
  destruct (Disjoint segment from to) eqn:Hd; cbn [negb].
  - apply (single_spec_deliver ∅ result tw (result, tw) back), single_spec_nil.
  - pose proof (spawn_or_call_spec r (multi.querySingle r from to) _
                  ltac:(intros ? ???; by apply IHr)
                  ltac:(by intros ->) (collect overlap result) tw) as Hr.
    destruct (multi.spawn_or_call r _ (collect overlap result) tw) as [result1 tw1].
    pose proof (spawn_or_call_spec l (multi.querySingle l from to) _
                  ltac:(intros ? ???; by apply IHl)
                  ltac:(by intros ->) result1 tw1) as Hl.
    destruct (multi.spawn_or_call l _ result1 tw1) as [result2 tw2].
    apply (single_spec_deliver _ result tw (result2, tw2) back).
    pose proof (single_spec_seq _ _ _ _ (result1, tw1) (result2, tw2) Hr Hl)
      as (A1 & A2 & A3 & A4 & extra & A5 & A6 & A7 & A8 & A9).
    unfold single_spec.
    repeat (split; [done|]).
    exists extra. repeat (split; [done|]).
    split.
    + rewrite A8, collect_dom, !ids_app. clear. set_solver.
    + intros Hk. by apply A9, collect_keyed.
Qed.

Lemma collect_results_spec extra : ∀ (n : nat) races queue calls (result : gmap Z Interval),
  (length extra <= n)%nat →
  dom (multi.collect_results
         {| multi.num := n; multi.queue := queue; multi.results := extra;
            multi.races := races; multi.calls := calls |} result)
    = dom result ∪ ⋃ (dom <$> extra) ∧
  (keyed result → Forall keyed extra →
   keyed (multi.collect_results
            {| multi.num := n; multi.queue := queue; multi.results := extra;
               multi.races := races; multi.calls := calls |} result)).
Proof.
  unfold multi.collect_results. simpl. intros n _ _ _ result Hlen.
  rewrite take_ge by done. clear Hlen. revert result.
  induction extra as [|rmap extra IH]; intros result; simpl.
  - split; [set_solver|done].
  - destruct (IH (rmap ∪ result)) as [IH1 IH2]. split.
    + rewrite IH1, dom_union_L. clear. set_solver.
    + intros Hk Hall. apply Forall_cons in Hall as [Hr Hall].
      apply IH2; [|done]. intros k v Hkv.
      apply lookup_union_Some_raw in Hkv as [Hkv|[_ Hkv]]; eauto.
Qed.

(** Whatever the worker budget and the schedule, the parallel [Query]
    returns the identifiers the sequential traversal of the same tree
    finds. *)
Lemma multi_Query_ids NUM_WORKER races from to t :
  multi.root t ≠ nilnode →
  ∃ found, multi.Query NUM_WORKER races from to t = Returned found t ∧
           ids found = ids (visited (multi.root t) from to).
Proof.
  intros Hroot. unfold multi.Query.
  destruct (multi.root t) as [|segment l r overlap] eqn:Ht; [done|].
  pose proof (multi_querySingle_spec (Node segment l r overlap) from to ∅
                (multi.init NUM_WORKER races) false ltac:(done))
    as (A1 & A2 & A3 & A4 & extra & A5 & A6 & A7 & A8 & A9).
  destruct (multi.querySingle _ from to ∅ _ false) as [result tw].
  eexists. split; [done|].
  simpl in *. destruct tw as [num queue results races' calls]. simpl in *. subst.
  specialize (A4 ltac:(lia)).
  destruct (collect_results_spec extra NUM_WORKER races' queue [] result ltac:(lia))
    as [Hdom Hkeyed].
  destruct (A9 keyed_empty) as [Hk1 Hk2].
  rewrite ids_values by auto.
  rewrite Hdom, A8. clear. set_solver.
Qed.

(** ** Batched queries *)

Lemma hits_loop_spec segment overlap from : ∀ to (result : gmap Z Interval) hitsFrom hitsTo,
  (length from <= length to)%nat →
  ∃ result',
    hits_loop segment overlap from to result hitsFrom hitsTo =
      Some (result', hitsFrom ++ (hits segment (zip from to)).*1,
                     hitsTo ++ (hits segment (zip from to)).*2) ∧
    dom result' =
      dom result ∪ (if decide (hits segment (zip from to) = []) then ∅ else ids overlap) ∧
    (keyed result → keyed result').
Proof.
  induction from as [|f from IH]; intros to result hitsFrom hitsTo Hlen.
  { exists result. simpl. rewrite !app_nil_r. split; [done|]. split; [set_solver|done]. }
  destruct to as [|t to]; [simpl in Hlen; lia|].
  simpl in Hlen. cbn [hits_loop zip zip_with]. unfold hits in *. rewrite filter_cons. simpl.
  destruct (Disjoint segment f t) eqn:Hd; simpl.
  - apply IH. lia.
  - destruct (IH to (collect overlap result) (hitsFrom ++ [f]) (hitsTo ++ [t]) ltac:(lia))
      as (result' & -> & Hdom & Hk).
    exists result'. simpl. rewrite <-!(assoc_L (++)). simpl.
    split; [done|]. split; [|by intros; apply Hk, collect_keyed].
    rewrite Hdom, collect_dom. case_decide; set_solver.
Qed.

Lemma hits_zip segment ranges :
  zip (hits segment ranges).*1 (hits segment ranges).*2 = hits segment ranges.
Proof. apply zip_fst_snd. Qed.

Lemma elem_of_visited_any n ranges j :
  j ∈ visited_any n ranges ↔ ∃ p, p ∈ ranges ∧ j ∈ visited n p.1 p.2.
Proof. unfold visited_any. rewrite list_elem_of_bind. naive_solver. Qed.

Lemma ids_visited_any_Node segment l r overlap ranges :
  ids (visited_any (Node segment l r overlap) ranges) =
  if decide (hits segment ranges = []) then ∅
  else ids overlap ∪ ids (visited_any r (hits segment ranges))
                   ∪ ids (visited_any l (hits segment ranges)).
Proof.
  apply set_eq. intros x.
  assert (x ∈ ids (visited_any (Node segment l r overlap) ranges) ↔
          ∃ p, p ∈ hits segment ranges ∧
               (x ∈ ids overlap ∨ x ∈ ids (visited r p.1 p.2) ∨ x ∈ ids (visited l p.1 p.2)))
    as ->.
  { rewrite elem_of_ids. split.
    - intros (j & Hj & <-). apply elem_of_visited_any in Hj as (p & Hp & Hj).
      simpl in Hj. destruct (Disjoint segment p.1 p.2) eqn:Hd; simpl in Hj.
      { by apply elem_of_nil in Hj. }
      exists p. split; [by apply list_elem_of_filter|].
      rewrite !elem_of_ids. rewrite !elem_of_app in Hj. naive_solver.
    - intros (p & Hp & Hx). apply list_elem_of_filter in Hp as [Hd Hp].
      rewrite !elem_of_ids in Hx.
      assert (∃ j, j ∈ visited (Node segment l r overlap) p.1 p.2 ∧ Id j = x)
        as (j & Hj & <-).
      { simpl. rewrite Hd. simpl. setoid_rewrite elem_of_app. setoid_rewrite elem_of_app.
        naive_solver. }
      exists j. split; [|done]. apply elem_of_visited_any. eauto. }
  case_decide as Hh.
  - rewrite Hh. split; [|set_solver]. intros (p & Hp & _). by apply elem_of_nil in Hp.
  - rewrite !elem_of_union. split.
    + intros (p & Hp & [Hx|[Hx|Hx]]); [by left; left| |].
      * left. right. apply elem_of_ids in Hx as (j & Hj & <-).
        apply elem_of_ids. exists j. split; [|done]. apply elem_of_visited_any. eauto.
      * right. apply elem_of_ids in Hx as (j & Hj & <-).
        apply elem_of_ids. exists j. split; [|done]. apply elem_of_visited_any. eauto.
    + destruct (hits segment ranges) as [|p0 rest] eqn:Hhits; [done|].
      intros [[Hx|Hx]|Hx].
      * exists p0. split; [by left|]. by left.
      * apply elem_of_ids in Hx as (j & Hj & <-).
        apply elem_of_visited_any in Hj as (p & Hp & Hj).
        exists p. split; [done|]. right. left. apply elem_of_ids. eauto.
      * apply elem_of_ids in Hx as (j & Hj & <-).
        apply elem_of_visited_any in Hj as (p & Hp & Hj).
        exists p. split; [done|]. right. right. apply elem_of_ids. eauto.
Qed.

Lemma length_hits_fst segment ranges :
  length (hits segment ranges).*1 = length (hits segment ranges).*2.
Proof. by rewrite !length_fmap. Qed.

Lemma queryMulti_spec n : ∀ from to w,
  (length from <= length to)%nat →
  ∃ w', queryMulti n from to w = Some w' ∧
    dom (result w') = dom (result w) ∪ ids (visited_any n (zip from to)) ∧
    (keyed (result w) → keyed (result w')).
Proof.
  induction n as [|segment l IHl r IHr overlap]; intros from to w Hlen.
  { exists w. split; [done|]. split; [|done].
    assert (visited_any nilnode (zip from to) = []) as ->.
    { unfold visited_any. induction (zip from to); [done|]. done. }
    unfold ids. set_solver. }
  cbn [queryMulti]. cbn [result calls].
  destruct (hits_loop_spec segment overlap from to (result w) [] [] Hlen)
    as (res1 & -> & Hdom1 & Hk1).
  cbn [mbind option_bind app]. rewrite ids_visited_any_Node.
  rewrite length_fmap.
  destruct (decide (hits segment (zip from to) = [])) as [Hhits|Hhits].
  - rewrite Hhits in *. simpl.
    eexists. split; [done|]. simpl. split; [|done].
    by rewrite Hdom1.
  - case_decide as Hz.
    2:{ exfalso. destruct (hits segment (zip from to)); [done|].
        simpl in Hz. first [done | apply Hz; done]. }
    destruct (IHr (hits segment (zip from to)).*1 (hits segment (zip from to)).*2
                {| result := res1; calls := calls w ++ [(segment, from, to)] |})
      as (w1 & -> & Hdom2 & Hk2).
    { by rewrite length_hits_fst. }
    cbn [mbind option_bind].
    destruct (IHl (hits segment (zip from to)).*1 (hits segment (zip from to)).*2 w1)
      as (w2 & -> & Hdom3 & Hk3).
    { by rewrite length_hits_fst. }
    exists w2. split; [done|]. split; [|by auto].
    rewrite Hdom3, Hdom2, hits_zip. simpl. rewrite Hdom1. clear. set_solver.
Qed.

Lemma elem_of_zip_lookup (from to : list Z) (p : Z * Z) :
  p ∈ zip from to ↔ ∃ k : nat, from !! k = Some p.1 ∧ to !! k = Some p.2.
Proof.
  rewrite list_elem_of_lookup. split.
  - intros [k Hk]. exists k. apply lookup_zip_with_Some in Hk as (f & t & -> & ? & ?). done.
  - intros (k & Hf & Ht). exists k. apply lookup_zip_with_Some.
    exists p.1, p.2. by destruct p.
Qed.

(** C6.  On a tree that has a root, [QueryArray] over two range slices of
    equal length returns, and the identifiers it returns are exactly those
    returned by [Query(from[k], to[k])] for some index [k]. *)
Theorem QueryArray_union_of_Query t from to :
  root t ≠ nilnode →
  length from = length to →
  ∃ found,
    QueryArray from to t = Returned found t ∧
    ∀ x, x ∈ ids found ↔
         ∃ (k : nat) f t' single,
           from !! k = Some f ∧ to !! k = Some t' ∧
           Query f t' t = Returned single t ∧ x ∈ ids single.
Proof.
  intros Hroot Hlen. unfold QueryArray.
  destruct (root t) as [|segment l r overlap] eqn:Ht; [done|].
  destruct (queryMulti_spec (Node segment l r overlap) from to
              {| result := ∅; calls := [] |} ltac:(lia)) as (w & -> & Hdom & Hk).
  eexists. split; [done|]. intros x.
  rewrite ids_values by (apply Hk, keyed_empty).
  rewrite Hdom. simpl. rewrite dom_empty_L, (left_id_L ∅ (∪)).
  rewrite elem_of_ids. split.
  - intros (j & Hj & <-). apply elem_of_visited_any in Hj as ([f t'] & Hp & Hj).
    apply elem_of_zip_lookup in Hp as (k & Hf & Ht'). simpl in *.
    destruct (Query_ids t f t' ltac:(by rewrite Ht)) as (single & HQ & Hids).
    exists k, f, t', single. repeat (split; [done|]).
    rewrite Hids, Ht. apply elem_of_ids. eauto.
  - intros (k & f & t' & single & Hf & Ht' & HQ & Hx).
    destruct (Query_ids t f t' ltac:(by rewrite Ht)) as (single' & HQ' & Hids).
    rewrite HQ in HQ'. injection HQ' as <-.
    rewrite Hids, Ht in Hx. apply elem_of_ids in Hx as (j & Hj & <-).
    exists j. split; [|done]. apply elem_of_visited_any.
    exists (f, t'). split; [|done]. apply elem_of_zip_lookup. eauto.
Qed.

(** ** Canonical insertion *)

Lemma holds_insertInterval n intrvl i :
  holds (insertInterval n intrvl) i → holds n i ∨ i = intrvl.
Proof.
  induction n as [|segment l IHl r IHr overlap]; simpl; [by left|].
  destruct (subsetOf segment (Seg intrvl)); simpl.
  - rewrite elem_of_app, list_elem_of_singleton. tauto.
  - destruct (child_intersects l (Seg intrvl)), (child_intersects r (Seg intrvl)); tauto.
Qed.

Lemma insertInterval_canonical n intrvl :
  canonical n → canonical (insertInterval n intrvl).
Proof.
  induction n as [|segment l IHl r IHr overlap]; simpl; [done|].
  intros (Hov & Hbelow & Hl & Hr).
  destruct (subsetOf segment (Seg intrvl)) eqn:Hsub; simpl.
  - split; [|done]. intros i Hi.
    apply elem_of_app in Hi as [Hi|Hi]; [by apply Hov|].
    by apply list_elem_of_singleton in Hi as ->.
  - split; [done|]. split.
    + intros i [Hi|Hi].
      * destruct (child_intersects l (Seg intrvl)); [|by auto].
        apply holds_insertInterval in Hi as [Hi| ->]; auto.
      * destruct (child_intersects r (Seg intrvl)); [|by auto].
        apply holds_insertInterval in Hi as [Hi| ->]; auto.
    + split; [destruct (child_intersects l _)|destruct (child_intersects r _)]; auto.
Qed.

Lemma compare_subset segment other :
  stree0.CompareTo segment other = stree0.SUBSET → subsetOf segment other = true.
Proof.
  unfold stree0.CompareTo, subsetOf. repeat case_decide; try done.
  all: intros _; by apply bool_decide_eq_true.
Qed.

Lemma compare_not_subset segment other :
  stree0.CompareTo segment other = stree0.INTERSECT_OR_SUPERSET →
  subsetOf segment other = false.
Proof.
  unfold stree0.CompareTo, subsetOf. repeat case_decide; try done.
  all: intros _; by apply bool_decide_eq_false.
Qed.

Lemma holds_multi_insertInterval n intrvl i :
  holds (multi.insertInterval n intrvl) i → holds n i ∨ i = intrvl.
Proof.
  induction n as [|segment l IHl r IHr overlap]; simpl; [by left|].
  destruct (stree0.CompareTo segment (Seg intrvl)); simpl.
  - rewrite elem_of_app, list_elem_of_singleton. tauto.
  - tauto.
  - tauto.
Qed.

Lemma multi_insertInterval_canonical n intrvl :
  canonical n → canonical (multi.insertInterval n intrvl).
Proof.
  induction n as [|segment l IHl r IHr overlap]; simpl; [done|].
  intros (Hov & Hbelow & Hl & Hr).
  destruct (stree0.CompareTo segment (Seg intrvl)) eqn:Hcmp; simpl.
  - split; [|done]. intros i Hi.
    apply elem_of_app in Hi as [Hi|Hi]; [by apply Hov|].
    apply list_elem_of_singleton in Hi as ->. by apply compare_subset.
  - done.
  - split; [done|]. split; [|by auto].
    intros i [Hi|Hi]; apply holds_multi_insertInterval in Hi as [Hi| ->];
      auto using compare_not_subset.
Qed.

Lemma fresh_canonical n : Forall_overlap (λ _ _, False) n → canonical n.
Proof.
  induction n as [|segment l IHl r IHr overlap]; simpl; [done|].
  intros (Hov & Hl & Hr).
  assert (∀ m i, Forall_overlap (λ _ _, False) m → ¬ holds m i) as Hfresh.
  { clear. induction m as [|s l IHl r IHr ov]; simpl; [tauto|].
    intros i (Hov & Hl & Hr) [Hi|[Hi|Hi]]; [|by eapply IHl|by eapply IHr].
    rewrite Forall_forall in Hov. by eapply Hov. }
  split; [intros i Hi; rewrite Forall_forall in Hov; by destruct (Hov i Hi)|].
  split; [|by auto].
  intros i [Hi|Hi]; by eapply Hfresh in Hi.
Qed.

Lemma foldl_canonical (insert : node → Interval → node) intervals :
  (∀ n i, canonical n → canonical (insert n i)) →
  ∀ n, canonical n → canonical (foldl insert n intervals).
Proof.
  intros Hins. induction intervals as [|i intervals IH]; intros n Hn; simpl; auto.
Qed.

Lemma canonical_subnode n t : canonical t → subnode n t → canonical n.
Proof.
  intros Ht Hsub. induction Hsub; [done| |]; simpl in Ht; tauto.
Qed.

(** *** What [multi.BuildTree] returns *)

Lemma multi_insertNodes_rec_fresh fuel t_max t_single : ∀ endpoint level n,
  multi.insertNodes_rec fuel t_max t_single endpoint level = Some n →
  Forall_overlap (λ _ _, False) n ∧ n ≠ nilnode.
Proof.
  induction fuel as [|fuel IH]; intros endpoint level n H; [done|].
  simpl in H. destruct endpoint as [|e0 [|e1 [|e2 rest]]]; [done| | |].
  - injection H as <-. simpl. auto.
  - case_decide; injection H as <-; simpl; auto 10.
  - destruct (last (e0 :: e1 :: e2 :: rest)) as [lst|]; [|done].
    simpl in H. unfold multi.insertNodesAsync in H.
    destruct (bool_decide (S level = multi.P_LEVEL) && negb t_single);
      (destruct (multi.insertNodes_rec fuel t_max t_single (take _ _) _) as [l|] eqn:Hl;
         [|done]);
      (destruct (multi.insertNodes_rec fuel t_max t_single (drop _ _) _) as [r|] eqn:Hr;
         [|done]);
      simpl in H; injection H as <-;
      apply IH in Hl as [Hl _]; apply IH in Hr as [Hr _]; simpl; auto.
Qed.

Lemma multi_BuildTree_Returned m m' :
  multi.BuildTree m = Returned tt m' →
  ∃ endpoint mn mx sgl n0,
    multi.base m ≠ [] ∧
    Endpoints (multi.base m) = Some (endpoint, mn, mx) ∧
    multi.insertNodes_rec (length endpoint) mx sgl endpoint 0 = Some n0 ∧
    multi.root m' = foldl multi.insertInterval n0 (multi.base m) ∧
    multi.base m' = multi.base m ∧ multi.count m' = multi.count m ∧
    multi.min m' = mn ∧ multi.max m' = mx.
Proof.
  unfold multi.BuildTree. case_decide as Hlen; [done|].
  destruct (Endpoints (multi.base m)) as [[[endpoint mn] mx]|] eqn:HE; [|done].
  assert (multi.base m ≠ []) as Hne by (by destruct (multi.base m)).
  cbn zeta. unfold multi.insertNodes, multi.insertIntervalM.
  case_decide; cbn [multi.count multi.root multi.base multi.min multi.max
                     multi.numG multi.single negb].
  - destruct (multi.insertNodes_rec _ mx true endpoint 0) as [n0|] eqn:Hn0; [|done].
    intros Hret. injection Hret as <-. exists endpoint, mn, mx, true, n0. done.
  - destruct (multi.insertNodes_rec _ mx (multi.single m) endpoint 0) as [n0|] eqn:Hn0;
      [|done].
    intros Hret. injection Hret as <-. exists endpoint, mn, mx, (multi.single m), n0.
    cbn. repeat (split; [done|]). split; [|done]. by destruct (multi.single m).
Qed.

Lemma BuildTree_canonical t t' :
  BuildTree t = Returned tt t' → canonical (root t').
Proof.
  intros Hbuild.
  pose proof (BuildTree_Returned_inv _ _ Hbuild) as Hne.
  destruct (BuildTree_returns t Hne)
    as (endpoints & mn & mx & n0 & HE & Hs & Hel & Hh & Hl & Hb & Hfresh & Hret).
  rewrite Hret in Hbuild. injection Hbuild as <-. cbn [root].
  apply foldl_canonical; [apply insertInterval_canonical|by apply fresh_canonical].
Qed.

Lemma multi_BuildTree_canonical m m' :
  multi.BuildTree m = Returned tt m' → canonical (multi.root m').
Proof.
  intros Hbuild.
  destruct (multi_BuildTree_Returned _ _ Hbuild)
    as (endpoint & mn & mx & sgl & n0 & Hne & HE & Hn0 & -> & _).
  apply foldl_canonical; [apply multi_insertInterval_canonical|].
  apply fresh_canonical. by apply multi_insertNodes_rec_fresh in Hn0 as [??].
Qed.

(** C4.  In the tree [BuildTree] returns, sequential or parallel, an
    interval stands in the overlap list of a node only if the node's segment
    is a subset of the interval's segment, and then no node below that node
    holds the interval. *)
Theorem insertion_is_canonical :
  (∀ t t' segment l r overlap i,
     BuildTree t = Returned tt t' →
     subnode (Node segment l r overlap) (root t') → i ∈ overlap →
     subsetOf segment (Seg i) = true ∧ ¬ holds l i ∧ ¬ holds r i) ∧
  (∀ m m' segment l r overlap i,
     multi.BuildTree m = Returned tt m' →
     subnode (Node segment l r overlap) (multi.root m') → i ∈ overlap →
     subsetOf segment (Seg i) = true ∧ ¬ holds l i ∧ ¬ holds r i).
Proof.
  assert (∀ t segment l r overlap i,
            canonical t → subnode (Node segment l r overlap) t → i ∈ overlap →
            subsetOf segment (Seg i) = true ∧ ¬ holds l i ∧ ¬ holds r i) as Hcanon.
  { intros t segment l r overlap i Ht Hsub Hi.
    pose proof (canonical_subnode _ _ Ht Hsub) as (Hov & Hbelow & _). simpl in *.
    pose proof (Hov i Hi) as Hsubset.
    split; [done|]. split; intros Hh.
    - rewrite (Hbelow i (or_introl Hh)) in Hsubset. done.
    - rewrite (Hbelow i (or_intror Hh)) in Hsubset. done. }
  split.
  - intros t t' segment l r overlap i Hbuild. apply Hcanon. by eapply BuildTree_canonical.
  - intros m m' segment l r overlap i Hbuild. apply Hcanon.
    by eapply multi_BuildTree_canonical.
Qed.

(** ** The two formulations of [insertInterval] *)

Lemma multi_insertInterval_eq n intrvl :
  multi.insertInterval n intrvl = stree0.insertInterval n intrvl.
Proof.
  induction n as [|segment l IHl r IHr overlap]; simpl; [done|].
  destruct (stree0.CompareTo segment (Seg intrvl)); by rewrite ?IHl, ?IHr.
Qed.

Lemma compare_disjoint_child segment child other :
  stree0.CompareTo segment other = stree0.DISJOINT →
  within child segment → child_intersects child other = false.
Proof.
  unfold stree0.CompareTo. case_decide as Hd; [|by repeat case_decide].
  intros _. destruct child as [|cs cl cr co]; [done|]. simpl.
  intros [H1 H2]. unfold intersectsWith. apply bool_decide_eq_false. lia.
Qed.

Lemma insertInterval_no_intersection child intrvl :
  child_intersects child (Seg intrvl) = false →
  stree0.insertInterval child intrvl = child.
Proof.
  destruct child as [|cs cl cr co]; [done|]. simpl.
  unfold intersectsWith, stree0.CompareTo. intros H%bool_decide_eq_false.
  rewrite decide_True by lia. done.
Qed.

Lemma compare_intersection segment other :
  From segment <= To segment →
  intersectsWith segment other = true →
  stree0.CompareTo segment other =
    if subsetOf segment other then stree0.SUBSET else stree0.INTERSECT_OR_SUPERSET.
Proof.
  unfold intersectsWith, subsetOf, stree0.CompareTo.
  intros Hord H%bool_decide_eq_true.
  rewrite decide_False by lia.
  case_decide; [by rewrite bool_decide_eq_true_2|by rewrite bool_decide_eq_false_2].
Qed.

(** Entered at a node that meets the interval, the two formulations make
    the same tree. *)
Lemma insertInterval_formulations_below n intrvl :
  nested n → child_intersects n (Seg intrvl) = true →
  stree0.insertInterval n intrvl = insertInterval n intrvl.
Proof.
  induction n as [|segment l IHl r IHr overlap]; [done|].
  intros (Hord & Hwl & Hwr & Hnl & Hnr) Hint. simpl in Hint. simpl.
  rewrite (compare_intersection _ _ Hord Hint).
  destruct (subsetOf segment (Seg intrvl)); [done|].
  f_equal.
  - destruct (child_intersects l (Seg intrvl)) eqn:Hl; [by apply IHl|].
    by apply insertInterval_no_intersection.
  - destruct (child_intersects r (Seg intrvl)) eqn:Hr; [by apply IHr|].
    by apply insertInterval_no_intersection.
Qed.

(** On a tree whose segments are nested, the two formulations make the
    same tree from the root. *)
Lemma insertInterval_formulations n intrvl :
  nested n → stree0.insertInterval n intrvl = insertInterval n intrvl.
Proof.
  destruct n as [|segment l r overlap]; [done|].
  intros Hn. pose proof Hn as (Hord & Hwl & Hwr & Hnl & Hnr).
  destruct (intersectsWith segment (Seg intrvl)) eqn:Hint.
  { by apply insertInterval_formulations_below. }
  simpl.
  assert (stree0.CompareTo segment (Seg intrvl) = stree0.DISJOINT) as Hcmp.
  { unfold intersectsWith, stree0.CompareTo in *. apply bool_decide_eq_false in Hint.
    rewrite decide_True by lia. done. }
  rewrite Hcmp.
  assert (subsetOf segment (Seg intrvl) = false) as ->.
  { unfold intersectsWith, subsetOf in *. apply bool_decide_eq_false in Hint.
    apply bool_decide_eq_false. lia. }
  by rewrite !(compare_disjoint_child segment _ _ Hcmp).
Qed.

Lemma within_insertInterval child intrvl s :
  within child s → within (insertInterval child intrvl) s.
Proof.
  destruct child as [|cs cl cr co]; [done|]. simpl.
  by destruct (subsetOf cs (Seg intrvl)).
Qed.

Lemma insertInterval_nested n intrvl : nested n → nested (insertInterval n intrvl).
Proof.
  induction n as [|segment l IHl r IHr overlap]; simpl; [done|].
  intros (Hord & Hwl & Hwr & Hnl & Hnr).
  destruct (subsetOf segment (Seg intrvl)); simpl; [done|].
  split; [done|].
  destruct (child_intersects l (Seg intrvl)), (child_intersects r (Seg intrvl));
    auto 10 using within_insertInterval.
Qed.

Lemma multi_insertInterval_nested n intrvl :
  nested n → nested (multi.insertInterval n intrvl).
Proof.
  intros Hn. rewrite multi_insertInterval_eq, insertInterval_formulations by done.
  by apply insertInterval_nested.
Qed.

Lemma foldl_nested (insert : node → Interval → node) intervals :
  (∀ n i, nested n → nested (insert n i)) →
  ∀ n, nested n → nested (foldl insert n intervals).
Proof.
  intros Hins. induction intervals as [|i intervals IH]; intros n Hn; simpl; auto.
Qed.

Lemma elem_of_take_list {A} (x : A) k (l : list A) : x ∈ take k l → x ∈ l.
Proof. intros (i & Hi & _)%elem_of_take. by eapply list_elem_of_lookup_2. Qed.

Lemma elem_of_drop_list {A} (x : A) k (l : list A) : x ∈ drop k l → x ∈ l.
Proof.
  intros (i & Hi)%list_elem_of_lookup. rewrite lookup_drop in Hi.
  by eapply list_elem_of_lookup_2.
Qed.

Lemma head_elem_of {A} (l : list A) x : head l = Some x → x ∈ l.
Proof. destruct l; [done|]. simpl. intros [= ->]. by left. Qed.

Lemma last_elem_of {A} (l : list A) x : last l = Some x → x ∈ l.
Proof. intros [l' ->]%last_Some. apply elem_of_app. right. by left. Qed.

Lemma built_within lvs sub n s :
  built sub n → chain lvs → (∀ x, x ∈ sub → x ∈ lvs) →
  ∀ first lst, head lvs = Some first → last lvs = Some lst →
  From s = From first → To s = To lst → within n s.
Proof.
  intros Hb Hc Hsub first lst Hh Hl Hf Ht.
  destruct n as [|ns nl nr no]; [done|]. simpl.
  pose proof (built_not_nil _ _ Hb) as [_ Hne].
  destruct (head sub) as [a|] eqn:Ha; [|by apply head_None in Ha].
  destruct (last sub) as [b|] eqn:Hb'; [|by apply last_None in Hb'].
  destruct (built_segment _ _ _ _ _ _ _ Hb Ha Hb') as [-> ->].
  rewrite Hf, Ht. split.
  - eapply chain_head; eauto using head_elem_of.
  - eapply chain_last; eauto using last_elem_of.
Qed.

Lemma built_nested lvs n : built lvs n → chain lvs → nested n.
Proof.
  induction 1 as [leaf overlap|lvs first lst l r overlap H2 Hh Hla Hl IHl Hr IHr];
    intros Hc.
  - simpl. split; [|done]. eapply chain_ordered; [done|by left].
  - simpl. split.
    { pose proof (chain_ordered _ _ Hc (head_elem_of _ _ Hh)).
      pose proof (chain_last _ _ _ Hc Hla (head_elem_of _ _ Hh)). lia. }
    split; [eapply (built_within lvs); eauto using elem_of_take_list|].
    split; [eapply (built_within lvs); eauto using elem_of_drop_list|].
    split; [apply IHl, chain_take, Hc|apply IHr, chain_drop, Hc].
Qed.

Lemma sorted_bounds (l : list Z) a b x :
  StronglySorted Z.lt l → head l = Some a → last l = Some b → x ∈ l → a <= x <= b.
Proof.
  intros Hs Ha Hb Hx. split.
  - destruct l as [|y l]; [done|]. simpl in Ha. injection Ha as ->.
    apply elem_of_cons in Hx as [->|Hx]; [lia|].
    apply StronglySorted_inv in Hs as [_ Hall]. rewrite Forall_forall in Hall.
    apply Hall in Hx. lia.
  - apply last_Some in Hb as [l' ->].
    apply elem_of_app in Hx as [Hx|Hx].
    + eapply (StronglySorted_app_1_elem_of Z.lt l' [b] x b) in Hs; [lia|done|by left].
    + apply list_elem_of_singleton in Hx as ->. lia.
Qed.

Lemma sorted_take k (l : list Z) : StronglySorted Z.lt l → StronglySorted Z.lt (take k l).
Proof.
  intros Hs. rewrite <-(take_drop k l) in Hs. by apply StronglySorted_app_1_l in Hs.
Qed.

Lemma sorted_drop k (l : list Z) : StronglySorted Z.lt l → StronglySorted Z.lt (drop k l).
Proof.
  intros Hs. rewrite <-(take_drop k l) in Hs. by apply StronglySorted_app_1_r in Hs.
Qed.

Lemma multi_insertNodes_rec_nested fuel t_max t_single : ∀ endpoint level n,
  StronglySorted Z.lt endpoint →
  multi.insertNodes_rec fuel t_max t_single endpoint level = Some n →
  nested n ∧
  ∃ segment l r overlap, n = Node segment l r overlap ∧
    head endpoint = Some (From segment) ∧ last endpoint = Some (To segment).
Proof.
  induction fuel as [|fuel IH]; intros endpoint level n Hs H; [done|].
  simpl in H. destruct endpoint as [|e0 [|e1 [|e2 rest]]]; [done| | |].
  - injection H as <-. simpl. split; [split; [lia|done]|]. by eexists _, _, _, _.
  - assert (e0 < e1) as Hlt.
    { apply StronglySorted_inv in Hs as [_ Hall]. by apply Forall_cons in Hall as [??]. }
    case_decide; injection H as <-; simpl.
    + split; [repeat split; lia|]. by eexists _, _, _, _.
    + split; [repeat split; lia|]. by eexists _, _, _, _.
  - set (endpoint := e0 :: e1 :: e2 :: rest) in *.
    destruct (last endpoint) as [lst|] eqn:Hlast; [|done].
    simpl in H. unfold multi.insertNodesAsync in H.
    assert (∃ l r,
              multi.insertNodes_rec fuel t_max t_single
                (take (length endpoint / 2 + 1) endpoint) (S level) = Some l ∧
              multi.insertNodes_rec fuel t_max t_single
                (drop (length endpoint / 2 + 1) endpoint) (S level) = Some r ∧
              n = Node {| From := e0; To := lst |} l r []) as (l & r & Hl & Hr & ->).
    { destruct (bool_decide (S level = multi.P_LEVEL) && negb t_single);
        (destruct (multi.insertNodes_rec fuel t_max t_single (take _ _) _) as [l|];
           [|done]);
        (destruct (multi.insertNodes_rec fuel t_max t_single (drop _ _) _) as [r|];
           [|done]);
        simpl in H; injection H as <-; by eexists _, _. }
    apply IH in Hl as (Hnl & ls & ll & lr & lo & -> & Hlh & Hll); [|by apply sorted_take].
    apply IH in Hr as (Hnr & rs & rl & rr & ro & -> & Hrh & Hrl); [|by apply sorted_drop].
    split; [|by eexists _, _, _, _].
    pose proof (sorted_bounds endpoint e0 lst) as Hb.
    pose proof (Hb (From ls) Hs eq_refl Hlast
                  (elem_of_take_list _ _ _ (head_elem_of _ _ Hlh))).
    pose proof (Hb (To ls) Hs eq_refl Hlast
                  (elem_of_take_list _ _ _ (last_elem_of _ _ Hll))).
    pose proof (Hb (From rs) Hs eq_refl Hlast
                  (elem_of_drop_list _ _ _ (head_elem_of _ _ Hrh))).
    pose proof (Hb (To rs) Hs eq_refl Hlast
                  (elem_of_drop_list _ _ _ (last_elem_of _ _ Hrl))).
    pose proof (Hb e0 Hs eq_refl Hlast ltac:(by left)).
    cbn [nested within From To].
    split; [lia|]. split; [lia|]. split; [lia|]. by split.
Qed.

Lemma BuildTree_nested t t' : BuildTree t = Returned tt t' → nested (root t').
Proof.
  intros Hbuild.
  pose proof (BuildTree_Returned_inv _ _ Hbuild) as Hne.
  destruct (BuildTree_returns t Hne)
    as (endpoints & mn & mx & n0 & HE & Hs & Hel & Hh & Hl & Hb & Hfresh & Hret).
  rewrite Hret in Hbuild. injection Hbuild as <-. cbn [root].
  apply foldl_nested; [apply insertInterval_nested|].
  eapply built_nested; [done|by apply alternating_chain].
Qed.

Lemma multi_BuildTree_nested m m' :
  multi.BuildTree m = Returned tt m' → nested (multi.root m').
Proof.
  intros Hbuild.
  destruct (multi_BuildTree_Returned _ _ Hbuild)
    as (endpoint & mn & mx & sgl & n0 & Hne & HE & Hn0 & -> & _).
  apply foldl_nested; [apply multi_insertInterval_nested|].
  destruct (Endpoints_spec _ Hne) as (e & mn' & mx' & HE' & Hs & _).
  rewrite HE in HE'. injection HE' as <- <- <-.
  by apply multi_insertNodes_rec_nested in Hn0 as [??].
Qed.

(** C8.  On every tree [BuildTree] returns, sequential or parallel, and for
    every interval, the [CompareTo] formulation of [insertInterval] (of the
    earlier revision, and of package multi) and the [subsetOf] /
    [intersectsWith] formulation return the same tree: the same overlap
    list at every node. *)
Theorem insertInterval_formulations_agree :
  (∀ t t' intrvl,
     BuildTree t = Returned tt t' →
     stree0.insertInterval (root t') intrvl = insertInterval (root t') intrvl ∧
     multi.insertInterval (root t') intrvl = insertInterval (root t') intrvl) ∧
  (∀ m m' intrvl,
     multi.BuildTree m = Returned tt m' →
     stree0.insertInterval (multi.root m') intrvl = insertInterval (multi.root m') intrvl ∧
     multi.insertInterval (multi.root m') intrvl = insertInterval (multi.root m') intrvl).
Proof.
  split.
  - intros t t' intrvl Hbuild. pose proof (BuildTree_nested _ _ Hbuild) as Hn.
    split; [by apply insertInterval_formulations|].
    etrans; [apply multi_insertInterval_eq|by apply insertInterval_formulations].
  - intros m m' intrvl Hbuild. pose proof (multi_BuildTree_nested _ _ Hbuild) as Hn.
    split; [by apply insertInterval_formulations|].
    etrans; [apply multi_insertInterval_eq|by apply insertInterval_formulations].
Qed.

(** ** Leaves, coverage and partition of the sequential tree *)

Lemma alternating_linked ps : linked (alternating ps).
Proof.
  induction ps as [|p ps IH]; intros i a b Ha Hb; [done|].
  destruct ps as [|q ps]; [by destruct i|].
  change (alternating (p :: q :: ps))
    with ({| From := p; To := p |} :: {| From := p; To := q |} :: alternating (q :: ps))
    in Ha, Hb.
  destruct i as [|[|i]]; simpl in Ha, Hb.
  - by simplify_eq.
  - by simplify_eq.
  - by apply (IH i).
Qed.

Lemma linked_sub before sub after : linked (before ++ sub ++ after) → linked sub.
Proof.
  intros Hl i a b Ha Hb. apply (Hl (length before + i)%nat).
  - rewrite lookup_app_r by lia. replace (length before + i - length before)%nat with i by lia.
    by apply lookup_app_l_Some.
  - rewrite lookup_app_r by lia.
    replace (length before + i - length before)%nat with i by lia.
    replace (S (length before + i) - length before)%nat with (S i) by lia.
    by apply lookup_app_l_Some.
Qed.

Lemma chain_sub before sub after : chain (before ++ sub ++ after) → chain sub.
Proof.
  intros [Hs Hf]. split.
  - by apply StronglySorted_app_1_r, StronglySorted_app_1_l in Hs.
  - by apply Forall_app in Hf as [_ [Hf _]%Forall_app].
Qed.

(** A linked slice covers every point between its first and its last bound. *)
Lemma linked_covers lvs : ∀ first lst x,
  linked lvs → head lvs = Some first → last lvs = Some lst →
  From first <= x <= To lst →
  ∃ leaf, leaf ∈ lvs ∧ covers leaf x.
Proof.
  induction lvs as [|a lvs IH]; intros first lst x Hl Hh Hla Hx; [done|].
  simpl in Hh. assert (a = first) as -> by congruence. clear Hh.
  destruct lvs as [|b lvs].
  { simpl in Hla. assert (first = lst) as -> by congruence.
    exists lst. split; [by left|done]. }
  destruct (decide (x <= To first)) as [Hle|Hgt].
  { exists first. split; [by left|]. unfold covers. lia. }
  pose proof (Hl 0%nat first b eq_refl eq_refl) as Hab.
  rewrite last_cons_cons in Hla.
  destruct (IH b lst x) as (leaf & Hin & Hcov); [|done|done|lia|].
  - intros i u v Hu Hv. by apply (Hl (S i)).
  - exists leaf. split; [by right|done].
Qed.

Lemma built_subnode lvs t n :
  built lvs t → subnode n t →
  ∃ before sub after, lvs = before ++ sub ++ after ∧ built sub n.
Proof.
  intros Hb. revert n.
  induction Hb as [leaf overlap|lvs first lst l r overlap H2 Hh Hla Hl IHl Hr IHr];
    intros n Hsub.
  - inversion Hsub as [| ? ? ? ? ? Hn | ? ? ? ? ? Hn]; subst; [|inversion Hn|inversion Hn].
    exists [], [leaf], []. split; [done|constructor].
  - inversion Hsub as [| ? ? ? ? ? Hn | ? ? ? ? ? Hn]; subst.
    + exists [], lvs, []. rewrite app_nil_r. split; [done|by constructor].
    + destruct (IHl _ Hn) as (before & sub & after & Heq & Hbn).
      exists before, sub, (after ++ drop (length lvs / 2) lvs). split; [|done].
      rewrite <-(take_drop (length lvs / 2) lvs) at 1. rewrite Heq.
      by rewrite <-!(assoc_L (++)).
    + destruct (IHr _ Hn) as (before & sub & after & Heq & Hbn).
      exists (take (length lvs / 2) lvs ++ before), sub, after. split; [|done].
      rewrite <-(take_drop (length lvs / 2) lvs) at 1. rewrite Heq.
      by rewrite <-!(assoc_L (++)).
Qed.

Lemma built_covers lvs segment l r overlap x :
  built lvs (Node segment l r overlap) → chain lvs → linked lvs →
  covers segment x ↔ ∃ leaf, leaf ∈ lvs ∧ covers leaf x.
Proof.
  intros Hb Hc Hl. split.
  - intros Hx. pose proof (built_not_nil _ _ Hb) as [_ Hne].
    destruct (head lvs) as [first|] eqn:Hh; [|by apply head_None in Hh].
    destruct (last lvs) as [lst|] eqn:Hla; [|by apply last_None in Hla].
    destruct (built_segment _ _ _ _ _ _ _ Hb Hh Hla) as [Hf Ht].
    apply (linked_covers lvs first lst); try done. unfold covers in Hx. lia.
  - intros (leaf & Hin & Hx).
    pose proof (built_spans _ _ _ _ _ _ Hb Hc Hin). unfold covers in *. lia.
Qed.

Lemma built_children lvs segment l r overlap :
  built lvs (Node segment l r overlap) → linked lvs →
  (l = nilnode ∧ r = nilnode) ∨
  (∃ ls ll lr lo rs rl rr ro,
     l = Node ls ll lr lo ∧ r = Node rs rl rr ro ∧
     lvs = leaves l ++ leaves r ∧ leaves l ≠ [] ∧ leaves r ≠ [] ∧ To ls = From rs).
Proof.
  intros Hb Hlk. inversion Hb as [|? first lst ? ? ? H2 Hh Hla Hl Hr]; subst; [by left|].
  right.
  pose proof (built_not_nil _ _ Hl) as [Hln Hlne].
  pose proof (built_not_nil _ _ Hr) as [Hrn Hrne].
  destruct l as [|ls ll lr lo]; [done|]. destruct r as [|rs rl rr ro]; [done|].
  exists ls, ll, lr, lo, rs, rl, rr, ro.
  rewrite (built_leaves _ _ Hl), (built_leaves _ _ Hr), take_drop.
  repeat (split; [done|]).
  pose proof (half_bounds _ H2) as [Hc1 Hc2].
  set (c := (length lvs / 2)%nat) in *.
  destruct (lookup_lt_is_Some_2 lvs (c - 1)) as [a Ha]; [lia|].
  destruct (lookup_lt_is_Some_2 lvs c) as [b Hb']; [lia|].
  assert (last (take c lvs) = Some a) as Hlast.
  { rewrite last_lookup, length_take, Nat.min_l by lia.
    rewrite lookup_take_lt by lia. by replace (Init.Nat.pred c) with (c - 1)%nat by lia. }
  assert (head (drop c lvs) = Some b) as Hhead.
  { rewrite head_lookup, lookup_drop. by rewrite Nat.add_0_r. }
  destruct (head (take c lvs)) as [a0|] eqn:Ha0; [|by apply head_None in Ha0].
  destruct (last (drop c lvs)) as [b1|] eqn:Hb1; [|by apply last_None in Hb1].
  destruct (built_segment _ _ _ _ _ _ _ Hl Ha0 Hlast) as [_ ->].
  destruct (built_segment _ _ _ _ _ _ _ Hr Hhead Hb1) as [-> _].
  apply (Hlk (c - 1)%nat); [done|]. by replace (S (c - 1)) with c by lia.
Qed.

(** X3.  In the tree [stree.BuildTree] returns, the leaves are the elementary
    intervals of the distinct bounds of the staged intervals, in ascending
    order; every node's segment is the union of the leaves below it, these
    leaves are a contiguous run of the elementary intervals, and a node has
    either no child or two children that split its run in two non-empty
    parts meeting at one bound. *)
Theorem stree_BuildTree_partitions_leaves t t' :
  BuildTree t = Returned tt t' →
  ∃ endpoints,
    StronglySorted Z.lt endpoints ∧
    (∀ x, x ∈ endpoints ↔ x ∈ bounds (base t)) ∧
    leaves (root t') = alternating endpoints ∧
    ∀ segment l r overlap,
      subnode (Node segment l r overlap) (root t') →
      (∀ x, covers segment x ↔
            ∃ leaf, leaf ∈ leaves (Node segment l r overlap) ∧ covers leaf x) ∧
      (∃ before after,
         alternating endpoints = before ++ leaves (Node segment l r overlap) ++ after) ∧
      ((l = nilnode ∧ r = nilnode) ∨
       (∃ ls ll lr lo rs rl rr ro,
          l = Node ls ll lr lo ∧ r = Node rs rl rr ro ∧
          leaves (Node segment l r overlap) = leaves l ++ leaves r ∧
          leaves l ≠ [] ∧ leaves r ≠ [] ∧ To ls = From rs)).
Proof.
  intros Hbuild.
  pose proof (BuildTree_Returned_inv _ _ Hbuild) as Hne.
  destruct (BuildTree_returns t Hne)
    as (endpoints & mn & mx & n0 & HE & Hs & Hel & Hh & Hl & Hb & Hfresh & Hret).
  rewrite Hret in Hbuild. injection Hbuild as <-. cbn [root].
  pose proof (foldl_insertInterval_built _ (base t) _ Hb) as Hbt.
  exists endpoints. split; [done|].
  split.
  { intros x. unfold bounds. rewrite elem_of_list_to_set, elem_of_app, !list_elem_of_fmap.
    rewrite Hel. simpl. naive_solver. }
  split; [by apply built_leaves|].
  intros segment l r overlap Hsub.
  destruct (built_subnode _ _ _ Hbt Hsub) as (before & sub & after & Heq & Hbn).
  pose proof (alternating_chain _ Hs) as Hc. pose proof (alternating_linked endpoints) as Hlk.
  rewrite Heq in Hc, Hlk. apply chain_sub in Hc. apply linked_sub in Hlk.
  rewrite (built_leaves _ _ Hbn).
  split; [intros x; exact (built_covers sub segment l r overlap x Hbn Hc Hlk)|].
  split; [by exists before, after|].
  exact (built_children sub segment l r overlap Hbn Hlk).
Qed.

(** ** Invocations of the batched traversals *)

Lemma queryMulti_calls n : ∀ from to w,
  (length from <= length to)%nat →
  ∃ w', queryMulti n from to w = Some w' ∧
        calls w' = calls w ++ stree_descents n from to.
Proof.
  induction n as [|segment l IHl r IHr overlap]; intros from to w Hlen.
  { exists w. by rewrite app_nil_r. }
  cbn [queryMulti stree_descents]. cbn [result calls].
  destruct (hits_loop_spec segment overlap from to (result w) [] [] Hlen)
    as (res1 & -> & _ & _).
  cbn [mbind option_bind app]. rewrite length_fmap.
  destruct (decide (hits segment (zip from to) = [])) as [Hhits|Hhits].
  - rewrite Hhits. simpl. eexists. split; [done|]. done.
  - case_decide as Hz.
    2:{ exfalso. destruct (hits segment (zip from to)); [done|].
        simpl in Hz. first [done | apply Hz; done]. }
    destruct (IHr (hits segment (zip from to)).*1 (hits segment (zip from to)).*2
                {| result := res1; calls := calls w ++ [(segment, from, to)] |})
      as (w1 & -> & Hc1).
    { by rewrite length_hits_fst. }
    cbn [mbind option_bind].
    destruct (IHl (hits segment (zip from to)).*1 (hits segment (zip from to)).*2 w1)
      as (w2 & -> & Hc2).
    { by rewrite length_hits_fst. }
    exists w2. split; [done|]. rewrite Hc2, Hc1. simpl.
    by rewrite <-!(assoc_L (++)).
Qed.

Lemma spawn_or_call_multi_calls child call descents :
  (child ≠ nilnode →
   ∀ result tw back, ∃ out, call result tw back = Some out ∧
     multi.calls out.2 = multi.calls tw ++ descents) →
  (child = nilnode → descents = []) →
  ∀ result tw, ∃ out,
    multi.spawn_or_call_multi child call result tw = Some out ∧
    multi.calls out.2 = multi.calls tw ++ descents.
Proof.
  intros Hcall Hnil result tw. unfold multi.spawn_or_call_multi.
  destruct child as [|segment l r overlap].
  { rewrite Hnil by done. exists (result, tw). by rewrite app_nil_r. }
  specialize (Hcall ltac:(done)).
  pose proof (try_queue_spec tw) as (_ & _ & Hcalls & _).
  destruct (multi.try_queue tw) as [ok tw1]. simpl in Hcalls.
  destruct ok.
  - destruct (Hcall ∅ tw1 true) as ([res' tw'] & -> & Hc). simpl in *.
    eexists. split; [done|]. simpl. congruence.
  - destruct (Hcall result tw1 false) as (out & -> & Hc).
    eexists. split; [done|]. congruence.
Qed.

Lemma multi_queryMulti_calls n : ∀ from to result tw back,
  (length from <= length to)%nat →
  ∃ out, multi.queryMulti n from to result tw back = Some out ∧
         multi.calls out.2 = multi.calls tw ++ multi_descents n from to.
Proof.
  induction n as [|segment l IHl r IHr overlap]; intros from to result tw back Hlen.
  { exists (result, tw). by rewrite app_nil_r. }
  cbn [multi.queryMulti multi_descents].
  cbn [multi.num multi.queue multi.results multi.races multi.calls].
  destruct (hits_loop_spec segment overlap from to result [] [] Hlen)
    as (res1 & -> & _ & _).
  cbn [mbind option_bind app]. rewrite length_fmap.
  set (tw0 := {| multi.num := multi.num tw; multi.queue := multi.queue tw;
                 multi.results := multi.results tw; multi.races := multi.races tw;
                 multi.calls := multi.calls tw ++ [(segment, from, to)] |}).
  assert (∃ out, (if decide (length (hits segment (zip from to)) ≠ 0%nat)
                  then
                    multi.spawn_or_call_multi r (multi.queryMulti r from to) res1 tw0
                    ≫= λ '(result0, tw1),
                         multi.spawn_or_call_multi l (multi.queryMulti l from to) result0 tw1
                  else Some (res1, tw0)) = Some out ∧
                 multi.calls out.2 =
                   multi.calls tw ++ (segment, from, to) ::
                     (if decide (hits segment (zip from to) = []) then []
                      else multi_descents r from to ++ multi_descents l from to))
    as ([res2 tw2] & -> & Hc).
  { destruct (decide (hits segment (zip from to) = [])) as [Hhits|Hhits].
    - rewrite Hhits. simpl. eexists. split; [done|]. done.
    - case_decide as Hz.
      2:{ exfalso. destruct (hits segment (zip from to)); [done|].
          simpl in Hz. first [done | apply Hz; done]. }
      destruct (spawn_or_call_multi_calls r (multi.queryMulti r from to)
                  (multi_descents r from to)
                  ltac:(intros ? ???; by apply IHr) ltac:(by intros ->) res1 tw0)
        as ([res' tw'] & -> & Hc1).
      cbn [mbind option_bind].
      destruct (spawn_or_call_multi_calls l (multi.queryMulti l from to)
                  (multi_descents l from to)
                  ltac:(intros ? ???; by apply IHl) ltac:(by intros ->) res' tw')
        as (out & -> & Hc2).
      exists out. split; [done|]. rewrite Hc2. simpl in Hc1. rewrite Hc1. simpl.
      by rewrite <-!(assoc_L (++)). }
  cbn [mbind option_bind]. simpl in Hc.
  destruct back; eexists; (split; [done|]); simpl; done.
Qed.

(** ** Panics and frames *)

Lemma ids_nil_inv (l : list Interval) : ids l = ∅ → l = [].
Proof.
  destruct l as [|i l]; [done|]. unfold ids. simpl. intros H.
  assert (Id i ∈ (∅ : gset Z)) as Hin by (rewrite <-H; set_solver).
  by apply not_elem_of_empty in Hin.
Qed.

Lemma queryarray_loop_spec from : ∀ to t result,
  (length from <= length to)%nat →
  serial.queryarray_loop from to t result =
    Some (result ++ (zip from to ≫=
            λ p, filter (λ i, Disjoint (Seg i) p.1 p.2 = false) (base t))).
Proof.
  induction from as [|f from IH]; intros to t result Hlen.
  { simpl. by rewrite app_nil_r. }
  destruct to as [|x to]; [simpl in Hlen; lia|].
  simpl in Hlen. cbn [serial.queryarray_loop serial.Query zip zip_with].
  rewrite IH by lia. rewrite query_loop_spec. simpl.
  by rewrite <-!(assoc_L (++)).
Qed.

(** ** The parallel tree against the serial scan *)

(** C1.  Staging [1,1] and [5,9] and building the parallel tree gives a tree
    in which no leaf covers the points strictly between 5 and 9: whatever
    the worker budget and the schedule, [Query(6,7)] on it returns nothing,
    while the serial scan of the same staged set returns the interval
    [5,9]. *)
Theorem mtree_Query_misses_overlap :
  ∃ m',
    multi.BuildTree (multi.Push 5 9 (multi.Push 1 1 multi.NewMTree)) = Returned tt m' ∧
    (∀ NUM_WORKER races, multi.Query NUM_WORKER races 6 7 m' = Returned [] m') ∧
    serial.Query 6 7 (Push 5 9 (Push 1 1 serial.NewSerial)) =
      Returned [ {| Id := 1; Seg := {| From := 5; To := 9 |} |} ]
               (Push 5 9 (Push 1 1 serial.NewSerial)).
Proof.
  eexists. split; [vm_compute; reflexivity|]. split; [|vm_compute; reflexivity].
  intros NUM_WORKER races.
  match goal with |- multi.Query _ _ _ _ ?m = _ => set (m' := m) end.
  destruct (multi_Query_ids NUM_WORKER races 6 7 m' ltac:(done)) as (found & -> & Hids).
  f_equal. apply ids_nil_inv. rewrite Hids. vm_compute. reflexivity.
Qed.

(** C3.  In the parallel tree built from the staged intervals [1,1] and
    [5,9] the root has two children, with segments [1,5] and [9,9]: the
    left child's coverage ends at 5 and the right child's begins at 9, and
    the point 7 of the root's segment [1,9] lies in no leaf of the tree. *)
Theorem mtree_children_leave_gap :
  ∃ m' ll lr lo rl rr ro overlap,
    multi.BuildTree (multi.Push 5 9 (multi.Push 1 1 multi.NewMTree)) = Returned tt m' ∧
    multi.root m' =
      Node {| From := 1; To := 9 |}
        (Node {| From := 1; To := 5 |} ll lr lo)
        (Node {| From := 9; To := 9 |} rl rr ro) overlap ∧
    leaves (multi.root m') =
      [ {| From := 1; To := 1 |}; {| From := 5; To := 5 |}; {| From := 9; To := 9 |} ] ∧
    covers {| From := 1; To := 9 |} 7 ∧
    ¬ ∃ leaf, leaf ∈ leaves (multi.root m') ∧ covers leaf 7.
Proof.
  eexists _, _, _, _, _, _, _, _. split; [vm_compute; reflexivity|].
  split; [reflexivity|]. split; [reflexivity|].
  split; [unfold covers; simpl; lia|].
  intros (leaf & Hin & Hcov). simpl in Hin. unfold covers in Hcov.
  repeat (apply elem_of_cons in Hin as [->|Hin]; [simpl in Hcov; lia|]).
  by apply elem_of_nil in Hin.
Qed.

(** C5.  On the parallel tree built from the staged intervals [1,1] and
    [5,9], the batched traversal of the ranges (20,30) and (1,9) enters
    every child with both ranges, whatever the worker budget and the
    schedule, although (20,30) is disjoint from the root's segment [1,9];
    the sequential traversal of the same tree enters the children with
    (1,9) alone. *)
Theorem parallel_queryMulti_carries_all_ranges :
  ∃ m',
    multi.BuildTree (multi.Push 5 9 (multi.Push 1 1 multi.NewMTree)) = Returned tt m' ∧
    (∀ NUM_WORKER races, ∃ out,
       multi.queryMulti (multi.root m') [20; 1] [30; 9] ∅
         (multi.init NUM_WORKER races) false = Some out ∧
       multi.calls out.2 =
         [ ({| From := 1; To := 9 |}, [20; 1], [30; 9]);
           ({| From := 9; To := 9 |}, [20; 1], [30; 9]);
           ({| From := 1; To := 5 |}, [20; 1], [30; 9]);
           ({| From := 5; To := 5 |}, [20; 1], [30; 9]);
           ({| From := 1; To := 1 |}, [20; 1], [30; 9]) ]) ∧
    (∃ w,
       queryMulti (multi.root m') [20; 1] [30; 9] {| result := ∅; calls := [] |} = Some w ∧
       calls w =
         [ ({| From := 1; To := 9 |}, [20; 1], [30; 9]);
           ({| From := 9; To := 9 |}, [1], [9]);
           ({| From := 1; To := 5 |}, [1], [9]);
           ({| From := 5; To := 5 |}, [1], [9]);
           ({| From := 1; To := 1 |}, [1], [9]) ]).
Proof.
  eexists. split; [vm_compute; reflexivity|]. split.
  - intros NUM_WORKER races.
    match goal with |- context [multi.queryMulti ?n _ _ _ _ _] => set (n0 := n) end.
    destruct (multi_queryMulti_calls n0 [20; 1] [30; 9] ∅
                (multi.init NUM_WORKER races) false ltac:(done)) as (out & -> & Hc).
    exists out. split; [done|]. rewrite Hc. vm_compute. reflexivity.
  - match goal with |- context [queryMulti ?n _ _ _] => set (n0 := n) end.
    destruct (queryMulti_calls n0 [20; 1] [30; 9] {| result := ∅; calls := [] |}
                ltac:(done)) as (w & -> & Hc).
    exists w. split; [done|]. rewrite Hc. vm_compute. reflexivity.
Qed.

(** C7.  [BuildTree] on an empty staging slice panics and leaves the tree
    as it was; [Query] and [QueryArray] on a tree without a root panic and
    leave it as it was.  This holds for the sequential and for the parallel
    tree. *)
Theorem preconditions_panic :
  (∀ t, base t = [] →
     BuildTree t =
       Panicked "No intervals in stack to build tree. Push intervals first" t) ∧
  (∀ t from to, root t = nilnode →
     Query from to t =
       Panicked "Can't run query on empty tree. Call BuildTree() first" t) ∧
  (∀ t from to, root t = nilnode →
     QueryArray from to t =
       Panicked "Can't run query on empty tree. Call BuildTree() first" t) ∧
  (∀ m, multi.base m = [] →
     multi.BuildTree m =
       Panicked "No intervals in stack to build tree. Push intervals first" m) ∧
  (∀ NUM_WORKER races m from to, multi.root m = nilnode →
     multi.Query NUM_WORKER races from to m =
       Panicked "Can't run query on empty tree. Call BuildTree() first" m) ∧
  (∀ NUM_WORKER races m from to, multi.root m = nilnode →
     multi.QueryArray NUM_WORKER races from to m =
       Panicked "Can't run query on empty tree. Call BuildTree() first" m).
Proof.
  split; [intros t Ht; unfold BuildTree; by rewrite Ht|].
  split; [intros t from to Ht; unfold Query; by rewrite Ht|].
  split; [intros t from to Ht; unfold QueryArray; by rewrite Ht|].
  split; [intros m Hm; unfold multi.BuildTree; by rewrite Hm|].
  split; [intros ?? m from to Hm; unfold multi.Query; by rewrite Hm|].
  intros ?? m from to Hm; unfold multi.QueryArray; by rewrite Hm.
Qed.

Lemma preconditions_panic_witness :
  BuildTree NewTree =
    Panicked "No intervals in stack to build tree. Push intervals first" NewTree ∧
  Query 1 2 (Push 3 7 NewTree) =
    Panicked "Can't run query on empty tree. Call BuildTree() first" (Push 3 7 NewTree) ∧
  QueryArray [1] [2] (Push 3 7 NewTree) =
    Panicked "Can't run query on empty tree. Call BuildTree() first" (Push 3 7 NewTree) ∧
  multi.BuildTree multi.NewMTree =
    Panicked "No intervals in stack to build tree. Push intervals first" multi.NewMTree ∧
  multi.Query 4 [] 1 2 (multi.Push 3 7 multi.NewMTree) =
    Panicked "Can't run query on empty tree. Call BuildTree() first"
      (multi.Push 3 7 multi.NewMTree) ∧
  multi.QueryArray 4 [] [1] [2] (multi.Push 3 7 multi.NewMTree) =
    Panicked "Can't run query on empty tree. Call BuildTree() first"
      (multi.Push 3 7 multi.NewMTree).
Proof.
  destruct preconditions_panic as (H1 & H2 & H3 & H4 & H5 & H6).
  split; [exact (H1 NewTree eq_refl)|].
  split; [exact (H2 (Push 3 7 NewTree) 1 2 eq_refl)|].
  split; [exact (H3 (Push 3 7 NewTree) [1] [2] eq_refl)|].
  split; [exact (H4 multi.NewMTree eq_refl)|].
  split; [exact (H5 4%nat [] (multi.Push 3 7 multi.NewMTree) 1 2 eq_refl)|].
  exact (H6 4%nat [] (multi.Push 3 7 multi.NewMTree) [1] [2] eq_refl).
Defined.

(** C9.  [Query] and [QueryArray], sequential or parallel, leave the tree
    as they found it, whether they return or panic: the root with every
    node's segment, children and overlap list, the staging slice, the
    counter and the cached bounds are those of before the call. *)
Theorem queries_do_not_mutate :
  (∀ t from to, state_of (Query from to t) = t) ∧
  (∀ t from to, state_of (QueryArray from to t) = t) ∧
  (∀ NUM_WORKER races m from to,
     state_of (multi.Query NUM_WORKER races from to m) = m) ∧
  (∀ NUM_WORKER races m from to,
     state_of (multi.QueryArray NUM_WORKER races from to m) = m).
Proof.
  split; [intros t from to; unfold Query; by destruct (root t)|].
  split.
  { intros t from to. unfold QueryArray. destruct (root t); [done|].
    by destruct (queryMulti _ _ _ _). }
  split.
  { intros ?? m from to. unfold multi.Query. destruct (multi.root m); [done|].
    by destruct (multi.querySingle _ _ _ _ _ _). }
  intros ?? m from to. unfold multi.QueryArray. destruct (multi.root m); [done|].
  by destruct (multi.queryMulti _ _ _ _ _ _) as [[??]|].
Qed.

(** C10.  On the serial scan, [BuildTree], [Print] and [Tree2Array] always
    panic.  [Query] returns, on any state, built or not, the staged
    intervals not disjoint from the range, in staging order.  [QueryArray]
    over two slices of equal length returns the concatenation of the
    per-range results, so an interval that meets two ranges is returned
    twice. *)
Theorem serial_scan_without_tree :
  (∀ t, serial.BuildTree t =
          Panicked "BuildTree() not supported for serial data structure" t) ∧
  (∀ t, serial.Print t =
          Panicked "Print() not supported for serial data structure" t) ∧
  (∀ t, serial.Tree2Array t =
          Panicked "Tree2Array() not supported for serial data structure" t) ∧
  (∀ t from to,
     serial.Query from to t =
       Returned (filter (λ i, Disjoint (Seg i) from to = false) (base t)) t) ∧
  (∀ t from to, length from = length to →
     serial.QueryArray from to t =
       Returned (zip from to ≫=
                   λ p, filter (λ i, Disjoint (Seg i) p.1 p.2 = false) (base t)) t) ∧
  serial.QueryArray [1; 2] [1; 2] (Push 0 10 serial.NewSerial) =
    Returned [ {| Id := 0; Seg := {| From := 0; To := 10 |} |};
               {| Id := 0; Seg := {| From := 0; To := 10 |} |} ]
             (Push 0 10 serial.NewSerial).
Proof.
  split; [done|]. split; [done|]. split; [done|].
  split; [intros t from to; unfold serial.Query; by rewrite query_loop_spec|].
  split; [|vm_compute; reflexivity].
  intros t from to Hlen. unfold serial.QueryArray.
  by rewrite queryarray_loop_spec by lia.
Qed.

Lemma serial_scan_without_tree_witness :
  serial.QueryArray [3; 6] [5; 6]
    (Push 6 9 (Push 4 6 (Push 5 7 (Push 2 3 (Push 1 1 serial.NewSerial))))) =
  Returned
    [ {| Id := 1; Seg := {| From := 2; To := 3 |} |};
      {| Id := 2; Seg := {| From := 5; To := 7 |} |};
      {| Id := 3; Seg := {| From := 4; To := 6 |} |};
      {| Id := 2; Seg := {| From := 5; To := 7 |} |};
      {| Id := 3; Seg := {| From := 4; To := 6 |} |};
      {| Id := 4; Seg := {| From := 6; To := 9 |} |} ]
    (Push 6 9 (Push 4 6 (Push 5 7 (Push 2 3 (Push 1 1 serial.NewSerial))))).
Proof.
  destruct serial_scan_without_tree as (_ & _ & _ & _ & H & _).
  exact (H (Push 6 9 (Push 4 6 (Push 5 7 (Push 2 3 (Push 1 1 serial.NewSerial)))))
           [3; 6] [5; 6] eq_refl).
Defined.

(** ** Instances on the staged set of the package tests *)

Lemma insertion_is_canonical_witness :
  ∃ t' l r,
    BuildTree (Push 5 9 (Push 1 1 NewTree)) = Returned tt t' ∧
    subnode (Node {| From := 5; To := 9 |} l r
               [ {| Id := 1; Seg := {| From := 5; To := 9 |} |} ]) (root t') ∧
    subsetOf {| From := 5; To := 9 |}
      (Seg {| Id := 1; Seg := {| From := 5; To := 9 |} |}) = true ∧
    ¬ holds l {| Id := 1; Seg := {| From := 5; To := 9 |} |} ∧
    ¬ holds r {| Id := 1; Seg := {| From := 5; To := 9 |} |}.
Proof.
  eexists _, _, _. split; [vm_compute; reflexivity|].
  split; [apply subnode_right, subnode_here|].
  eapply (proj1 insertion_is_canonical (Push 5 9 (Push 1 1 NewTree))).
  - vm_compute. reflexivity.
  - apply subnode_right, subnode_here.
  - by left.
Defined.

Lemma QueryArray_union_of_Query_witness :
  ∃ found,
    QueryArray [3; 0] [5; 0]
      (state_of (BuildTree (Push 6 9 (Push 4 6 (Push 5 7 (Push 2 3 (Push 1 1 NewTree)))))))
    = Returned found
        (state_of (BuildTree (Push 6 9 (Push 4 6 (Push 5 7 (Push 2 3 (Push 1 1 NewTree))))))) ∧
    2 ∈ ids found.
Proof.
  destruct (QueryArray_union_of_Query
              (state_of (BuildTree (Push 6 9 (Push 4 6 (Push 5 7 (Push 2 3 (Push 1 1 NewTree)))))))
              [3; 0] [5; 0]) as (found & HQ & Hx).
  - vm_compute. discriminate.
  - reflexivity.
  - exists found. split; [exact HQ|].
    apply Hx. exists 0%nat, 3, 5. eexists. split; [reflexivity|].
    split; [reflexivity|]. split; [vm_compute; reflexivity|].
    apply elem_of_ids. eexists.
    split; [apply list_elem_of_In; right; left; reflexivity|reflexivity].
Defined.

Lemma insertInterval_formulations_agree_witness :
  stree0.insertInterval
    (root (state_of (BuildTree (Push 5 9 (Push 1 1 NewTree)))))
    {| Id := 7; Seg := {| From := 2; To := 6 |} |} =
  insertInterval
    (root (state_of (BuildTree (Push 5 9 (Push 1 1 NewTree)))))
    {| Id := 7; Seg := {| From := 2; To := 6 |} |}.
Proof.
  eapply (proj1 insertInterval_formulations_agree (Push 5 9 (Push 1 1 NewTree))).
  vm_compute. reflexivity.
Defined.

(** ** Staging *)

Lemma Push_base from to t :
  base (Push from to t) =
    base t ++ [ {| Id := count t; Seg := {| From := from; To := to |} |} ].
Proof. done. Qed.

Lemma wrap_small z : - 2 ^ 63 <= z < 2 ^ 63 → wrap z = z.
Proof.
  intros Hz. unfold wrap. rewrite Z.mod_small by lia. lia.
Qed.

Lemma pushed_snoc ranges p t :
  pushed (ranges ++ [p]) t = Push p.1 p.2 (pushed ranges t).
Proof. unfold pushed. by rewrite foldl_app. Qed.

Lemma pushed_length ranges t :
  length (base (pushed ranges t)) = (length (base t) + length ranges)%nat.
Proof.
  induction ranges as [|p ranges IH] using rev_ind; [simpl; lia|].
  rewrite pushed_snoc, Push_base, !length_app, IH. simpl. lia.
Qed.

Lemma pushed_spec ranges : ∀ t,
  0 <= count t → count t + Z.of_nat (length ranges) < 2 ^ 63 →
  count (pushed ranges t) = count t + Z.of_nat (length ranges) ∧
  root (pushed ranges t) = root t ∧
  min (pushed ranges t) = min t ∧ max (pushed ranges t) = max t ∧
  base (pushed ranges t) =
    base t ++ imap (λ k p, {| Id := count t + Z.of_nat k;
                              Seg := {| From := p.1; To := p.2 |} |}) ranges.
Proof.
  induction ranges as [|p ranges IH] using rev_ind; intros t H0 Hlen.
  { simpl. rewrite app_nil_r. repeat split; lia. }
  rewrite length_app in Hlen. simpl in Hlen.
  rewrite pushed_snoc.
  destruct (IH t H0 ltac:(lia)) as (Hc & Hr & Hmn & Hmx & Hb).
  cbn [count root min max Push base]. rewrite Hc, Hr, Hmn, Hmx, Hb.
  rewrite wrap_small by lia. rewrite length_app. simpl.
  split; [lia|]. repeat (split; [done|]).
  rewrite imap_app. simpl. rewrite Nat.add_0_r. by rewrite <-(assoc_L (++)).
Qed.

(** X9.  Starting from a cleared tree (a new tree is a cleared one), fewer than
    [2^63] calls of [Push] stage the ranges in call order under the
    identifiers [0, 1, 2, ...], which are therefore pairwise distinct, and
    leave the tree without a root. *)
Theorem Push_numbers_intervals t ranges :
  Z.of_nat (length ranges) < 2 ^ 63 →
  base (pushed ranges (Clear t)) =
    imap (λ k p, {| Id := Z.of_nat k; Seg := {| From := p.1; To := p.2 |} |}) ranges ∧
  count (pushed ranges (Clear t)) = Z.of_nat (length ranges) ∧
  root (pushed ranges (Clear t)) = nilnode ∧
  NoDup (Id <$> base (pushed ranges (Clear t))).
Proof.
  intros Hlen.
  destruct (pushed_spec ranges (Clear t) ltac:(done) ltac:(simpl; lia))
    as (Hc & Hr & _ & _ & Hb).
  simpl in Hb, Hc, Hr. rewrite Hb, Hc, Hr. split; [|split; [lia|split; [done|]]].
  { apply imap_ext. intros k p _. simpl. by rewrite Z.add_0_l. }
  apply NoDup_alt. intros i j x Hi Hj.
  rewrite list_lookup_fmap, list_lookup_imap in Hi, Hj.
  destruct (ranges !! i) as [pi|]; [|done]. destruct (ranges !! j) as [pj|]; [|done].
  simpl in Hi, Hj. simplify_eq. lia.
Qed.

Lemma Push_numbers_intervals_witness :
  base (pushed [(1, 1); (5, 9)] (Clear NewTree)) =
    [ {| Id := 0; Seg := {| From := 1; To := 1 |} |};
      {| Id := 1; Seg := {| From := 5; To := 9 |} |} ] ∧
  count (pushed [(1, 1); (5, 9)] (Clear NewTree)) = 2 ∧
  root (pushed [(1, 1); (5, 9)] (Clear NewTree)) = nilnode ∧
  NoDup (Id <$> base (pushed [(1, 1); (5, 9)] (Clear NewTree))).
Proof.
  apply (Push_numbers_intervals NewTree [(1, 1); (5, 9)]). simpl. lia.
Defined.

Lemma PushArray_spec from : ∀ to t,
  PushArray from to t =
    if decide (length from <= length to)%nat
    then Returned tt (pushed (zip from to) t)
    else Panicked "index out of range" (pushed (zip from to) t).
Proof.
  induction from as [|f from IH]; intros to t.
  { cbn [PushArray zip zip_with length]. case_decide; [done|lia]. }
  destruct to as [|x to].
  { cbn [PushArray zip zip_with length]. case_decide; [lia|done]. }
  cbn [PushArray zip zip_with length]. rewrite IH. unfold pushed. cbn [foldl fst snd].
  repeat case_decide; try done; lia.
Qed.

(** X10.  [PushArray] stages the pairs [(from[i], to[i])] in order.  When [to] is
    shorter than [from] it panics on the first missing [to[i]], after it has
    staged the pairs before it. *)
Theorem PushArray_stages_pairs from to t :
  ((length from <= length to)%nat →
     PushArray from to t = Returned tt (pushed (zip from to) t)) ∧
  ((length to < length from)%nat →
     PushArray from to t = Panicked "index out of range" (pushed (zip from to) t) ∧
     length (base (pushed (zip from to) t)) = (length (base t) + length to)%nat).
Proof.
  rewrite PushArray_spec. split; intros Hlen.
  - by rewrite decide_True.
  - rewrite decide_False by lia. split; [done|].
    assert (length (zip from to) = length to) as <-.
    { rewrite length_zip_with. lia. }
    apply pushed_length.
Qed.

Lemma PushArray_stages_pairs_witness :
  PushArray [1; 5] [1; 9] NewTree = Returned tt (pushed [(1, 1); (5, 9)] NewTree) ∧
  PushArray [1; 5; 7] [1; 9] NewTree =
    Panicked "index out of range" (pushed [(1, 1); (5, 9)] NewTree) ∧
  length (base (pushed (zip [1; 5; 7] [1; 9]) NewTree)) = 2%nat.
Proof.
  split; [apply (proj1 (PushArray_stages_pairs [1; 5] [1; 9] NewTree)); simpl; lia|].
  apply (proj2 (PushArray_stages_pairs [1; 5; 7] [1; 9] NewTree)). simpl. lia.
Defined.

(** ** Endpoints *)

(** X11.  [Dedup] panics on an empty slice; on any other slice it returns its
    values in strictly ascending order, each once. *)
Theorem Dedup_ascending_without_duplicates :
  Dedup [] = None ∧
  ∀ sl, sl ≠ [] →
    ∃ unique, Dedup sl = Some unique ∧
      StronglySorted Z.lt unique ∧ NoDup unique ∧ (∀ x, x ∈ unique ↔ x ∈ sl).
Proof.
  split; [done|]. intros sl Hne.
  destruct (Dedup_spec sl Hne) as (unique & HD & _ & Hs & Hel).
  exists unique. repeat (split; [done|]). split; [|done].
  clear -Hs. induction Hs as [|x l Hs IH Hall]; constructor; [|done].
  intros Hin. rewrite Forall_forall in Hall. apply Hall in Hin. lia.
Qed.

Lemma Dedup_ascending_without_duplicates_witness :
  ∃ unique, Dedup [5; 1; 9; 1] = Some unique ∧
    StronglySorted Z.lt unique ∧ NoDup unique ∧ (∀ x, x ∈ unique ↔ x ∈ [5; 1; 9; 1]).
Proof.
  apply (proj2 Dedup_ascending_without_duplicates [5; 1; 9; 1]). discriminate.
Defined.

(** X12.  After [BuildTree], the cached [min] and [max] are the least and the
    greatest bound of the staged intervals, and staging slice and counter
    are those of before. *)
Theorem BuildTree_caches_extreme_bounds t t' :
  BuildTree t = Returned tt t' →
  base t' = base t ∧ count t' = count t ∧
  min t' ∈ bounds (base t) ∧ max t' ∈ bounds (base t) ∧
  ∀ x, x ∈ bounds (base t) → min t' <= x <= max t'.
Proof.
  intros Hbuild.
  pose proof (BuildTree_Returned_inv _ _ Hbuild) as Hne.
  destruct (BuildTree_returns t Hne)
    as (endpoints & mn & mx & n0 & HE & Hs & Hel & Hh & Hl & Hb & Hfresh & Hret).
  rewrite Hret in Hbuild. injection Hbuild as <-. cbn [root base count min max].
  assert (∀ x, x ∈ bounds (base t) ↔ x ∈ endpoints) as Hbounds.
  { intros x. unfold bounds. rewrite elem_of_list_to_set, elem_of_app, !list_elem_of_fmap.
    rewrite Hel. simpl. naive_solver. }
  split; [done|]. split; [done|].
  split; [apply Hbounds; by apply head_elem_of|].
  split; [apply Hbounds; by apply last_elem_of|].
  intros x Hx. apply Hbounds in Hx. by apply (sorted_bounds endpoints).
Qed.

Lemma BuildTree_caches_extreme_bounds_witness :
  ∃ t', BuildTree (pushed [(5, 9); (1, 1)] NewTree) = Returned tt t' ∧
        min t' ∈ bounds (base (pushed [(5, 9); (1, 1)] NewTree)) ∧
        ∀ x, x ∈ bounds (base (pushed [(5, 9); (1, 1)] NewTree)) → min t' <= x <= max t'.
Proof.
  eexists. split; [vm_compute; reflexivity|].
  destruct (BuildTree_caches_extreme_bounds (pushed [(5, 9); (1, 1)] NewTree) _
              ltac:(vm_compute; reflexivity)) as (_ & _ & H1 & _ & H2).
  split; [exact H1|exact H2].
Defined.

(** X13.  [BuildTree] reads the staging slice only: a second [BuildTree] without
    a [Push] in between returns and leaves the tree as the first one made
    it. *)
Theorem BuildTree_twice t t' :
  BuildTree t = Returned tt t' → BuildTree t' = Returned tt t'.
Proof.
  intros Hbuild.
  assert (base t' = base t ∧ count t' = count t) as [Hb Hc].
  { pose proof (BuildTree_Returned_inv _ _ Hbuild) as Hne.
    destruct (BuildTree_returns t Hne) as (? & ? & ? & ? & _ & _ & _ & _ & _ & _ & _ & Hret).
    rewrite Hret in Hbuild. by injection Hbuild as <-. }
  revert Hbuild. unfold BuildTree. rewrite Hb.
  case_decide; [done|].
  destruct (Endpoints (base t)) as [[[endpoints mn] mx]|]; [|done].
  cbn [count root base min max]. rewrite Hc.
  destruct (elementaryIntervals endpoints ≫= insertNodes); [|done].
  intros H'. injection H' as <-. done.
Qed.

Lemma BuildTree_twice_witness :
  BuildTree (state_of (BuildTree (pushed [(1, 1); (5, 9)] NewTree))) =
  Returned tt (state_of (BuildTree (pushed [(1, 1); (5, 9)] NewTree))).
Proof.
  apply (BuildTree_twice (pushed [(1, 1); (5, 9)] NewTree)). vm_compute. reflexivity.
Defined.

(** ** What a query returns *)

Lemma values_NoDup (result : gmap Z Interval) :
  keyed result → NoDup (Id <$> values result).
Proof.
  intros Hk. unfold values.
  assert (Id <$> (map_to_list result).*2 = (map_to_list result).*1) as ->.
  { rewrite <-list_fmap_compose. apply list_eq_Forall2, Forall2_fmap, Forall2_same_length_lookup.
    split; [done|]. intros i [k v] [k' v'] H1 H2. simplify_eq. simpl.
    apply Hk. apply elem_of_map_to_list. by eapply list_elem_of_lookup_2. }
  apply NoDup_fst_map_to_list.
Qed.

Lemma collect_lookup overlap : ∀ (result : gmap Z Interval) k v,
  collect overlap result !! k = Some v → result !! k = Some v ∨ v ∈ overlap.
Proof.
  unfold collect. induction overlap as [|i overlap IH]; intros result k v; simpl; [by left|].
  intros H. apply IH in H as [H|H]; [|by right; right].
  rewrite lookup_insert in H. case_decide; [|by left].
  simplify_eq. right. by left.
Qed.

Lemma querySingle_lookup n from to : ∀ (result : gmap Z Interval) k v,
  querySingle n from to result !! k = Some v →
  result !! k = Some v ∨ v ∈ visited n from to.
Proof.
  induction n as [|segment l IHl r IHr overlap]; intros result k v; simpl; [by left|].
  destruct (Disjoint segment from to); simpl; [by left|].
  intros H. rewrite !elem_of_app.
  apply IHl in H as [H|H]; [|by auto].
  apply IHr in H as [H|H]; [|by auto].
  apply collect_lookup in H as [H|H]; auto.
Qed.

Lemma Query_values t from to :
  root t ≠ nilnode →
  ∃ found, Query from to t = Returned found t ∧
    NoDup (Id <$> found) ∧
    ids found = ids (visited (root t) from to) ∧
    ∀ v, v ∈ found → v ∈ visited (root t) from to.
Proof.
  intros Hroot. unfold Query. destruct (root t) as [|segment l r overlap] eqn:Ht; [done|].
  eexists. split; [done|].
  pose proof (querySingle_keyed (Node segment l r overlap) from to ∅ keyed_empty) as Hk.
  split; [by apply values_NoDup|].
  split.
  { rewrite ids_values by done. rewrite querySingle_dom. set_solver. }
  intros v Hv. unfold values in Hv.
  apply list_elem_of_fmap in Hv as ([k v'] & -> & Hkv). apply elem_of_map_to_list in Hkv.
  apply querySingle_lookup in Hkv as [Hkv|Hkv]; [|done]. by rewrite lookup_empty in Hkv.
Qed.

(** X8.  [Query] and [QueryArray] never return an identifier twice: the slice is
    read off a map keyed by identifier. *)
Theorem Query_returns_each_id_once :
  (∀ t from to found t', Query from to t = Returned found t' → NoDup (Id <$> found)) ∧
  (∀ t from to found t', QueryArray from to t = Returned found t' → NoDup (Id <$> found)).
Proof.
  split.
  - intros t from to found t'. unfold Query.
    destruct (root t) as [|segment l r overlap]; [done|].
    pose proof (querySingle_keyed (Node segment l r overlap) from to ∅ keyed_empty) as Hk.
    intros H. injection H as <- _. by apply values_NoDup.
  - intros t from to found t'. unfold QueryArray.
    destruct (root t) as [|segment l r overlap]; [done|].
    destruct (decide (length from <= length to)%nat) as [Hlen|Hlen].
    + destruct (queryMulti_spec (Node segment l r overlap) from to
                  {| result := ∅; calls := [] |} Hlen) as (w & -> & _ & Hk).
      specialize (Hk keyed_empty). intros H. injection H as <- _. by apply values_NoDup.
    + destruct (queryMulti _ from to _) as [w|] eqn:Hq; [|done].
      exfalso. clear -Hlen Hq. revert Hq. cbn [queryMulti].
      assert (∀ res hf ht, hits_loop segment overlap from to res hf ht = None) as ->; [|done].
      assert (length to < length from)%nat as Hlt by lia. clear Hlen.
      revert to Hlt. induction from as [|f from IH]; intros to Hlt res hf ht;
        [simpl in Hlt; lia|].
      destruct to as [|x to]; [done|]. simpl in Hlt. simpl.
      destruct (Disjoint segment f x); simpl; apply IH; lia.
Qed.

Lemma Query_returns_each_id_once_witness :
  ∃ found t',
    Query 3 5 (state_of (BuildTree (pushed [(1, 1); (2, 3); (5, 7); (4, 6); (6, 9)] NewTree)))
      = Returned found t' ∧
    NoDup (Id <$> found).
Proof.
  eexists _, _. split; [vm_compute; reflexivity|].
  eapply (proj1 Query_returns_each_id_once
            (state_of (BuildTree (pushed [(1, 1); (2, 3); (5, 7); (4, 6); (6, 9)] NewTree)))
            3 5).
  vm_compute. reflexivity.
Defined.

(** X2.  When no identifier is staged twice, every staged interval is well
    formed and [from <= to], [Query] on the tree [stree.BuildTree] returns
    gives the very intervals the serial scan of the same staged set gives,
    in some order. *)
Theorem stree_Query_permutation_of_serial t t' (s : serial.serial) from to :
  BuildTree t = Returned tt t' →
  base s = base t →
  NoDup (Id <$> base t) →
  Forall (λ i, From (Seg i) <= To (Seg i)) (base t) →
  from <= to →
  ∃ found scanned,
    Query from to t' = Returned found t' ∧
    serial.Query from to s = Returned scanned s ∧
    found ≡ₚ scanned.
Proof.
  intros Hbuild Hbase Hnd Hwf Hab.
  destruct (Query_values t' from to (BuildTree_root_not_nil _ _ Hbuild))
    as (found & HQ & Hndf & Hids & Hval).
  exists found, (serial.query_loop (base s) from to []).
  split; [done|]. split; [done|].
  rewrite query_loop_spec, Hbase. simpl.
  apply NoDup_Permutation.
  - by eapply NoDup_fmap_1.
  - apply NoDup_filter. by eapply NoDup_fmap_1.
  - intros x. rewrite list_elem_of_filter. split.
    { intros Hx. apply Hval in Hx.
      by apply (BuildTree_visited _ _ _ _ _ Hbuild Hwf Hab) in Hx as [??]. }
    intros [Hd Hb].
    assert (x ∈ visited (root t') from to) as Hx
      by (by apply (BuildTree_visited _ _ _ _ _ Hbuild Hwf Hab)).
    assert (Id x ∈ ids found) as Hin by (rewrite Hids; apply elem_of_ids; eauto).
    apply elem_of_ids in Hin as (y & Hy & Hid).
    assert (y = x) as <-; [|done].
    pose proof (Hval y Hy) as Hvy.
    apply (BuildTree_visited _ _ _ _ _ Hbuild Hwf Hab) in Hvy as [Hyb _].
    apply (BuildTree_visited _ _ _ _ _ Hbuild Hwf Hab) in Hx as [Hxb _].
    apply list_elem_of_lookup in Hyb as [iy Hiy]. apply list_elem_of_lookup in Hxb as [ix Hix].
    assert (iy = ix) as ->; [|congruence].
    apply (NoDup_lookup (Id <$> base t) iy ix (Id x) Hnd); rewrite list_lookup_fmap;
      [rewrite Hiy; simpl; by rewrite Hid|by rewrite Hix].
Qed.

Lemma stree_Query_permutation_of_serial_witness :
  ∃ found scanned,
    Query 3 5 (state_of (BuildTree (pushed [(1, 1); (2, 3); (5, 7); (4, 6); (6, 9)] NewTree)))
      = Returned found
          (state_of (BuildTree (pushed [(1, 1); (2, 3); (5, 7); (4, 6); (6, 9)] NewTree))) ∧
    serial.Query 3 5 (pushed [(1, 1); (2, 3); (5, 7); (4, 6); (6, 9)] NewTree)
      = Returned scanned (pushed [(1, 1); (2, 3); (5, 7); (4, 6); (6, 9)] NewTree) ∧
    found ≡ₚ scanned.
Proof.
  apply (stree_Query_permutation_of_serial
           (pushed [(1, 1); (2, 3); (5, 7); (4, 6); (6, 9)] NewTree)).
  - vm_compute. reflexivity.
  - reflexivity.
  - apply (bool_decide_unpack _). vm_compute. exact I.
  - repeat constructor; simpl; lia.
  - lia.
Defined.

Lemma stree_Query_agrees_with_serial_witness :
  ∃ found scanned,
    Query 6 6 (state_of (BuildTree (pushed [(1, 1); (2, 3); (5, 7); (4, 6); (6, 9)] NewTree)))
      = Returned found
          (state_of (BuildTree (pushed [(1, 1); (2, 3); (5, 7); (4, 6); (6, 9)] NewTree))) ∧
    serial.Query 6 6 (pushed [(1, 1); (2, 3); (5, 7); (4, 6); (6, 9)] NewTree)
      = Returned scanned (pushed [(1, 1); (2, 3); (5, 7); (4, 6); (6, 9)] NewTree) ∧
    ids found = ids scanned.
Proof.
  apply (stree_Query_agrees_with_serial
           (pushed [(1, 1); (2, 3); (5, 7); (4, 6); (6, 9)] NewTree)).
  - vm_compute. reflexivity.
  - reflexivity.
  - repeat constructor; simpl; lia.
  - lia.
Defined.

Lemma stree_BuildTree_partitions_leaves_witness :
  ∃ endpoints,
    StronglySorted Z.lt endpoints ∧
    (∀ x, x ∈ endpoints ↔ x ∈ bounds (base (pushed [(1, 1); (5, 9)] NewTree))) ∧
    leaves (root (state_of (BuildTree (pushed [(1, 1); (5, 9)] NewTree))))
      = alternating endpoints.
Proof.
  destruct (stree_BuildTree_partitions_leaves (pushed [(1, 1); (5, 9)] NewTree)
              (state_of (BuildTree (pushed [(1, 1); (5, 9)] NewTree))))
    as (endpoints & Hs & Hb & Hl & _).
  - vm_compute. reflexivity.
  - exists endpoints. split; [exact Hs|]. split; [exact Hb|exact Hl].
Defined.

(** ** The parallel traversals, for every schedule *)

(** X4.  On one and the same tree the parallel [Query] returns, for every
    worker budget and every schedule, the identifiers the sequential
    [Query] returns. *)
Theorem parallel_Query_same_as_sequential NUM_WORKER races (m : multi.mtree) t from to :
  root t = multi.root m → multi.root m ≠ nilnode →
  ∃ found found',
    multi.Query NUM_WORKER races from to m = Returned found m ∧
    Query from to t = Returned found' t ∧
    ids found = ids found'.
Proof.
  intros Hroot Hne.
  destruct (multi_Query_ids NUM_WORKER races from to m Hne) as (found & HQ & Hids).
  destruct (Query_ids t from to ltac:(by rewrite Hroot)) as (found' & HQ' & Hids').
  exists found, found'. split; [done|]. split; [done|]. by rewrite Hids, Hids', Hroot.
Qed.

Lemma parallel_Query_same_as_sequential_witness :
  ∃ found found',
    multi.Query 2 [true; false; true] 5 6
      (state_of (multi.BuildTree (mpushed [(1, 1); (5, 9)] multi.NewMTree)))
      = Returned found
          (state_of (multi.BuildTree (mpushed [(1, 1); (5, 9)] multi.NewMTree))) ∧
    Query 5 6
      {| count := 2;
         root := multi.root
                   (state_of (multi.BuildTree (mpushed [(1, 1); (5, 9)] multi.NewMTree)));
         base := []; min := 0; max := 0 |}
      = Returned found'
          {| count := 2;
             root := multi.root
                       (state_of (multi.BuildTree (mpushed [(1, 1); (5, 9)] multi.NewMTree)));
             base := []; min := 0; max := 0 |} ∧
    ids found = ids found'.
Proof.
  apply parallel_Query_same_as_sequential.
  - reflexivity.
  - vm_compute. discriminate.
Defined.

Lemma multi_insertInterval_Forall_overlap (P : Segment → Interval → Prop) n intrvl :
  (∀ s, subsetOf s (Seg intrvl) = true → P s intrvl) →
  Forall_overlap P n → Forall_overlap P (multi.insertInterval n intrvl).
Proof.
  intros HP. induction n as [|segment l IHl r IHr overlap]; simpl; [done|].
  intros (Ho & Hl & Hr).
  destruct (stree0.CompareTo segment (Seg intrvl)) eqn:Hcmp; simpl; [|done|by auto].
  split; [|done]. apply Forall_app. split; [done|].
  constructor; [by apply HP, compare_subset|constructor].
Qed.

Lemma foldl_Forall_overlap (insert : node → Interval → node)
    (P : Segment → Interval → Prop) intervals :
  (∀ n i, (∀ s, subsetOf s (Seg i) = true → P s i) →
          Forall_overlap P n → Forall_overlap P (insert n i)) →
  ∀ n,
  (∀ i s, i ∈ intervals → subsetOf s (Seg i) = true → P s i) →
  Forall_overlap P n → Forall_overlap P (foldl insert n intervals).
Proof.
  intros Hins. induction intervals as [|i intervals IH]; intros n HP Hn; simpl; [done|].
  apply IH.
  - intros j s Hj. apply HP. by right.
  - apply Hins; [|done]. intros s. apply HP. by left.
Qed.

Lemma multi_insertInterval_not_nil n intrvl :
  n ≠ nilnode → multi.insertInterval n intrvl ≠ nilnode.
Proof.
  destruct n as [|segment l r overlap]; [done|]. simpl.
  by destruct (stree0.CompareTo segment (Seg intrvl)).
Qed.

Lemma foldl_multi_insertInterval_not_nil intervals : ∀ n,
  n ≠ nilnode → foldl multi.insertInterval n intervals ≠ nilnode.
Proof.
  induction intervals as [|i intervals IH]; intros n Hn; simpl; [done|].
  by apply IH, multi_insertInterval_not_nil.
Qed.

Lemma multi_BuildTree_root m m' :
  multi.BuildTree m = Returned tt m' →
  multi.root m' ≠ nilnode ∧
  Forall_overlap (λ s i, subsetOf s (Seg i) = true ∧ i ∈ multi.base m) (multi.root m').
Proof.
  intros Hbuild.
  destruct (multi_BuildTree_Returned _ _ Hbuild)
    as (endpoint & mn & mx & sgl & n0 & Hne & HE & Hn0 & -> & _).
  apply multi_insertNodes_rec_fresh in Hn0 as [Hfresh Hnn].
  split; [by apply foldl_multi_insertInterval_not_nil|].
  apply (foldl_Forall_overlap multi.insertInterval).
  - intros n i. exact (multi_insertInterval_Forall_overlap _ n i).
  - by intros i s Hi Hsub.
  - eapply Forall_overlap_impl; [|exact Hfresh]. done.
Qed.

(** X5.  On the tree [multi.BuildTree] returns, [Query] returns, for every
    worker budget and every schedule, only identifiers of staged intervals
    that are not disjoint from the probe range. *)
Theorem multi_Query_returns_only_overlapping m m' NUM_WORKER races from to :
  multi.BuildTree m = Returned tt m' →
  ∃ found,
    multi.Query NUM_WORKER races from to m' = Returned found m' ∧
    ∀ x, x ∈ ids found →
         ∃ i, i ∈ multi.base m ∧ Id i = x ∧ Disjoint (Seg i) from to = false.
Proof.
  intros Hbuild. destruct (multi_BuildTree_root _ _ Hbuild) as [Hne HP].
  destruct (multi_Query_ids NUM_WORKER races from to m' Hne) as (found & HQ & Hids).
  exists found. split; [done|]. intros x Hx. rewrite Hids in Hx.
  apply elem_of_ids in Hx as (j & Hj & <-).
  destruct (visited_Forall_overlap _ _ _ _ _ HP Hj) as (s & [Hsub Hin] & Hd).
  exists j. split; [done|]. split; [done|].
  unfold subsetOf in Hsub. apply bool_decide_eq_true in Hsub.
  unfold Disjoint in *. repeat case_decide; try done. lia.
Qed.

Lemma multi_Query_returns_only_overlapping_witness :
  ∃ found,
    multi.Query 2 [] 5 6
      (state_of (multi.BuildTree (mpushed [(1, 1); (5, 9)] multi.NewMTree)))
      = Returned found
          (state_of (multi.BuildTree (mpushed [(1, 1); (5, 9)] multi.NewMTree))) ∧
    ∀ x, x ∈ ids found →
         ∃ i, i ∈ multi.base (mpushed [(1, 1); (5, 9)] multi.NewMTree) ∧ Id i = x ∧
              Disjoint (Seg i) 5 6 = false.
Proof.
  apply (multi_Query_returns_only_overlapping (mpushed [(1, 1); (5, 9)] multi.NewMTree)).
  vm_compute. reflexivity.
Defined.

(** *** The batched parallel traversal *)

Lemma walker_spec_start found (result res1 : gmap Z Interval) tw :
  dom res1 = dom result ∪ found → (keyed result → keyed res1) →
  walker_spec found result tw false (res1, tw).
Proof.
  intros Hdom Hk. unfold walker_spec. simpl.
  split; [done|]. split; [lia|]. split; [done|].
  exists []. rewrite app_nil_r. simpl.
  split; [done|]. split; [lia|]. split; [done|].
  split; [rewrite Hdom; clear; set_solver|]. intros Hr. split; [by apply Hk|done].
Qed.

Lemma walker_spec_calls found result tw back out calls' :
  walker_spec found result
    {| multi.num := multi.num tw; multi.queue := multi.queue tw;
       multi.results := multi.results tw; multi.races := multi.races tw;
       multi.calls := calls' |} back out →
  walker_spec found result tw back out.
Proof. done. Qed.

Lemma spawn_or_call_multi_spec child call found :
  (child ≠ nilnode →
   ∀ result tw back, ∃ out, call result tw back = Some out ∧
                            walker_spec found result tw back out) →
  (child = nilnode → found = ∅) →
  ∀ result tw, ∃ out,
    multi.spawn_or_call_multi child call result tw = Some out ∧
    walker_spec found result tw false out.
Proof.
  intros Hcall Hnil result tw. unfold multi.spawn_or_call_multi.
  destruct child as [|segment l r overlap].
  { rewrite Hnil by done. exists (result, tw). split; [done|].
    apply walker_spec_start; [clear; set_solver|done]. }
  specialize (Hcall ltac:(done)).
  pose proof (try_queue_spec tw) as (Hnum & Hres & Hcalls & Hq).
  destruct (multi.try_queue tw) as [ok tw1]. simpl in *.
  destruct ok.
  - destruct Hq as [Hq Hlt].
    destruct (Hcall ∅ tw1 true)
      as ([res' tw'] & -> & H1 & H3 & H4 & extra & H5 & H6 & H7 & H8 & H9).
    simpl in *. eexists. split; [done|].
    unfold walker_spec. simpl.
    split; [congruence|]. split; [lia|].
    split; [intros _; rewrite Hnum in H4; apply H4; lia|].
    exists extra. split; [congruence|]. split; [lia|]. split; [done|].
    split.
    + specialize (H7 eq_refl).
      assert (dom res' ⊆ ⋃ (dom <$> extra)) as Hsub.
      { intros x Hx. apply elem_of_union_list. eexists. split; [|exact Hx].
        apply list_elem_of_fmap. eauto. }
      rewrite dom_empty_L in H8. exact (union_absorb _ _ _ _ H8 Hsub).
    + intros Hk. split; [done|]. by apply H9, keyed_empty.
  - destruct (Hcall result tw1 false)
      as (out & -> & H1 & H3 & H4 & extra & H5 & H6 & H7 & H8 & H9).
    exists out. split; [done|]. unfold walker_spec.
    split; [congruence|]. split; [lia|].
    split; [rewrite Hnum, Hq in H4; done|].
    exists extra. split; [congruence|]. split; [lia|]. done.
Qed.

Lemma walker_spec_seq found1 found2 result tw out1 out2 :
  walker_spec found1 result tw false out1 →
  walker_spec found2 out1.1 out1.2 false out2 →
  walker_spec (found1 ∪ found2) result tw false out2.
Proof.
  intros (A1 & A3 & A4 & extra1 & A5 & A6 & A7 & A8 & A9)
         (B1 & B3 & B4 & extra2 & B5 & B6 & B7 & B8 & B9).
  unfold walker_spec.
  split; [congruence|]. split; [lia|].
  split; [intros Hle; rewrite A1 in B4; auto|].
  exists (extra1 ++ extra2).
  split; [rewrite B5, A5; by rewrite (assoc_L (++))|].
  split; [rewrite length_app; lia|]. split; [done|].
  split.
  - rewrite fmap_app, union_list_app_L. exact (union_chain _ _ _ _ _ _ _ A8 B8).
  - intros Hk. destruct (A9 Hk) as [Hk1 He1]. destruct (B9 Hk1) as [Hk2 He2].
    split; [done|]. by apply Forall_app.
Qed.

Lemma walker_spec_deliver found result tw out (back : bool) :
  walker_spec found result tw false out →
  walker_spec found result tw back
    (if back then (out.1, multi.deliver out.1 out.2) else (out.1, out.2)).
Proof.
  intros (A1 & A3 & A4 & extra & A5 & A6 & A7 & A8 & A9).
  destruct back; [|unfold walker_spec; simpl; eauto 10].
  unfold walker_spec. simpl.
  repeat (split; [done|]).
  exists (extra ++ [out.1]).
  split; [by rewrite A5, (assoc_L (++))|].
  split; [rewrite length_app; simpl; lia|].
  split; [intros _; apply elem_of_app; right; by left|].
  split.
  - rewrite fmap_app, union_list_app_L. simpl. exact (union_again _ _ _ _ A8).
  - intros Hk. destruct (A9 Hk) as [Hk1 He1]. split; [done|].
    apply Forall_app. split; [done|]. by constructor.
Qed.

Lemma multi_queryMulti_spec n : ∀ from to result tw back,
  (length from <= length to)%nat → (n = nilnode → back = false) →
  ∃ out, multi.queryMulti n from to result tw back = Some out ∧
         walker_spec (ids (visited_all n (zip from to))) result tw back out.
Proof.
  induction n as [|segment l IHl r IHr overlap]; intros from to result tw back Hlen Hback.
  { rewrite Hback by done. exists (result, tw). split; [done|].
    apply walker_spec_start; [clear; set_solver|done]. }
  cbn [multi.queryMulti visited_all].
  cbn [multi.num multi.queue multi.results multi.races multi.calls].
  destruct (hits_loop_spec segment overlap from to result [] [] Hlen)
    as (res1 & -> & Hdom1 & Hk1).
  cbn [mbind option_bind app]. rewrite length_fmap.
  set (tw0 := {| multi.num := multi.num tw; multi.queue := multi.queue tw;
                 multi.results := multi.results tw; multi.races := multi.races tw;
                 multi.calls := multi.calls tw ++ [(segment, from, to)] |}).
  assert (∃ out, (if decide (length (hits segment (zip from to)) ≠ 0%nat)
                  then
                    multi.spawn_or_call_multi r (multi.queryMulti r from to) res1 tw0
                    ≫= λ '(result0, tw1),
                         multi.spawn_or_call_multi l (multi.queryMulti l from to) result0 tw1
                  else Some (res1, tw0)) = Some out ∧
                 walker_spec
                   (ids (if decide (hits segment (zip from to) = []) then []
                         else overlap ++ visited_all r (zip from to) ++
                              visited_all l (zip from to)))
                   result tw0 false out)
    as ([res2 tw2] & -> & Hspec).
  { destruct (decide (hits segment (zip from to) = [])) as [Hhits|Hhits].
    - rewrite Hhits in *. simpl. eexists. split; [done|].
      apply walker_spec_start; [rewrite Hdom1; clear; set_solver|done].
    - case_decide as Hz.
      2:{ exfalso. destruct (hits segment (zip from to)); [done|].
          simpl in Hz. first [done | apply Hz; done]. }
      pose proof (walker_spec_start (ids overlap) result res1 tw0 Hdom1 Hk1) as H0.
      destruct (spawn_or_call_multi_spec r (multi.queryMulti r from to)
                  (ids (visited_all r (zip from to)))
                  ltac:(intros ? ???; by apply IHr) ltac:(by intros ->) res1 tw0)
        as ([res' tw'] & -> & H1).
      cbn [mbind option_bind].
      destruct (spawn_or_call_multi_spec l (multi.queryMulti l from to)
                  (ids (visited_all l (zip from to)))
                  ltac:(intros ? ???; by apply IHl) ltac:(by intros ->) res' tw')
        as (out & -> & H2).
      exists out. split; [done|].
      pose proof (walker_spec_seq _ _ _ _ _ _
                    (walker_spec_seq _ _ _ _ _ _ H0 H1) H2) as H.
      by rewrite !ids_app, (assoc_L (∪)). }
  cbn [mbind option_bind].
  pose proof (walker_spec_deliver _ _ _ _ back Hspec) as Hd. simpl in Hd.
  destruct back; eexists; (split; [done|]); by apply (walker_spec_calls _ _ tw _ _ _ Hd).
Qed.

Lemma visited_hit segment l r overlap from to x :
  x ∈ visited (Node segment l r overlap) from to → Disjoint segment from to = false.
Proof.
  simpl. destruct (Disjoint segment from to); [|done]. intros H. by apply elem_of_nil in H.
Qed.

Lemma within_hit child s from to x :
  within child s → x ∈ visited child from to → Disjoint s from to = false.
Proof.
  destruct child as [|cs cl cr co]; [intros _ H; by apply elem_of_nil in H|].
  simpl. intros [H1 H2] Hx. apply visited_hit in Hx.
  unfold Disjoint in *. simpl in *. repeat case_decide; try done. lia.
Qed.

(** On a tree with nested segments, entering the children with all ranges
    finds what entering them with the ranges that met the parent finds. *)
Lemma visited_all_any n ranges x :
  nested n → x ∈ visited_all n ranges ↔ x ∈ visited_any n ranges.
Proof.
  induction n as [|segment l IHl r IHr overlap]; intros Hn.
  { simpl. rewrite elem_of_visited_any. split; [intros H; by apply elem_of_nil in H|].
    intros (p & _ & H). by apply elem_of_nil in H. }
  destruct Hn as (Hord & Hwl & Hwr & Hnl & Hnr).
  cbn [visited_all]. rewrite elem_of_visited_any. split.
  - case_decide as Hh; [intros H; by apply elem_of_nil in H|].
    rewrite !elem_of_app, IHl, IHr, !elem_of_visited_any by done.
    intros [Hx|[(p & Hp & Hx)|(p & Hp & Hx)]].
    + destruct (hits segment ranges) as [|p0 rest] eqn:Hhits; [done|].
      assert (p0 ∈ hits segment ranges) as Hp0 by (rewrite Hhits; by left).
      apply list_elem_of_filter in Hp0 as [Hd Hp0].
      exists p0. split; [done|]. simpl. rewrite Hd. simpl. rewrite !elem_of_app. by left.
    + exists p. split; [done|]. simpl.
      rewrite (within_hit r segment _ _ x Hwr Hx). simpl. rewrite !elem_of_app. auto.
    + exists p. split; [done|]. simpl.
      rewrite (within_hit l segment _ _ x Hwl Hx). simpl. rewrite !elem_of_app. auto.
  - intros (p & Hp & Hx). pose proof (visited_hit _ _ _ _ _ _ _ Hx) as Hd.
    simpl in Hx. rewrite Hd in Hx. simpl in Hx.
    rewrite decide_False.
    2:{ intros Hh. assert (p ∈ hits segment ranges) as Hin by (by apply list_elem_of_filter).
        rewrite Hh in Hin. by apply elem_of_nil in Hin. }
    rewrite !elem_of_app, IHl, IHr, !elem_of_visited_any by done.
    rewrite !elem_of_app in Hx. naive_solver.
Qed.

Lemma multi_QueryArray_ids NUM_WORKER races from to m :
  multi.root m ≠ nilnode → (length from <= length to)%nat →
  ∃ found, multi.QueryArray NUM_WORKER races from to m = Returned found m ∧
           ids found = ids (visited_all (multi.root m) (zip from to)).
Proof.
  intros Hroot Hlen. unfold multi.QueryArray.
  destruct (multi.root m) as [|segment l r overlap] eqn:Ht; [done|].
  destruct (multi_queryMulti_spec (Node segment l r overlap) from to ∅
              (multi.init NUM_WORKER races) false Hlen ltac:(done))
    as ([result tw] & -> & A1 & A3 & A4 & extra & A5 & A6 & A7 & A8 & A9).
  eexists. split; [done|].
  simpl in *. destruct tw as [num queue results races' calls]. simpl in *. subst.
  specialize (A4 ltac:(lia)).
  destruct (collect_results_spec extra NUM_WORKER races' queue calls result ltac:(lia))
    as [Hdom Hkeyed].
  destruct (A9 keyed_empty) as [Hk1 Hk2].
  rewrite ids_values by auto.
  rewrite Hdom, A8. clear. set_solver.
Qed.

(** X6.  On the tree [multi.BuildTree] returns, the parallel [QueryArray]
    returns, for every worker budget and every schedule, the identifiers
    the sequential [QueryArray] returns on the same tree: entering the
    children with all ranges costs work, not answers. *)
Theorem parallel_QueryArray_same_as_sequential m m' t NUM_WORKER races from to :
  multi.BuildTree m = Returned tt m' →
  root t = multi.root m' → length from = length to →
  ∃ found found',
    multi.QueryArray NUM_WORKER races from to m' = Returned found m' ∧
    QueryArray from to t = Returned found' t ∧
    ids found = ids found'.
Proof.
  intros Hbuild Hroot Hlen.
  destruct (multi_BuildTree_root _ _ Hbuild) as [Hne _].
  pose proof (multi_BuildTree_nested _ _ Hbuild) as Hn.
  destruct (multi_QueryArray_ids NUM_WORKER races from to m' Hne ltac:(lia))
    as (found & HQ & Hids).
  exists found. unfold QueryArray. rewrite Hroot.
  destruct (multi.root m') as [|segment l r overlap] eqn:Hm; [done|].
  destruct (queryMulti_spec (Node segment l r overlap) from to
              {| result := ∅; calls := [] |} ltac:(lia)) as (w & -> & Hdom & Hk).
  eexists. split; [done|]. split; [done|].
  rewrite Hids, ids_values by (apply Hk, keyed_empty).
  rewrite Hdom. cbn [result]. rewrite dom_empty_L, (left_id_L ∅ (∪)).
  apply set_eq. intros x. rewrite !elem_of_ids.
  split; intros (j & Hj & <-); exists j; (split; [|done]);
    by apply (visited_all_any _ _ _ Hn).
Qed.

Lemma parallel_QueryArray_same_as_sequential_witness :
  ∃ found found',
    multi.QueryArray 2 [true] [20; 1] [30; 9]
      (state_of (multi.BuildTree (mpushed [(1, 1); (5, 9)] multi.NewMTree)))
      = Returned found
          (state_of (multi.BuildTree (mpushed [(1, 1); (5, 9)] multi.NewMTree))) ∧
    QueryArray [20; 1] [30; 9]
      {| count := 2;
         root := multi.root
                   (state_of (multi.BuildTree (mpushed [(1, 1); (5, 9)] multi.NewMTree)));
         base := []; min := 0; max := 0 |}
      = Returned found'
          {| count := 2;
             root := multi.root
                       (state_of (multi.BuildTree (mpushed [(1, 1); (5, 9)] multi.NewMTree)));
             base := []; min := 0; max := 0 |} ∧
    ids found = ids found'.
Proof.
  apply (parallel_QueryArray_same_as_sequential (mpushed [(1, 1); (5, 9)] multi.NewMTree)).
  - vm_compute. reflexivity.
  - reflexivity.
  - reflexivity.
Defined.

(** ** The ranges the sequential batched traversal carries *)

Lemma stree_descents_carried n : ∀ from to e p,
  e ∈ stree_descents n from to → p ∈ zip e.1.2 e.2 → p ∈ zip from to.
Proof.
  induction n as [|segment l IHl r IHr overlap]; intros from to e p He Hp.
  { by apply elem_of_nil in He. }
  cbn [stree_descents] in He. apply elem_of_cons in He as [->|He]; [done|].
  cbv zeta in He. case_decide as Hh; [by apply elem_of_nil in He|].
  assert (p ∈ hits segment (zip from to)) as Hin.
  { rewrite <-hits_zip. apply elem_of_app in He as [He|He]; eauto. }
  by apply list_elem_of_filter in Hin as [_ ?].
Qed.

(** X7.  The sequential [queryMulti] enters a node with the ranges it was given
    and everything below that node with ranges that met the node's segment
    only; when no range meets the segment it enters nothing below. *)
Theorem sequential_queryMulti_carries_hits segment l r overlap from to w :
  (length from <= length to)%nat →
  ∃ w' below,
    queryMulti (Node segment l r overlap) from to w = Some w' ∧
    calls w' = calls w ++ (segment, from, to) :: below ∧
    (∀ e p, e ∈ below → p ∈ zip e.1.2 e.2 →
            p ∈ zip from to ∧ Disjoint segment p.1 p.2 = false) ∧
    (hits segment (zip from to) = [] → below = []).
Proof.
  intros Hlen.
  destruct (queryMulti_calls (Node segment l r overlap) from to w Hlen) as (w' & HQ & Hc).
  cbn [stree_descents] in Hc. cbv zeta in Hc.
  eexists w', _. split; [done|]. split; [exact Hc|]. split.
  - intros e p He Hp. case_decide as Hh; [by apply elem_of_nil in He|].
    assert (p ∈ hits segment (zip from to)) as Hin.
    { rewrite <-hits_zip. apply elem_of_app in He as [He|He];
        eapply stree_descents_carried; eauto. }
    apply list_elem_of_filter in Hin as [? ?]. done.
  - intros Hh. by rewrite decide_True.
Qed.

Lemma sequential_queryMulti_carries_hits_witness :
  ∃ w' below,
    queryMulti
      (Node {| From := 1; To := 9 |}
         (Node {| From := 1; To := 5 |} nilnode nilnode [])
         (Node {| From := 9; To := 9 |} nilnode nilnode []) [])
      [20; 1] [30; 9] {| result := ∅; calls := [] |} = Some w' ∧
    calls w' = [] ++ ({| From := 1; To := 9 |}, [20; 1], [30; 9]) :: below ∧
    (∀ e p, e ∈ below → p ∈ zip e.1.2 e.2 →
            p ∈ zip [20; 1] [30; 9] ∧ Disjoint {| From := 1; To := 9 |} p.1 p.2 = false) ∧
    (hits {| From := 1; To := 9 |} (zip [20; 1] [30; 9]) = [] → below = []).
Proof.
  apply (sequential_queryMulti_carries_hits {| From := 1; To := 9 |}
           (Node {| From := 1; To := 5 |} nilnode nilnode [])
           (Node {| From := 9; To := 9 |} nilnode nilnode []) []
           [20; 1] [30; 9] {| result := ∅; calls := [] |}).
  simpl. lia.
Defined.

(** ** Flattening *)

Lemma traverse_append n : ∀ array,
  diag.traverse n (Some diag.append_node) None array = array ++ diag.Tree2Array n.
Proof.
  unfold diag.Tree2Array.
  induction n as [|segment l IHl r IHr overlap]; intros array; simpl.
  - by rewrite app_nil_r.
  - rewrite (IHl (diag.traverse r _ _ _)), (IHr (array ++ _)), (IHl (diag.traverse r _ _ _)),
      (IHr [_]).
    by rewrite <-!(assoc_L (++)).
Qed.

Lemma Tree2Array_Node segment l r overlap :
  diag.Tree2Array (Node segment l r overlap) =
    {| serial.SO_Segment := segment; serial.SO_Interval := overlap |} ::
    diag.Tree2Array r ++ diag.Tree2Array l.
Proof.
  unfold diag.Tree2Array at 1. simpl. by rewrite !traverse_append, <-!(assoc_L (++)).
Qed.

Lemma Tree2Array_lists_every_node_aux :
  (∀ n, length (diag.Tree2Array n) = count_nodes n) ∧
  (∀ n so, so ∈ diag.Tree2Array n ↔
           ∃ l r, subnode (Node (serial.SO_Segment so) l r (serial.SO_Interval so)) n).
Proof.
  split.
  { induction n as [|segment l IHl r IHr overlap]; [done|].
    rewrite Tree2Array_Node. simpl. rewrite length_app, IHl, IHr. lia. }
  induction n as [|segment l IHl r IHr overlap]; intros so.
  { split; [intros H; by apply elem_of_nil in H|]. intros (l & r & H). inversion H. }
  rewrite Tree2Array_Node, elem_of_cons, elem_of_app, IHl, IHr. split.
  - intros [->|[(l' & r' & H)|(l' & r' & H)]].
    + exists l, r. constructor.
    + exists l', r'. by apply subnode_right.
    + exists l', r'. by apply subnode_left.
  - intros (l' & r' & H).
    inversion H as [| ? ? ? ? ? Hn | ? ? ? ? ? Hn]; subst.
    + left. by destruct so.
    + right. right. eauto.
    + right. left. eauto.
Qed.

(** X14.  [Tree2Array] of a nil root returns the empty slice.  Otherwise
    it lists the root, then the right subtree, then the left subtree: every
    node of the tree once, with its segment and its overlap list. *)
Theorem Tree2Array_lists_every_node :
  (∀ t, root t = nilnode → diag.stree_Tree2Array t = Returned [] t) ∧
  (∀ n, length (diag.Tree2Array n) = count_nodes n) ∧
  (∀ n so, so ∈ diag.Tree2Array n ↔
           ∃ l r, subnode (Node (serial.SO_Segment so) l r (serial.SO_Interval so)) n) ∧
  (∀ segment l r overlap,
     diag.Tree2Array (Node segment l r overlap) =
       {| serial.SO_Segment := segment; serial.SO_Interval := overlap |} ::
       diag.Tree2Array r ++ diag.Tree2Array l).
Proof.
  destruct Tree2Array_lists_every_node_aux as [Hlen Hlist].
  split; [intros t Ht; unfold diag.stree_Tree2Array; by rewrite Ht|].
  split; [done|]. split; [done|]. apply Tree2Array_Node.
Qed.



Lemma holds_Forall_overlap (P : Segment → Interval → Prop) n i :
  Forall_overlap P n → holds n i → ∃ s, P s i.
Proof.
  induction n as [|s l IHl r IHr ov]; simpl; [done|].
  intros (Ho & Hl & Hr) [Hi|[Hi|Hi]]; [|by auto|by auto].
  rewrite Forall_forall in Ho. eauto.
Qed.


Lemma Tree2Array_lists_every_node_witness :
  diag.stree_Tree2Array (pushed [(3, 7)] NewTree) = Returned [] (pushed [(3, 7)] NewTree).
Proof.
  apply (proj1 Tree2Array_lists_every_node (pushed [(3, 7)] NewTree)). reflexivity.
Defined.


(** ** Size and depth of the sequential tree *)

Lemma built_count lvs n : built lvs n → count_nodes n = (2 * length lvs - 1)%nat.
Proof.
  induction 1 as [leaf overlap|lvs first lst l r overlap H2 Hh Hla Hl IHl Hr IHr]; [done|].
  simpl. rewrite IHl, IHr, length_take, length_drop.
  pose proof (half_bounds _ H2). lia.
Qed.

Lemma log2_up_half (n x : nat) :
  (2 <= n → 1 <= x → x <= n - n / 2 → S (Nat.log2_up x) <= Nat.log2_up n)%nat.
Proof.
  intros Hn Hx Hle.
  pose proof (Nat.log2_up_pos n ltac:(lia)) as Hpos.
  destruct (Nat.log2_up_spec n ltac:(lia)) as [_ Hup].
  assert (Nat.log2_up x <= Nat.pred (Nat.log2_up n))%nat; [|lia].
  apply Nat.log2_up_le_pow2; [lia|].
  destruct (Nat.log2_up n) as [|k]; [lia|]. cbn [Nat.pred].
  rewrite Nat.pow_succ_r' in Hup.
  pose proof (half_bounds _ Hn). pose proof (Nat.div_mod_eq n 2).
  pose proof (Nat.mod_upper_bound n 2 ltac:(lia)). lia.
Qed.

Lemma built_height lvs n : built lvs n → (height n <= S (Nat.log2_up (length lvs)))%nat.
Proof.
  induction 1 as [leaf overlap|lvs first lst l r overlap H2 Hh Hla Hl IHl Hr IHr].
  { simpl. lia. }
  simpl. rewrite length_take in IHl. rewrite length_drop in IHr.
  pose proof (half_bounds _ H2) as [Hc1 Hc2].
  pose proof (Nat.div_mod_eq (length lvs) 2) as Hdm.
  pose proof (Nat.mod_upper_bound (length lvs) 2 ltac:(lia)) as Hmod.
  rewrite Nat.min_l in IHl by lia.
  pose proof (log2_up_half (length lvs) (length lvs / 2) H2 Hc1 ltac:(lia)).
  pose proof (log2_up_half (length lvs) (length lvs - length lvs / 2) H2 ltac:(lia) ltac:(lia)).
  lia.
Qed.

(** X16.  [insertNodes] panics on an empty leaf slice.  On any other slice it
    returns a tree whose leaves are the slice in order, with [2n-1] nodes for
    [n] leaves, no overlap list filled, and at most [1 + ceil(log2 n)] nodes
    on any path from the root. *)
Theorem insertNodes_balanced :
  insertNodes [] = None ∧
  ∀ lvs, lvs ≠ [] →
    ∃ n, insertNodes lvs = Some n ∧
      leaves n = lvs ∧
      count_nodes n = (2 * length lvs - 1)%nat ∧
      (height n <= S (Nat.log2_up (length lvs)))%nat ∧
      (∀ i, ¬ holds n i).
Proof.
  split; [done|]. intros lvs Hne.
  destruct (insertNodes_built lvs Hne) as (n & Hn & Hb & Hfresh).
  exists n. split; [done|]. split; [by apply built_leaves|].
  split; [by apply built_count|]. split; [by apply built_height|].
  intros i Hi. by destruct (holds_Forall_overlap _ _ _ Hfresh Hi).
Qed.

Lemma insertNodes_balanced_witness :
  ∃ n, insertNodes (alternating [1; 5; 9]) = Some n ∧
    leaves n = alternating [1; 5; 9] ∧
    count_nodes n = (2 * length (alternating [1; 5; 9]%Z) - 1)%nat ∧
    (height n <= S (Nat.log2_up (length (alternating [1; 5; 9]%Z))))%nat ∧
    (∀ i, ¬ holds n i).
Proof.
  apply (proj2 insertNodes_balanced (alternating [1; 5; 9])). discriminate.
Defined.

Lemma bounds_size base endpoints :
  StronglySorted Z.lt endpoints →
  (∀ x, x ∈ endpoints ↔ ∃ i, i ∈ base ∧ (x = From (Seg i) ∨ x = To (Seg i))) →
  size (bounds base) = length endpoints.
Proof.
  intros Hs Hel.
  assert (bounds base = list_to_set endpoints) as ->.
  { apply set_eq. intros x. unfold bounds.
    rewrite !elem_of_list_to_set, elem_of_app, !list_elem_of_fmap, Hel. simpl.
    naive_solver. }
  apply size_list_to_set.
  clear -Hs. induction Hs as [|x l Hs IH Hall]; constructor; [|done].
  intros Hin. rewrite Forall_forall in Hall. apply Hall in Hin. lia.
Qed.

(** X17.  For [k] distinct bounds among the staged intervals, the tree
    [stree.BuildTree] returns has [2k-1] leaves and [4k-3] nodes, which is
    the length of its [Tree2Array], and at most [1 + ceil(log2 (2k-1))]
    nodes on any path from the root. *)
Theorem BuildTree_size t t' :
  BuildTree t = Returned tt t' →
  length (leaves (root t')) = (2 * size (bounds (base t)) - 1)%nat ∧
  count_nodes (root t') = (4 * size (bounds (base t)) - 3)%nat ∧
  diag.stree_Tree2Array t' = Returned (diag.Tree2Array (root t')) t' ∧
  length (diag.Tree2Array (root t')) = (4 * size (bounds (base t)) - 3)%nat ∧
  (height (root t') <= S (Nat.log2_up (2 * size (bounds (base t)) - 1)))%nat.
Proof.
  intros Hbuild.
  pose proof (BuildTree_Returned_inv _ _ Hbuild) as Hne.
  destruct (BuildTree_returns t Hne)
    as (endpoints & mn & mx & n0 & HE & Hs & Hel & Hh & Hl & Hb & Hfresh & Hret).
  rewrite Hret in Hbuild. injection Hbuild as <-. cbn [root].
  pose proof (foldl_insertInterval_built _ (base t) _ Hb) as Hbt.
  rewrite (bounds_size _ _ Hs Hel).
  destruct endpoints as [|p ps]; [done|].
  pose proof (alternating_length p ps) as Hlen.
  rewrite (built_leaves _ _ Hbt).
  pose proof (built_count _ _ Hbt) as Hcount.
  pose proof (built_height _ _ Hbt) as Hheight.
  destruct Tree2Array_lists_every_node_aux as [Hta _].
  rewrite Hta, Hcount, Hlen. rewrite Hlen in Hheight.
  repeat split; try done; simpl length in *; lia.
Qed.

Lemma BuildTree_size_witness :
  length (leaves (root (state_of (BuildTree (pushed [(1, 1); (5, 9)] NewTree))))) =
    (2 * size (bounds (base (pushed [(1, 1); (5, 9)]%Z NewTree))) - 1)%nat ∧
  count_nodes (root (state_of (BuildTree (pushed [(1, 1); (5, 9)] NewTree)))) =
    (4 * size (bounds (base (pushed [(1, 1); (5, 9)]%Z NewTree))) - 3)%nat.
Proof.
  destruct (BuildTree_size (pushed [(1, 1); (5, 9)] NewTree)
              (state_of (BuildTree (pushed [(1, 1); (5, 9)] NewTree))))
    as (H1 & H2 & _).
  - vm_compute. reflexivity.
  - split; [exact H1|exact H2].
Defined.

(** ** The parallel tree's fall-back flag *)

(** X18.  [multi.BuildTree] sets [single] when there are fewer than [10 * numG]
    distinct bounds and never clears it: a tree that once fell back to
    single processing builds every later staging set the same way, until
    [Clear]. *)
Theorem multi_BuildTree_single_sticks m m' :
  multi.BuildTree m = Returned tt m' →
  multi.numG m' = multi.numG m ∧
  (multi.single m = true → multi.single m' = true) ∧
  ((size (bounds (multi.base m)) < multi.numG m * 10)%nat → multi.single m' = true) ∧
  ((multi.numG m * 10 <= size (bounds (multi.base m)))%nat →
   multi.single m' = multi.single m) ∧
  multi.single (multi.Clear m') = false.
Proof.
  unfold multi.BuildTree. case_decide as Hlen; [done|].
  assert (multi.base m ≠ []) as Hne by (by destruct (multi.base m)).
  destruct (Endpoints_spec _ Hne) as (endpoint & mn & mx & HE & Hs & Hel & _).
  rewrite HE. rewrite (bounds_size _ _ Hs Hel).
  cbn zeta. unfold multi.insertNodes, multi.insertIntervalM.
  case_decide as Hsm; cbn [multi.count multi.root multi.base multi.min multi.max
                            multi.numG multi.single negb] in *.
  - destruct (multi.insertNodes_rec _ mx true endpoint 0) as [n0|]; [|done].
    intros Hret. injection Hret as <-. cbn. repeat split; try done; lia.
  - destruct (multi.insertNodes_rec _ mx (multi.single m) endpoint 0) as [n0|]; [|done].
    intros Hret. injection Hret as <-. cbn. repeat split; try done; lia.
Qed.

Lemma multi_BuildTree_single_sticks_witness :
  multi.single (state_of (multi.BuildTree (mpushed [(1, 1); (5, 9)] multi.NewMTree))) = true.
Proof.
  destruct (multi_BuildTree_single_sticks (mpushed [(1, 1); (5, 9)] multi.NewMTree)
              (state_of (multi.BuildTree (mpushed [(1, 1); (5, 9)] multi.NewMTree))))
    as (_ & _ & H & _).
  - vm_compute. reflexivity.
  - apply H. vm_compute. lia.
Defined.

(** ** The earlier revision of package stree *)

(** X19.  The three segment tests of the two revisions say the same thing:
    [intersectsWith] is the negation of [Disjoint], [CompareTo] answers
    [DISJOINT] exactly when [Disjoint] does, and on a segment that is not
    reversed it answers [SUBSET] exactly when [subsetOf] does. *)
Theorem segment_tests_agree s other :
  intersectsWith s other = negb (Disjoint s (From other) (To other)) ∧
  (stree0.CompareTo s other = stree0.DISJOINT ↔
   Disjoint s (From other) (To other) = true) ∧
  (From s <= To s →
   (stree0.CompareTo s other = stree0.SUBSET ↔ subsetOf s other = true)).
Proof.
  unfold intersectsWith, Disjoint, stree0.CompareTo, subsetOf.
  split; [|split].
  - case_decide; [apply bool_decide_eq_false|apply bool_decide_eq_true]; lia.
  - repeat case_decide; split; done.
  - intros Hord. rewrite bool_decide_eq_true. repeat case_decide; split; try done; lia.
Qed.

Lemma segment_tests_agree_witness :
  stree0.CompareTo {| From := 1; To := 5 |} {| From := 0; To := 9 |} = stree0.SUBSET ↔
  subsetOf {| From := 1; To := 5 |} {| From := 0; To := 9 |} = true.
Proof.
  apply (proj2 (proj2 (segment_tests_agree {| From := 1; To := 5 |}
                         {| From := 0; To := 9 |}))).
  simpl. lia.
Defined.

Lemma stree0_insertNodes_rec_fresh fuel : ∀ endpoint n,
  stree0.insertNodes_rec fuel endpoint = Some n →
  Forall_overlap (λ _ _, False) n ∧ n ≠ nilnode.
Proof.
  induction fuel as [|fuel IH]; intros endpoint n H; [done|].
  simpl in H. destruct endpoint as [|e0 [|e1 rest]]; [done| |].
  - injection H as <-. simpl. auto.
  - destruct (last (e0 :: e1 :: rest)) as [lst|]; [|done].
    simpl in H.
    destruct (stree0.insertNodes_rec fuel (take _ _)) as [l|] eqn:Hl; [|done].
    destruct (stree0.insertNodes_rec fuel (drop _ _)) as [r|] eqn:Hr; [|done].
    simpl in H. injection H as <-.
    apply IH in Hl as [Hl _]. apply IH in Hr as [Hr _]. simpl. auto.
Qed.

(** X20.  On the tree the earlier revision's [BuildTree] returns, [Query]
    returns only identifiers of staged intervals that are not disjoint from
    the probe range. *)
Theorem stree0_Query_returns_only_overlapping t t' from to :
  stree0.BuildTree t = Returned tt t' →
  ∃ found,
    Query from to t' = Returned found t' ∧
    ∀ x, x ∈ ids found →
         ∃ i, i ∈ base t ∧ Id i = x ∧ Disjoint (Seg i) from to = false.
Proof.
  unfold stree0.BuildTree. case_decide as Hlen; [done|].
  destruct (Endpoints (base t)) as [[[endpoint mn] mx]|]; [|done].
  cbn [count root base min max]. unfold stree0.insertNodes.
  destruct (stree0.insertNodes_rec _ endpoint) as [n0|] eqn:Hn0; [|done].
  intros Hret. injection Hret as <-.
  apply stree0_insertNodes_rec_fresh in Hn0 as [Hfresh Hnn].
  set (P := λ (s : Segment) (i : Interval), subsetOf s (Seg i) = true ∧ i ∈ base t).
  assert (foldl stree0.insertInterval n0 (base t) =
          foldl multi.insertInterval n0 (base t)) as Heq.
  { clear. generalize (base t). intros ivs. revert n0.
    induction ivs as [|i ivs IH]; intros n0; simpl; [done|].
    apply IH. }
  assert (Forall_overlap P (foldl stree0.insertInterval n0 (base t))) as HP.
  { rewrite Heq. apply (foldl_Forall_overlap multi.insertInterval).
    - intros n i. exact (multi_insertInterval_Forall_overlap _ n i).
    - by intros i s Hi Hsub.
    - eapply Forall_overlap_impl; [|exact Hfresh]. done. }
  destruct (Query_ids {| count := count t;
                         root := foldl stree0.insertInterval n0 (base t);
                         base := base t; min := mn; max := mx |} from to)
    as (found & HQ & Hids).
  { cbn [root]. rewrite Heq. by apply foldl_multi_insertInterval_not_nil. }
  exists found. split; [done|]. intros x Hx. rewrite Hids in Hx. cbn [root] in Hx.
  apply elem_of_ids in Hx as (j & Hj & <-).
  destruct (visited_Forall_overlap _ _ _ _ _ HP Hj) as (s & [Hsub Hin] & Hd).
  exists j. split; [done|]. split; [done|].
  unfold subsetOf in Hsub. apply bool_decide_eq_true in Hsub.
  unfold Disjoint in *. repeat case_decide; try done. lia.
Qed.

Lemma stree0_Query_returns_only_overlapping_witness :
  ∃ found,
    Query 2 3 (state_of (stree0.BuildTree (pushed [(1, 5); (9, 9)] NewTree)))
      = Returned found (state_of (stree0.BuildTree (pushed [(1, 5); (9, 9)] NewTree))) ∧
    ∀ x, x ∈ ids found →
         ∃ i, i ∈ base (pushed [(1, 5); (9, 9)] NewTree) ∧ Id i = x ∧
              Disjoint (Seg i) 2 3 = false.
Proof.
  apply (stree0_Query_returns_only_overlapping (pushed [(1, 5); (9, 9)] NewTree)).
  vm_compute. reflexivity.
Defined.
